(** * GloVe preprocessing tools: vocab_count, cooccur and shuffle

    A shallow embedding of the three C programs and the properties of
    their outputs.  Files are modelled as lists (of bytes for text, of
    records for the binary formats), the [real] type by exact rationals
    [Qc], C [int]/[long long] values by [Z], and array indices that the
    code keeps non-negative by [nat]. *)

From Stdlib Require Import ZArith List Lia ZifyNat QArith Qcanon.
From Stdlib Require Import Init.Byte Strings.Byte.
From stdpp Require Import base list numbers sorting.

Local Open Scope Z_scope.

Ltac Zify.zify_post_hook ::= Z.to_euclidean_division_equations.

#[global] Instance byte_eq_dec : EqDecision byte := Byte.byte_eq_dec.

(** ** Platform parameters *)

(** Whether plain [char] is signed is chosen by the ABI: it is signed on
    x86-64 and unsigned on Linux/AArch64. *)
Class Platform := { char_signed : bool }.

Definition x86_64 : Platform := {| char_signed := true |}.
Definition aarch64 : Platform := {| char_signed := false |}.

(** ** The C library: streams and formatted input *)

Module Stdio.

(** A stream open for reading: the bytes still to be read and the
    end-of-file indicator. *)
Record FILE := mkFILE { buf : list byte; eof : bool }.

Definition fopen (content : list byte) : FILE :=
  {| buf := content; eof := false |}.

Definition EOF : Z := -1.

Definition int_of_byte (b : byte) : Z := Z.of_N (Byte.to_N b).

(** Conversion of an [int] to [char] when it is stored in a buffer. *)
Definition byte_of_int (z : Z) : byte :=
  match Byte.of_N (Z.to_N (z mod 256)) with
  | Some b => b
  | None => x00
  end.

Definition fgetc (f : FILE) : Z * FILE :=
  match buf f with
  | [] => (EOF, {| buf := []; eof := true |})
  | b :: r => (int_of_byte b, {| buf := r; eof := eof f |})
  end.

Definition ungetc (ch : Z) (f : FILE) : FILE :=
  {| buf := byte_of_int ch :: buf f; eof := false |}.

Definition feof (f : FILE) : bool := eof f.

(** [isspace] in the C locale. *)
Definition isspace (b : byte) : bool :=
  let n := int_of_byte b in ((9 <=? n) && (n <=? 13)) || (n =? 32).

Definition isdigit (b : byte) : bool :=
  let n := int_of_byte b in (48 <=? n) && (n <=? 57).

Fixpoint skip_space (s : list byte) : list byte :=
  match s with
  | b :: r => if isspace b then skip_space r else s
  | [] => []
  end.

Fixpoint skip_digits (s : list byte) : list byte :=
  match s with
  | b :: r => if isdigit b then skip_digits r else s
  | [] => []
  end.

Definition skip_sign (s : list byte) : list byte :=
  match s with
  | b :: r => if (int_of_byte b =? 43) || (int_of_byte b =? 45) then r else s
  | [] => []
  end.

(** The [%<width>s] conversion once leading white space is gone: at
    most [width] bytes up to the next white-space byte, which stays in
    the stream. *)
Fixpoint scan_word (width : nat) (s : list byte) : list byte * list byte :=
  match width, s with
  | S w, b :: r =>
      if isspace b then ([], s)
      else let '(t, rest) := scan_word w r in (b :: t, rest)
  | _, _ => ([], s)
  end.

(** [fscanf(f, "%<width>s", str)]: [None] stands for the return value
    [EOF] (end of input before any conversion); otherwise the bytes
    stored in [str] before the terminating NUL. *)
Definition fscanf_s (width : nat) (f : FILE) : option (list byte) * FILE :=
  match skip_space (buf f) with
  | [] => (None, {| buf := []; eof := true |})
  | s =>
      let '(t, rest) := scan_word width s in
      (Some t, {| buf := rest;
                  eof := match rest with
                         | [] => (length t <? width)%nat
                         | _ => false
                         end |})
  end.

(** [fscanf(f, "%<width>s %lld", str, &id)]: the integer is matched
    (optional sign, then digits) and dropped; a matching failure of
    the second conversion still returns a count different from
    [EOF]. *)
Definition fscanf_s_lld (width : nat) (f : FILE) : option (list byte) * FILE :=
  match fscanf_s width f with
  | (None, f') => (None, f')
  | (Some t, f') =>
      let s := skip_digits (skip_sign (skip_space (buf f'))) in
      (Some t, {| buf := s; eof := match s with [] => true | _ => false end |})
  end.

(** The C string held by a buffer: its bytes up to the first NUL. *)
Fixpoint cstring (b : list byte) : list byte :=
  match b with
  | [] => []
  | c :: r => if Byte.eqb c x00 then [] else c :: cstring r
  end.

(** The decimal digits that [printf] writes for a number [n >= 0],
    the most significant first; [fuel] bounds their number. *)
Fixpoint digits (fuel : nat) (n : Z) (acc : list byte) : list byte :=
  match fuel with
  | O => acc
  | S fuel' =>
      let acc := byte_of_int (48 + n mod 10) :: acc in
      if n / 10 =? 0 then acc else digits fuel' (n / 10) acc
  end.

(** The conversion [%lld] of [printf]; a number below [2 ^ k] has at
    most [k] digits. *)
Definition lld (z : Z) : list byte :=
  if z <? 0 then x2d :: digits (S (Z.to_nat (Z.log2 (- z)))) (- z) []
  else digits (S (Z.to_nat (Z.log2 z))) z [].

End Stdio.

Import Stdio.

(** ** Code shared by vocab_count.c and cooccur.c *)

Definition TSIZE : Z := 1048576.
Definition SEED : Z := 1159241.
Definition MAX_STRING_LENGTH : nat := 1000.

Section Strings.
Context {plat : Platform}.

(** The value of a [char] read from memory. *)
Definition char_val (b : byte) : Z :=
  let n := int_of_byte b in
  if char_signed && (128 <=? n) then n - 256 else n.

(** A string is given by the bytes before its terminator; [deref s]
    is the byte a pointer to it points to. *)
Definition deref (s : list byte) : byte := hd x00 s.

(** [scmp]: the loop advances while [*s1] is not NUL and equals
    [*s2]. *)
Fixpoint scmp (s1 s2 : list byte) : Z :=
  match s1, s2 with
  | c1 :: r1, c2 :: r2 =>
      if negb (Byte.eqb c1 x00) && Byte.eqb c1 c2 then scmp r1 r2
      else char_val c1 - char_val c2
  | _, _ => char_val (deref s1) - char_val (deref s2)
  end.

(** Arithmetic on [unsigned int]. *)
Definition u32 (z : Z) : Z := z mod 2 ^ 32.

Fixpoint bitwisehash_loop (word : list byte) (h : Z) : Z :=
  match word with
  | [] => h
  | c :: w =>
      bitwisehash_loop w
        (Z.lxor h (u32 (Z.shiftl h 5 + char_val c + Z.shiftr h 2)))
  end.

Definition bitwisehash (word : list byte) (tsize seed : Z) : Z :=
  Z.rem (Z.land (bitwisehash_loop word (u32 seed)) 0x7fffffff) tsize.

End Strings.

(** [find_arg], which the three programs share: the value returned,
    or the call of [exit]. *)
Inductive arg_result :=
| Returned (i : Z)
| Exited.

Section Options.
Context {plat : Platform}.

(** The loop from index [i] on; [rest] holds [argv[i]], [argv[i+1]],
    ... up to [argv[argc-1]]. *)
Fixpoint find_arg_loop (str : list byte) (argc i : Z) (rest : list (list byte))
  : arg_result :=
  match rest with
  | [] => Returned (-1)
  | a :: rest' =>
      if scmp str a =? 0 then
        if i =? argc - 1 then Exited else Returned i
      else find_arg_loop str argc (i + 1) rest'
  end.

Definition find_arg (str : list byte) (argv : list (list byte)) : arg_result :=
  find_arg_loop str (Z.of_nat (length argv)) 1 (drop 1 argv).

End Options.

(** [qsort] leaves the order of elements that compare equal open; the
    model sorts with a merge sort on the relation [cmp a b <= 0]. *)
Definition cmp_le {A} (cmp : A -> A -> Z) : relation A :=
  fun a b => cmp a b <= 0.

#[global] Instance cmp_le_dec {A} (cmp : A -> A -> Z) : RelDecision (cmp_le cmp) :=
  fun a b => decide (cmp a b <= 0).

Definition qsort {A} (cmp : A -> A -> Z) (l : list A) : list A :=
  merge_sort (cmp_le cmp) l.

(** ** cooccur.c *)

Module Cooccur.

Record CREC := mkCREC { word1 : Z; word2 : Z; val : Qc }.

(** [CRECID] starts with the fields of [CREC]; the code reads and
    writes that prefix with [sizeof(CREC)].  The field [id] holds the
    number of a run file and is set before it is read. *)
Record CRECID := mkCRECID { crec : CREC; id : nat }.

#[global] Instance CREC_inhabited : Inhabited CREC :=
  populate (mkCREC 0 0 0%Qc).
#[global] Instance CRECID_inhabited : Inhabited CRECID :=
  populate (mkCRECID inhabitant 0).

Record HASHREC := mkHASHREC { word : list byte; hid : Z }.

(** The table [ht] maps a bucket number to its chain. *)
Definition table := Z -> list HASHREC.

Definition inithashtable : table := fun _ => [].

Definition set_bucket (ht : table) (hval : Z) (chain : list HASHREC) : table :=
  fun i => if i =? hval then chain else ht i.

Section Hashing.
Context {plat : Platform}.

(** The walk along a chain: the records passed, the record whose
    word matches, and those behind it. *)
Fixpoint chain_find (chain : list HASHREC) (w : list byte)
  : option (list HASHREC * HASHREC * list HASHREC) :=
  match chain with
  | [] => None
  | r :: rest =>
      if scmp (word r) w =? 0 then Some ([], r, rest)
      else match chain_find rest w with
           | Some (pre, x, post) => Some (r :: pre, x, post)
           | None => None
           end
  end.

Definition hashsearch (ht : table) (w : list byte) : option HASHREC * table :=
  let hval := bitwisehash w TSIZE SEED in
  match chain_find (ht hval) w with
  | None => (None, ht)
  | Some ([], r, _) => (Some r, ht)
  | Some (pre, r, post) => (Some r, set_bucket ht hval (r :: pre ++ post))
  end.

Definition hashinsert (ht : table) (w : list byte) (id : Z) : table :=
  let hval := bitwisehash w TSIZE SEED in
  match chain_find (ht hval) w with
  | None => set_bucket ht hval (ht hval ++ [mkHASHREC w id])
  | Some _ => ht
  end.
End Hashing.

(** [get_word]: [word] is the caller's buffer, [i] the write index.
    The result is the return value, the buffer and the stream. *)
Definition store_char (word : list byte) (i : nat) (ch : Z) : list byte * nat :=
  let word := <[i := byte_of_int ch]> word in
  let i := S i in
  (word, if (MAX_STRING_LENGTH - 1 <=? i)%nat then (i - 1)%nat else i).

Fixpoint get_word_loop (word : list byte) (i : nat) (s : list byte)
  : Z * list byte * FILE :=
  match s with
  | [] =>
      (* fgetc returns EOF and sets the indicator; EOF is no delimiter *)
      let '(word, i) := store_char word i EOF in
      (0, <[i := x00]> word, {| buf := []; eof := true |})
  | b :: s' =>
      let ch := int_of_byte b in
      if ch =? 13 then get_word_loop word i s'
      else if (ch =? 32) || (ch =? 9) || (ch =? 10) then
        if (0 <? i)%nat then
          (0, <[i := x00]> word,
           if ch =? 10 then ungetc ch {| buf := s'; eof := false |}
           else {| buf := s'; eof := false |})
        else if ch =? 10 then (1, word, {| buf := s'; eof := false |})
        else get_word_loop word i s'
      else
        let '(word, i) := store_char word i ch in
        get_word_loop word i s'
  end.

Definition get_word (word : list byte) (fin : FILE) : Z * list byte * FILE :=
  if feof fin then (0, <[0%nat := x00]> word, fin)
  else get_word_loop word 0 (buf fin).

(** [write_chunk]: the records written to the run file. *)
Fixpoint write_chunk_loop (old : CREC) (cr : list CREC) : list CREC :=
  match cr with
  | [] => [old]
  | r :: rest =>
      if (word1 r =? word1 old) && (word2 r =? word2 old)
      then write_chunk_loop (mkCREC (word1 old) (word2 old) (val old + val r)) rest
      else old :: write_chunk_loop r rest
  end.

Definition write_chunk (cr : list CREC) : list CREC :=
  match cr with
  | [] => []
  | r :: rest => write_chunk_loop r rest
  end.

(** [compare_crec] subtracts values of type [int].  The differences
    are taken here in [Z]: they are the values the source computes as
    long as they are values of [int] themselves, which is so for any
    two ranks ([MergeProps.no_wrap]). *)
Definition compare_crec (a b : CREC) : Z :=
  let c := word1 a - word1 b in
  if negb (c =? 0) then c else word2 a - word2 b.

Definition compare_crecid (a b : CRECID) : Z :=
  compare_crec (crec a) (crec b).

(** *** The priority queue *)

Definition swap_entry (pq : list CRECID) (i j : nat) : list CRECID :=
  let temp := pq !!! i in
  <[j := temp]> (<[i := pq !!! j]> pq).

(** The sift-up loop of [insert]; [(j - 1) / 2] is 0 at [j = 0] in C
    as on [nat].  The index strictly decreases, so [S j] rounds are
    enough. *)
Fixpoint insert_loop (fuel : nat) (pq : list CRECID) (j : nat) : list CRECID :=
  match fuel with
  | O => pq
  | S fuel' =>
      let p := ((j - 1) / 2)%nat in
      if compare_crecid (pq !!! p) (pq !!! j) >? 0
      then insert_loop fuel' (swap_entry pq p j) p
      else pq
  end.

Definition insert (pq : list CRECID) (new : CRECID) (size : nat) : list CRECID :=
  let j := (size - 1)%nat in
  insert_loop (S j) (<[j := new]> pq) j.

(** The sift-down loop of [delete]; the index [p] grows in each
    round, so [size] rounds are enough. *)
Fixpoint delete_loop (fuel : nat) (pq : list CRECID) (size p : nat) : list CRECID :=
  match fuel with
  | O => pq
  | S fuel' =>
      let j := (2 * p + 1)%nat in
      if (j <? size - 1)%nat then
        if (j =? size - 2)%nat then
          if compare_crecid (pq !!! p) (pq !!! j) >? 0
          then swap_entry pq p j else pq
        else if compare_crecid (pq !!! j) (pq !!! (j + 1)%nat) <? 0 then
          if compare_crecid (pq !!! p) (pq !!! j) >? 0
          then delete_loop fuel' (swap_entry pq p j) size j
          else pq
        else
          if compare_crecid (pq !!! p) (pq !!! (j + 1)%nat) >? 0
          then delete_loop fuel' (swap_entry pq p (j + 1)) size (j + 1)%nat
          else pq
      else pq
  end.

Definition delete (pq : list CRECID) (size : nat) : list CRECID :=
  delete_loop size (<[0%nat := pq !!! (size - 1)%nat]> pq) size 0.

(** [merge_write]: the new [old] and what was written. *)
Definition merge_write (new : CRECID) (old : CRECID) : CRECID * list CREC :=
  if (word1 (crec new) =? word1 (crec old)) && (word2 (crec new) =? word2 (crec old))
  then (mkCRECID (mkCREC (word1 (crec old)) (word2 (crec old))
                    (val (crec old) + val (crec new))) (id old), [])
  else (new, [crec old]).

(** [fread(&new, sizeof(CREC), 1, f)] on a run file: at end of file
    nothing is stored and the indicator is set. *)
Definition fread (new : CRECID) (f : list CREC) : CRECID * list CREC * bool :=
  match f with
  | [] => (new, [], true)
  | r :: f' => (mkCRECID r (id new), f', false)
  end.

Definition set_id (new : CRECID) (i : nat) : CRECID := mkCRECID (crec new) i.

(** The loop that opens the run files and puts the first entry of
    each into the queue. *)
Fixpoint prime (files : list (list CREC)) (i : nat) (new : CRECID)
    (pq : list CRECID) (fid : list (list CREC))
  : CRECID * list CRECID * list (list CREC) :=
  match files with
  | [] => (new, pq, fid)
  | f :: rest =>
      let '(new, f', _) := fread new f in
      let new := set_id new i in
      prime rest (S i) new (insert pq new (S i)) (fid ++ [f'])
  end.

Record merge_state := mkMS {
  ms_pq : list CRECID;
  ms_size : nat;
  ms_fid : list (list CREC);
  ms_new : CRECID;
  ms_old : CRECID;
  ms_out : list CREC
}.

(** Pop the top node and refill the queue from the file it came from. *)
Definition refill (st : merge_state) : merge_state :=
  let i := id (ms_pq st !!! 0%nat) in
  let pq := delete (ms_pq st) (ms_size st) in
  let '(new, f', at_eof) := fread (ms_new st) (ms_fid st !!! i) in
  let fid := <[i := f']> (ms_fid st) in
  if at_eof
  then mkMS pq (ms_size st - 1) fid new (ms_old st) (ms_out st)
  else
    let new := set_id new i in
    mkMS (insert pq new (ms_size st)) (ms_size st) fid new (ms_old st) (ms_out st).

Fixpoint merge_loop (fuel : nat) (st : merge_state) : option merge_state :=
  match fuel with
  | O => None
  | S fuel' =>
      if (0 <? ms_size st)%nat then
        let '(old, written) := merge_write (ms_pq st !!! 0%nat) (ms_old st) in
        merge_loop fuel'
          (refill (mkMS (ms_pq st) (ms_size st) (ms_fid st) (ms_new st) old
                     (ms_out st ++ written)))
      else Some st
  end.

(** [merge_files(num)] on the run files [0 .. num-1]; [new0] is the
    indeterminate initial content of the local [new].  The result is
    what is written to standard output.  Every round of the loop
    consumes a record or retires a file, which bounds the rounds. *)
Definition merge_files (new0 : CRECID) (files : list (list CREC)) : option (list CREC) :=
  let num := length files in
  if (num =? 0)%nat then None
  else
    let '(new, pq, fid) := prime files 0 new0 (replicate num new0) [] in
    let st := refill (mkMS pq num fid new (pq !!! 0%nat) []) in
    match merge_loop (S (num + length (concat files))) st with
    | Some st => Some (ms_out st ++ [crec (ms_old st)])
    | None => None
    end.

(** *** get_cooccurrence *)

(** The global options set from the command line. *)
Record Config := mkConfig {
  max_product : Z;
  overflow_length : Z;
  window_size : Z;
  symmetric : Z
}.

(** How a run of the program ends: output on standard output, a
    non-zero return value, or (in the model only) a loop bound hit. *)
Inductive outcome :=
| Done (stdout : list CREC)
| Failed
| OutOfFuel.

(** The loop that fills [lookup]; [a] runs from 1 to [vocab_size]. *)
Fixpoint lookup_loop (n : nat) (a : Z) (vocab_size max_product : Z)
    (lookup : list Z) : list Z :=
  match n with
  | O => lookup
  | S n' =>
      let q := Z.quot max_product a in
      let prev := lookup !!! Z.to_nat (a - 1) in
      let v := if q <? vocab_size then q + prev else prev + vocab_size in
      lookup_loop n' (a + 1) vocab_size max_product (<[Z.to_nat a := v]> lookup)
  end.

Definition build_lookup (vocab_size max_product : Z) : list Z :=
  lookup_loop (Z.to_nat vocab_size) 1 vocab_size max_product
    (<[0%nat := 1]> (replicate (Z.to_nat (vocab_size + 1)) 0)).

(** The cell of [bigram_table] used for the pair [(w1, w2)]. *)
Definition cell (lookup : list Z) (w1 w2 : Z) : Z :=
  lookup !!! Z.to_nat (w1 - 1) + w2 - 2.

(** The state of the pass over the corpus.  [cr] holds the entries
    [cr[0 .. ind-1]], so that [ind] is its length; [cr_high] is the
    largest index of [cr] stored to so far (-1 if none); [runs] are
    the overflow files already closed, in the order of their
    numbers. *)
Record state := mkState {
  fin : FILE;
  str : list byte;
  vocab_hash : table;
  j : Z;
  cr : list CREC;
  cr_high : Z;
  history : list Z;
  bigram_table : Z -> Qc;
  runs : list (list CREC)
}.

Definition ind (st : state) : Z := Z.of_nat (length (cr st)).

Definition add_cell (t : Z -> Qc) (i : Z) (w : Qc) : Z -> Qc :=
  fun x => if x =? i then (t x + w)%Qc else t x.

(** The store [cr[ind] = r; ind++].  The buffer of the source has
    [overflow_length + 1] records; here [cr] grows with every store and
    [cr_high] keeps the largest index used, so that a run which leaves
    the buffer can be told from one that stays inside
    ([Props.stays_in_buffer]). *)
Definition store_cr (st : state) (r : CREC) : state :=
  mkState (fin st) (str st) (vocab_hash st) (j st) (cr st ++ [r])
    (Z.max (cr_high st) (ind st)) (history st) (bigram_table st) (runs st).

Definition set_bigram (st : state) (t : Z -> Qc) : state :=
  mkState (fin st) (str st) (vocab_hash st) (j st) (cr st) (cr_high st)
    (history st) t (runs st).

(** Sort the overflow buffer, write it to the current overflow file
    and start the next one. *)
Definition flush (st : state) : state :=
  mkState (fin st) (str st) (vocab_hash st) (j st) [] (cr_high st)
    (history st) (bigram_table st)
    (runs st ++ [write_chunk (qsort compare_crec (cr st))]).

Definition weight (d : Z) : Qc := (1 / Q2Qc (inject_Z d))%Qc.

Section Pass.
Context {plat : Platform}.
Variable cfg : Config.
Variable lookup : list Z.

(** The loop over the context words [k = j-1, j-2, ...] of the
    target [w2]; [n] is the number of rounds left.  The index
    [k % window_size] into [history] is that of the source for
    [window_size >= 1]; with [window_size = 0] the source divides by
    zero. *)
Fixpoint context_loop (n : nat) (k : Z) (w2 : Z) (st : state) : state :=
  match n with
  | O => st
  | S n' =>
      let w1 := history st !!! Z.to_nat (Z.rem k (window_size cfg)) in
      let st :=
        if w1 <? Z.quot (max_product cfg) w2 then
          let t := add_cell (bigram_table st) (cell lookup w1 w2) (weight (j st - k)) in
          let t := if symmetric cfg >? 0
                   then add_cell t (cell lookup w2 w1) (weight (j st - k)) else t in
          set_bigram st t
        else
          let st := store_cr st (mkCREC w1 w2 (weight (j st - k))) in
          if symmetric cfg >? 0
          then store_cr st (mkCREC w2 w1 (weight (j st - k))) else st
      in context_loop n' (k - 1) w2 st
  end.

Definition process_word (w2 : Z) (st : state) : state :=
  let lo := if j st >? window_size cfg then j st - window_size cfg else 0 in
  let st := context_loop (Z.to_nat (j st - lo)) (j st - 1) w2 st in
  mkState (fin st) (str st) (vocab_hash st) (j st + 1) (cr st) (cr_high st)
    (<[Z.to_nat (Z.rem (j st) (window_size cfg)) := w2]> (history st))
    (bigram_table st) (runs st).

(** The [while (1)] loop over the tokens of standard input. *)
Fixpoint token_loop (fuel : nat) (st : state) : option state :=
  match fuel with
  | O => None
  | S fuel' =>
      let st := if ind st >=? overflow_length cfg - window_size cfg
                then flush st else st in
      let '(flag, str', fin') := get_word (str st) (fin st) in
      let st := mkState fin' str' (vocab_hash st) (j st) (cr st) (cr_high st)
                  (history st) (bigram_table st) (runs st) in
      if feof fin' then Some st
      else if flag =? 1 then
        token_loop fuel'
          (mkState (fin st) (str st) (vocab_hash st) 0 (cr st) (cr_high st)
             (history st) (bigram_table st) (runs st))
      else
        match hashsearch (vocab_hash st) (cstring (str st)) with
        | (None, _) => token_loop fuel' st
        | (Some htmp, ht) =>
            let st := mkState (fin st) (str st) ht (j st) (cr st) (cr_high st)
                        (history st) (bigram_table st) (runs st) in
            token_loop fuel' (process_word (hid htmp) st)
        end
  end.

(** The records of file 0000: the non-zero cells of the table. *)
Definition dump_row (t : Z -> Qc) (x : Z) : list CREC :=
  flat_map
    (fun y => let r := t (lookup !!! Z.to_nat (x - 1) - 2 + y) in
              if Qc_eq_bool r 0 then [] else [mkCREC x y r])
    (map (fun n => Z.of_nat n + 1)
       (seq 0 (Z.to_nat (lookup !!! Z.to_nat x - lookup !!! Z.to_nat (x - 1))))).

Definition dump_table (t : Z -> Qc) (vocab_size : Z) : list CREC :=
  flat_map (dump_row t)
    (map (fun n => Z.of_nat n + 1) (seq 0 (Z.to_nat vocab_size))).
End Pass.

Section Main.
Context {plat : Platform}.

(** The loop that reads the vocabulary file. *)
Fixpoint read_vocab (fuel : nat) (fid : FILE) (ht : table) (j : Z)
  : option (table * Z) :=
  match fuel with
  | O => None
  | S fuel' =>
      match fscanf_s_lld MAX_STRING_LENGTH fid with
      | (None, _) => Some (ht, j)
      | (Some s, fid') =>
          read_vocab fuel' fid' (hashinsert ht (cstring s) (j + 1)) (j + 1)
      end
  end.

Definition load_vocab (vocab_file : list byte) : option (table * Z) :=
  read_vocab (S (length vocab_file)) (fopen vocab_file) inithashtable 0.

(** The state before the first token.  The initial contents of [str]
    and of [history] are never read. *)
Definition initial_state (cfg : Config) (ht : table) (corpus : list byte) : state :=
  mkState (fopen corpus) (replicate (S MAX_STRING_LENGTH) x00) ht 0 [] (-1)
    (replicate (Z.to_nat (window_size cfg)) 0) (fun _ => 0%Qc) [].

(** The state when the loop over standard input is left. *)
Definition corpus_pass (cfg : Config) (ht : table) (lookup : list Z)
    (corpus : list byte) : option state :=
  token_loop cfg lookup (S (length corpus)) (initial_state cfg ht corpus).

(** The run files handed to [merge_files]: file 0000 with the table,
    then the overflow files. *)
Definition run_files (lookup : list Z) (vocab_size : Z) (st : state)
  : list (list CREC) :=
  dump_table lookup (bigram_table st) vocab_size :: runs (flush st).

(** [get_cooccurrence] with the vocabulary file and standard input
    given by their contents.  [new0] is the initial content of [new]
    in [merge_files].  [calloc] fails when the element count
    [lookup[vocab_size]] is negative. *)
Definition get_cooccurrence (cfg : Config) (new0 : CRECID)
    (vocab_file corpus : list byte) : outcome :=
  match load_vocab vocab_file with
  | None => OutOfFuel
  | Some (ht, vocab_size) =>
      let lookup := build_lookup vocab_size (max_product cfg) in
      if lookup !!! Z.to_nat vocab_size <? 0 then Failed
      else
        match corpus_pass cfg ht lookup corpus with
        | None => OutOfFuel
        | Some st =>
            match merge_files new0 (run_files lookup vocab_size st) with
            | Some out => Done out
            | None => OutOfFuel
            end
        end
  end.
End Main.

End Cooccur.

(** ** shuffle.c *)

Module Shuffle.
Import Cooccur.

(** The value of [RAND_MAX] in glibc. *)
Definition RAND_MAX : Z := 2147483647.
Definition LRAND_MAX : Z := (RAND_MAX + 2) * RAND_MAX.

(** The random source is the list of values that the coming calls of
    [rand()] return; a run that needs more than the list holds has no
    result.  In [rand_long] the left call is taken to come first. *)
Fixpoint rand_long_loop (n limit : Z) (draws : list Z) : option (Z * list Z) :=
  match draws with
  | a :: b :: rest =>
      let rnd := (RAND_MAX + 1) * a + b in
      if rnd >=? limit then rand_long_loop n limit rest
      else Some (Z.rem rnd n, rest)
  | _ => None
  end.

Definition rand_long (n : Z) (draws : list Z) : option (Z * list Z) :=
  rand_long_loop n (LRAND_MAX - Z.rem LRAND_MAX n) draws.

(** [shuffle]: the loop index [i] runs from [n - 1] down to 1. *)
Fixpoint shuffle_loop (i : nat) (array : list CREC) (draws : list Z)
  : option (list CREC * list Z) :=
  match i with
  | O => Some (array, draws)
  | S i' =>
      match rand_long (Z.of_nat i + 1) draws with
      | None => None
      | Some (j, draws) =>
          let tmp := array !!! Z.to_nat j in
          let array := <[Z.to_nat j := array !!! i]> array in
          shuffle_loop i' (<[i := tmp]> array) draws
      end
  end.

Definition shuffle (array : list CREC) (n : Z) (draws : list Z)
  : option (list CREC * list Z) :=
  shuffle_loop (Z.to_nat (n - 1)) array draws.

(** *** Second phase *)

(** A temporary file open for reading: the records left and the
    end-of-file indicator. *)
Definition rfile : Type := list CREC * bool.

(** The loop [for (k = 0; k < array_size / num; k++)] on one file:
    the records read and the file afterwards. *)
Fixpoint read_slice (quota : nat) (f : rfile) : list CREC * rfile :=
  match quota with
  | O => ([], f)
  | S q =>
      match f.1 with
      | [] => ([], ([], true))
      | r :: rest =>
          let '(l, f') := read_slice q (rest, f.2) in (r :: l, f')
      end
  end.

(** The loop over the files [j = 0 .. num-1] of one round. *)
Fixpoint read_round (quota : nat) (fid : list rfile) : list CREC * list rfile :=
  match fid with
  | [] => ([], [])
  | f :: rest =>
      let '(l, f') := if f.2 then ([], f) else read_slice quota f in
      let '(ls, rest') := read_round quota rest in
      (l ++ ls, f' :: rest')
  end.

(** The [while (1)] loop of [shuffle_merge]; every round but the
    last reads a record. *)
Fixpoint merge_rounds (fuel : nat) (quota : nat) (fid : list rfile)
    (draws : list Z) (out : list CREC) : option (list CREC) :=
  match fuel with
  | O => None
  | S fuel' =>
      let '(array, fid) := read_round quota fid in
      let i := Z.of_nat (length array) in
      if i =? 0 then Some out
      else
        match shuffle array (i - 1) draws with
        | None => None
        | Some (array, draws) =>
            merge_rounds fuel' quota fid draws (out ++ array)
        end
  end.

Definition shuffle_merge (array_size : Z) (files : list (list CREC))
    (draws : list Z) : option (list CREC) :=
  let num := Z.of_nat (length files) in
  merge_rounds (S (length (concat files)))
    (Z.to_nat (Z.quot array_size num))
    (map (fun f => (f, false)) files) draws [].

(** *** First phase *)

(** The [while (1)] loop of [shuffle_by_chunks]: [array] holds the
    [i] records read into the buffer, [files] the temporary files
    already closed.  The result is the state at the [break]. *)
Fixpoint chunk_loop (array_size : Z) (fin : list CREC) (array : list CREC)
    (files : list (list CREC)) (draws : list Z)
  : option (list CREC * list (list CREC) * list Z) :=
  let i := Z.of_nat (length array) in
  let after_check :=
    if i >=? array_size then
      match shuffle array (i - 2) draws with
      | None => None
      | Some (array, draws) => Some ([], files ++ [array], draws)
      end
    else Some (array, files, draws) in
  match after_check with
  | None => None
  | Some (array, files, draws) =>
      match fin with
      | [] => Some (array, files, draws)
      | r :: fin' => chunk_loop array_size fin' (array ++ [r]) files draws
      end
  end.

(** The temporary files written by the first phase. *)
Definition chunk_files (array_size : Z) (input : list CREC) (draws : list Z)
  : option (list (list CREC) * list Z) :=
  match chunk_loop array_size input [] [] draws with
  | None => None
  | Some (array, files, draws) =>
      match shuffle array (Z.of_nat (length array) - 2) draws with
      | None => None
      | Some (array, draws) => Some (files ++ [array], draws)
      end
  end.

(** [shuffle_by_chunks]: standard input to standard output. *)
Definition shuffle_by_chunks (array_size : Z) (input : list CREC) (draws : list Z)
  : option (list CREC) :=
  match chunk_files array_size input draws with
  | None => None
  | Some (files, draws) => shuffle_merge array_size files draws
  end.

End Shuffle.

(** ** vocab_count.c *)

Module VocabCount.

Record VOCAB := mkVOCAB { word : list byte; count : Z }.

Record HASHREC := mkHASHREC { hword : list byte; hcount : Z }.

Definition table := Z -> list HASHREC.

Definition inithashtable : table := fun _ => [].

Definition set_bucket (ht : table) (hval : Z) (chain : list HASHREC) : table :=
  fun i => if i =? hval then chain else ht i.

(** Outcome of a run: the lines printed, the return value 1, or (in
    the model only) a loop bound hit. *)
Inductive outcome :=
| Done (lines : list (list byte * Z))
| Failed
| OutOfFuel.

Section Program.
Context {plat : Platform}.

Definition CompareVocabTie (a b : VOCAB) : Z :=
  let c := count b - count a in
  if negb (c =? 0) then (if c >? 0 then 1 else -1)
  else scmp (word a) (word b).

Definition CompareVocab (a b : VOCAB) : Z :=
  let c := count b - count a in
  if negb (c =? 0) then (if c >? 0 then 1 else -1)
  else 0.

Fixpoint chain_find (chain : list HASHREC) (w : list byte)
  : option (list HASHREC * HASHREC * list HASHREC) :=
  match chain with
  | [] => None
  | r :: rest =>
      if scmp (hword r) w =? 0 then Some ([], r, rest)
      else match chain_find rest w with
           | Some (pre, x, post) => Some (r :: pre, x, post)
           | None => None
           end
  end.

Definition hashinsert (ht : table) (w : list byte) : table :=
  let hval := bitwisehash w TSIZE SEED in
  match chain_find (ht hval) w with
  | None => set_bucket ht hval (ht hval ++ [mkHASHREC w 1])
  | Some ([], r, post) =>
      set_bucket ht hval (mkHASHREC (hword r) (hcount r + 1) :: post)
  | Some (pre, r, post) =>
      set_bucket ht hval (mkHASHREC (hword r) (hcount r + 1) :: pre ++ post)
  end.

Definition unk : list byte := [x3c; x75; x6e; x6b; x3e].

(** The loop that reads the tokens; the inner [None] is the return
    on the reserved token. *)
Fixpoint count_loop (fuel : nat) (fid : FILE) (ht : table) : option (option table) :=
  match fuel with
  | O => None
  | S fuel' =>
      match fscanf_s MAX_STRING_LENGTH fid with
      | (None, _) => Some (Some ht)
      | (Some s, fid') =>
          if decide (cstring s = unk) then Some None
          else count_loop fuel' fid' (hashinsert ht (cstring s))
      end
  end.

(** The loop that moves the chains of the buckets [i], [i+1], ...
    into the array. *)
Fixpoint migrate (n : nat) (i : Z) (ht : table) (vocab : list VOCAB) : list VOCAB :=
  match n with
  | O => vocab
  | S n' =>
      migrate n' (i + 1) ht
        (vocab ++ map (fun r => mkVOCAB (hword r) (hcount r)) (ht i))
  end.

(** The loop that prints the entries. *)
Fixpoint print_loop (min_count : Z) (vocab : list VOCAB) : list (list byte * Z) :=
  match vocab with
  | [] => []
  | v :: rest =>
      if count v <? min_count then []
      else (word v, count v) :: print_loop min_count rest
  end.

Definition get_counts (min_count max_vocab : Z) (input : list byte) : outcome :=
  match count_loop (S (length input)) (fopen input) inithashtable with
  | None => OutOfFuel
  | Some None => Failed
  | Some (Some ht) =>
      let vocab := migrate (Z.to_nat TSIZE) 0 ht [] in
      let j := Z.of_nat (length vocab) in
      let '(vocab, max_vocab) :=
        if (max_vocab >? 0) && (max_vocab <? j)
        then (qsort CompareVocab vocab, max_vocab)
        else (vocab, j) in
      let n := Z.to_nat max_vocab in
      let vocab := qsort CompareVocabTie (take n vocab) ++ drop n vocab in
      Done (print_loop min_count (take n vocab))
  end.
End Program.

(** What [printf("%s %lld\n", word, count)] writes for a line, and the
    bytes on standard output for all of them. *)
Definition printf_line (l : list byte * Z) : list byte :=
  l.1 ++ [x20] ++ lld l.2 ++ [x0a].

Definition stdout_bytes (lines : list (list byte * Z)) : list byte :=
  concat (map printf_line lines).

End VocabCount.

(** * Vocabulary of the statements *)

Module Props.
Import Cooccur.

(** ** The lookup table *)

(** The number of cells of row [a]. *)
Definition row_cells (vocab_size max_product a : Z) : Z :=
  if Z.quot max_product a <? vocab_size then Z.quot max_product a else vocab_size.

(** The offsets that the loop of [build_lookup] computes. *)
Fixpoint row_offset (vocab_size max_product : Z) (a : nat) : Z :=
  match a with
  | O => 1
  | S a' => row_offset vocab_size max_product a'
            + row_cells vocab_size max_product (Z.of_nat a)
  end.

(** The pairs that own a cell of the table. *)
Definition reserved (lookup : list Z) (vocab_size w1 w2 : Z) : Prop :=
  1 <= w1 <= vocab_size /\
  1 <= w2 <= lookup !!! Z.to_nat w1 - lookup !!! Z.to_nat (w1 - 1).

(** ** Output of the accumulator *)

(** A record with its value as a fraction in lowest terms. *)
Definition triple (r : CREC) : Z * Z * Q := (word1 r, word2 r, this (val r)).

Definition stdout_triples (o : outcome) : option (list (Z * Z * Q)) :=
  match o with
  | Done l => Some (map triple l)
  | _ => None
  end.

Definition sum_val (l : list CREC) : Qc :=
  foldr (fun r s => (val r + s)%Qc) 0%Qc l.

Definition stdout_weight (o : outcome) : option Q :=
  match o with
  | Done l => Some (this (sum_val l))
  | _ => None
  end.

(** The largest index of the overflow buffer [cr] that the pass over
    the corpus stores to. *)
Definition cr_high_water `{Platform} (cfg : Config) (vocab_file corpus : list byte)
  : option Z :=
  match load_vocab vocab_file with
  | Some (ht, vocab_size) =>
      cr_high <$> corpus_pass cfg ht (build_lookup vocab_size (max_product cfg)) corpus
  | None => None
  end.

(** The pass over the corpus stays inside the overflow buffer [cr],
    which has [overflow_length + 1] records: it ends, and the largest
    index it stores to is at most [overflow_length]. *)
Definition stays_in_buffer `{Platform} (cfg : Config) (vocab_file corpus : list byte)
  : Prop :=
  exists h, cr_high_water cfg vocab_file corpus = Some h /\ h <= overflow_length cfg.

(** ** The weight the specification asks for *)

(** The tokens of a line as the specification describes them: runs of
    bytes between spaces and tabs, carriage returns dropped. *)
Fixpoint spec_tokens (cur : list byte) (s : list byte) : list (list byte) :=
  match s with
  | [] => match cur with [] => [] | _ => [cur] end
  | b :: r =>
      if decide (b = x20 \/ b = x09) then
        match cur with
        | [] => spec_tokens [] r
        | _ => cur :: spec_tokens [] r
        end
      else if decide (b = x0d) then spec_tokens cur r
      else spec_tokens (cur ++ [b]) r
  end.

Fixpoint spec_split_lines (cur : list byte) (s : list byte) : list (list byte) :=
  match s with
  | [] => [cur]
  | b :: r =>
      if decide (b = x0a) then cur :: spec_split_lines [] r
      else spec_split_lines (cur ++ [b]) r
  end.

(** The rank of a word: its 1-based position in the vocabulary. *)
Fixpoint spec_rank (vocab : list (list byte)) (w : list byte) : option Z :=
  match vocab with
  | [] => None
  | v :: rest => if decide (v = w) then Some 1 else Z.succ <$> spec_rank rest w
  end.

(** The ranks of the in-vocabulary tokens, line by line. *)
Definition spec_lines (vocab : list (list byte)) (corpus : list byte) : list (list Z) :=
  map (fun line => omap (spec_rank vocab) (spec_tokens [] line))
    (spec_split_lines [] corpus).

(** The sum of 1/d over the pairs of positions [a < b] of a line of
    [n] in-vocabulary tokens with distance [d = b - a <= W]. *)
Definition spec_line_weight (W : Z) (n : nat) : Qc :=
  foldr Qcplus 0%Qc
    (flat_map
       (fun a => map (fun b => if (a <? b) && (b - a <=? W) then weight (b - a) else 0%Qc)
                   (map Z.of_nat (seq 0 n)))
       (map Z.of_nat (seq 0 n))).

Definition spec_total_weight (W sym : Z) (lines : list (list Z)) : Qc :=
  ((if sym >? 0 then 2 else 1)
   * foldr Qcplus 0 (map (fun line => spec_line_weight W (length line)) lines))%Qc.

End Props.

(** * Vocabulary of the merge *)

Module MergeProps.
Import Cooccur.

(** The key of a record and the orders on keys that [compare_crec]
    decides. *)
Definition key (r : CREC) : Z * Z := (word1 r, word2 r).

Definition key_le (a b : CREC) : Prop := compare_crec a b <= 0.
Definition key_lt (a b : CREC) : Prop := compare_crec a b < 0.

Definition cle (a b : CRECID) : Prop := key_le (crec a) (crec b).

(** The sum of the values of the records of [l] with key [k]. *)
Definition key_sum (k : Z * Z) (l : list CREC) : Qc :=
  foldr (fun r s => if decide (key r = k) then (val r + s)%Qc else s) 0%Qc l.

(** The values of the type [int]. *)
Definition int_value (z : Z) : Prop := - 2 ^ 31 <= z < 2 ^ 31.

(** The two subtractions that [compare_crec] may make on [a] and [b]
    give values of [int]: none of them overflows. *)
Definition no_wrap (a b : CREC) : Prop :=
  int_value (word1 a - word1 b) /\ int_value (word2 a - word2 b).

(** No comparison of two records of [l], in either order, overflows. *)
Definition no_wrap_all (l : list CREC) : Prop :=
  Forall (fun a => Forall (no_wrap a) l) l.

(** An [int] subtraction with the wrap-around of two's complement
    written out, and [compare_crec] with it. *)
Definition int_wrap (z : Z) : Z := (z + 2 ^ 31) mod 2 ^ 32 - 2 ^ 31.

Definition compare_crec_int (a b : CREC) : Z :=
  let c := int_wrap (word1 a - word1 b) in
  if negb (c =? 0) then c else int_wrap (word2 a - word2 b).

(** The words of [r] are ranks of a vocabulary of [vocab_size] words,
    or 0. *)
Definition rank_words (vocab_size : Z) (r : CREC) : Prop :=
  0 <= word1 r <= vocab_size /\ 0 <= word2 r <= vocab_size.

(** A record of [int]s that can be compared with records of ranks up
    to [vocab_size], and these with each other, without overflow. *)
Definition fits_ranks (vocab_size : Z) (r : CREC) : Prop :=
  vocab_size < 2 ^ 31
  /\ vocab_size - 2 ^ 31 < word1 r < 2 ^ 31
  /\ vocab_size - 2 ^ 31 < word2 r < 2 ^ 31.

(** A run of records with one pair of words, and the record that
    [write_chunk] makes of it: the pair with the sum of the values. *)
Definition same_pair (g : list CREC) : Prop :=
  g <> [] /\ Forall (fun r => key r = key (hd inhabitant g)) g.

Definition joined (g : list CREC) : CREC :=
  mkCREC (word1 (hd inhabitant g)) (word2 (hd inhabitant g)) (Props.sum_val g).

(** Neighbouring runs have different pairs of words. *)
Definition runs_differ (groups : list (list CREC)) : Prop :=
  forall (i : nat) g h,
    groups !! i = Some g -> groups !! S i = Some h ->
    key (hd inhabitant g) <> key (hd inhabitant h).

(** A run file as [merge_files] asks for it. *)
Definition run_ok (f : list CREC) : Prop :=
  f <> [] /\ StronglySorted key_lt f.

(** The records the queue is primed with and fed from: a file that is
    empty stands for the single record left in [new] by the reads
    before it. *)
Fixpoint effective (new : CREC) (files : list (list CREC)) : list (list CREC) :=
  match files with
  | [] => []
  | [] :: rest => [new] :: effective new rest
  | (r :: f) :: rest => (r :: f) :: effective r rest
  end.

(** The binary heap in [pq[0 .. n-1]]. *)
Definition is_child (p c : nat) : Prop := c = (2 * p + 1)%nat \/ c = (2 * p + 2)%nat.

Definition edge_ok (pq : list CRECID) (p c : nat) : Prop :=
  cle (pq !!! p) (pq !!! c).

Definition heap_ordered (pq : list CRECID) (n : nat) : Prop :=
  forall p c, is_child p c -> (c < n)%nat -> edge_ok pq p c.

(** Heap order with the entry at [j] possibly below its parent. *)
Definition heap_but_up (pq : list CRECID) (n j : nat) : Prop :=
  (forall p c, is_child p c -> (c < n)%nat -> c <> j -> edge_ok pq p c) /\
  (forall g c, is_child g j -> is_child j c -> (c < n)%nat -> edge_ok pq g c).

(** Heap order with the entry at [p] possibly above its children. *)
Definition heap_but_down (pq : list CRECID) (n p : nat) : Prop :=
  (forall q c, is_child q c -> (c < n)%nat -> q <> p -> edge_ok pq q c) /\
  (forall g c, is_child g p -> is_child p c -> (c < n)%nat -> edge_ok pq g c).

(** The invariant of the merge loop; [runs] are the effective runs and
    [popped] the records taken from the queue so far. *)
Record queue_inv (runs : list (list CREC)) (popped : list CREC)
    (st : merge_state) : Prop := mkInv {
  inv_len_pq : length (ms_pq st) = length runs;
  inv_len_fid : length (ms_fid st) = length runs;
  inv_size : (ms_size st <= length runs)%nat;
  inv_heap : heap_ordered (ms_pq st) (ms_size st);
  inv_ids : forall e, e ∈ take (ms_size st) (ms_pq st) -> (id e < length runs)%nat;
  inv_sorted : forall e, e ∈ take (ms_size st) (ms_pq st) ->
               Sorted key_le (crec e :: ms_fid st !!! id e);
  inv_fid_sorted : Forall (Sorted key_le) (ms_fid st);
  inv_active : forall i, (i < length runs)%nat -> ms_fid st !!! i <> [] ->
               exists e, e ∈ take (ms_size st) (ms_pq st) /\ id e = i;
  inv_popped : StronglySorted key_le popped;
  inv_bound : forall r e, r ∈ popped -> e ∈ take (ms_size st) (ms_pq st) ->
              key_le r (crec e);
  inv_perm : popped ++ map crec (take (ms_size st) (ms_pq st)) ++ concat (ms_fid st)
             ≡ₚ concat runs
}.

(** What the loop has written and holds in [old], against
    [write_chunk] on the records popped. *)
Definition written_inv (popped : list CREC) (st : merge_state) : Prop :=
  exists first rest,
    popped = first :: rest /\
    forall more, write_chunk_loop first (rest ++ more)
                 = ms_out st ++ write_chunk_loop (crec (ms_old st)) more.

End MergeProps.

(** * Vocabulary of the shuffler *)

Module ShuffleProps.
Import Shuffle.


(** The values that [rand] returns. *)
Definition rand_value (d : Z) : Prop := 0 <= d <= RAND_MAX.

(** The values of a random source that never returns [RAND_MAX]
    itself; [rand_long] accepts every pair of them. *)
Definition below_max (d : Z) : Prop := 0 <= d < RAND_MAX.

(** The bound of [rand_long] above which a pair of values is
    dropped. *)
Definition limit (n : Z) : Z := LRAND_MAX - Z.rem LRAND_MAX n.

(** The number that [rand_long] makes of two values of [rand], and
    the calls of [rand] that a list of such pairs stands for. *)
Definition rand_pair (p : Z * Z) : Z := (RAND_MAX + 1) * p.1 + p.2.

Definition draws_of (pairs : list (Z * Z)) : list Z :=
  flat_map (fun p => [p.1; p.2]) pairs.

End ShuffleProps.

(** * Example inputs *)

Module Examples.
Import Cooccur.

(** The vocabulary file with the lines "a 3", "b 2" and "c 1". *)
Definition vocab_abc : list byte :=
  [x61; x20; x33; x0a; x62; x20; x32; x0a; x63; x20; x31; x0a].

(** The corpus with the lines "a b a c" and "b a". *)
Definition corpus_abac_ba : list byte :=
  [x61; x20; x62; x20; x61; x20; x63; x0a; x62; x20; x61; x0a].

(** The vocabulary file with the line "a 4". *)
Definition vocab_a : list byte := [x61; x20; x34; x0a].

(** The corpus with the line "a a a a". *)
Definition corpus_aaaa : list byte := [x61; x20; x61; x20; x61; x20; x61; x0a].

(** The sizes computed from the default memory limit are of this
    magnitude. *)
Definition default_config (window_size symmetric : Z) : Config :=
  mkConfig 10000000 28521267 window_size symmetric.


End Examples.

(** * Vocabulary of the vocabulary builder *)

Module VocabProps.
Import VocabCount.

(** A list of bytes without NUL: a string as the programs see it. *)
Definition nul_free (s : list byte) : Prop := cstring s = s.

(** The byte [scmp] looks at first, as a [char]. *)
Definition hdv `{Platform} (s : list byte) : Z := char_val (deref s).

(** The order [scmp] decides: the lexicographic order of the strings
    with their terminator, bytes compared as values of type [char]. *)
Fixpoint char_lex_lt `{Platform} (s1 s2 : list byte) : Prop :=
  match s1, s2 with
  | [], [] => False
  | [], c :: _ => 0 < char_val c
  | c :: _, [] => char_val c < 0
  | c1 :: r1, c2 :: r2 =>
      char_val c1 < char_val c2 \/ (c1 = c2 /\ char_lex_lt r1 r2)
  end.

(** Ascending lexicographic byte order. *)
Fixpoint byte_lex_lt (s1 s2 : list byte) : Prop :=
  match s1, s2 with
  | _, [] => False
  | [], _ :: _ => True
  | c1 :: r1, c2 :: r2 =>
      int_of_byte c1 < int_of_byte c2 \/ (c1 = c2 /\ byte_lex_lt r1 r2)
  end.




(** The chains of a table hold distinct strings, each in the bucket of
    its hash value. *)
Definition wf_table `{Platform} (ht : table) : Prop :=
  forall b, NoDup (map hword (ht b))
            /\ Forall (fun r => bitwisehash (hword r) TSIZE SEED = b /\ nul_free (hword r)) (ht b).

End VocabProps.

(** * Vocabulary of the token reader *)

Module TokenProps.

(** The bytes that end a word in [get_word]. *)
Definition delimiter (b : byte) : Prop := b = x20 \/ b = x09 \/ b = x0a.

(** The bytes [get_word] passes over in front of a word. *)
Definition blank (b : byte) : Prop := b = x20 \/ b = x09 \/ b = x0d.

(** A run of bytes with the carriage returns taken out. *)
Definition drop_cr (t : list byte) : list byte := filter (fun b => b <> x0d) t.

End TokenProps.

(** * Vocabulary of the pass over the corpus *)

Module PassProps.
Import Cooccur.

(** A state with another input stream. *)
Definition with_fin (f : FILE) (st : state) : state :=
  mkState f (str st) (vocab_hash st) (j st) (cr st) (cr_high st) (history st)
    (bigram_table st) (runs st).

(** States that differ at most in the input stream and the word
    buffer. *)
Definition same_data (st1 st2 : state) : Prop :=
  vocab_hash st1 = vocab_hash st2 /\ j st1 = j st2 /\ cr st1 = cr st2
  /\ cr_high st1 = cr_high st2 /\ history st1 = history st2
  /\ bigram_table st1 = bigram_table st2 /\ runs st1 = runs st2.

End PassProps.

(** * Vocabulary of the counts *)

Module CountProps.
Import VocabCount.

(** The strings that the calls of [fscanf] in the loop of
    [get_counts] deliver, one after the other. *)
Fixpoint scan_tokens (fuel : nat) (fid : FILE) : list (list byte) :=
  match fuel with
  | O => []
  | S fuel' =>
      match fscanf_s MAX_STRING_LENGTH fid with
      | (None, _) => []
      | (Some s, fid') => cstring s :: scan_tokens fuel' fid'
      end
  end.

Definition tokens (input : list byte) : list (list byte) :=
  scan_tokens (S (length input)) (fopen input).

(** How often [w] occurs in a list of strings. *)
Definition occurrences (w : list byte) (l : list (list byte)) : Z :=
  Z.of_nat (length (filter (fun x => x = w) l)).

(** The table holds the strings seen so far, each with the number of
    times it was seen. *)
Definition table_counts `{Platform} (ht : table) (seen : list (list byte)) : Prop :=
  (forall b r, r ∈ ht b ->
     hword r ∈ seen /\ hcount r = occurrences (hword r) seen)
  /\ (forall w, w ∈ seen ->
        exists r, r ∈ ht (bitwisehash w TSIZE SEED) /\ hword r = w).

(** A string as [fscanf] with [%1000s] delivers it from input without
    NUL: not empty, without white space and NUL, at most 1000 bytes. *)
Definition is_word (w : list byte) : Prop :=
  w <> [] /\ Forall (fun b => isspace b = false /\ b <> x00) w
  /\ (length w <= MAX_STRING_LENGTH)%nat.

(** The table and the count after the lines [lines] of a vocabulary
    file have been read by the loop of [get_cooccurrence]. *)
Definition read_lines `{Platform} (lines : list (list byte * Z))
    (ht : Cooccur.table) (j : Z) : Cooccur.table * Z :=
  fold_left (fun acc l => (Cooccur.hashinsert acc.1 l.1 (acc.2 + 1), acc.2 + 1))
    lines (ht, j).

End CountProps.

(** * Vocabulary of the command line *)

Module ArgProps.

(** The argument with index [k] is the option [str]. *)
Definition matches (str : list byte) (argv : list (list byte)) (k : nat) : Prop :=
  exists a, argv !! k = Some a /\ cstring a = cstring str.

(** What [find_arg] does, in terms of the first argument behind the
    program name that is [str]. *)
Definition find_arg_post (str : list byte) (argv : list (list byte))
    (res : arg_result) : Prop :=
  match res with
  | Returned i =>
      (i = -1 /\ forall k, (1 <= k)%nat -> ~ matches str argv k)
      \/ (1 <= i /\ i + 1 < Z.of_nat (length argv)
          /\ matches str argv (Z.to_nat i)
          /\ forall k, (1 <= k < Z.to_nat i)%nat -> ~ matches str argv k)
  | Exited =>
      (2 <= length argv)%nat
      /\ matches str argv (length argv - 1)
      /\ forall k, (1 <= k < length argv - 1)%nat -> ~ matches str argv k
  end.

End ArgProps.

(** * Vocabulary of the pairs counted *)

Module PairProps.
Import Cooccur MergeProps.

(** What a call of [get_word] in the loop of [get_cooccurrence]
    delivers: the end of a line or a word. *)
Inductive event :=
| Newline
| Word (w : list byte).

(** The events up to the call that meets the end of the input. *)
Fixpoint events (fuel : nat) (str : list byte) (fin : FILE) : list event :=
  match fuel with
  | O => []
  | S fuel' =>
      let '(flag, str', fin') := get_word str fin in
      if feof fin' then []
      else (if flag =? 1 then Newline else Word (cstring str'))
           :: events fuel' str' fin'
  end.

Definition corpus_events (corpus : list byte) : list event :=
  events (S (length corpus)) (replicate (S MAX_STRING_LENGTH) x00) (fopen corpus).

(** The rank of a word in the table, if it is in the vocabulary. *)
Definition rank `{Platform} (ht : table) (w : list byte) : option Z :=
  hid <$> (hashsearch ht w).1.

(** The records for a word of rank [r] and the words before it on
    its line, whose ranks [before] come nearest first: one for each
    of the nearest [n] of them, at the distances [d], [d + 1], ...,
    with the inverse of the distance as value, and its mirror image
    with symmetric context. *)
Fixpoint window_pairs (cfg : Config) (r d : Z) (n : nat) (before : list Z)
  : list CREC :=
  match n, before with
  | S n', c :: rest =>
      (mkCREC c r (weight d)
       :: (if symmetric cfg >? 0 then [mkCREC r c (weight d)] else []))
      ++ window_pairs cfg r (d + 1) n' rest
  | _, _ => []
  end.

(** The records for all words of the events: words that are not in
    the vocabulary are passed over, and a new line starts with no
    word before it. *)
Fixpoint pairs_of `{Platform} (cfg : Config) (ht : table) (evs : list event)
    (before : list Z) : list CREC :=
  match evs with
  | [] => []
  | Newline :: evs' => pairs_of cfg ht evs' []
  | Word w :: evs' =>
      match rank ht w with
      | None => pairs_of cfg ht evs' before
      | Some r =>
          window_pairs cfg r 1 (Z.to_nat (window_size cfg)) before
          ++ pairs_of cfg ht evs' (r :: before)
      end
  end.

(** The value held for the pair [k] in the table, in the overflow
    buffer and in the overflow files written. *)
Definition held (lookup : list Z) (vocab_size : Z) (k : Z * Z) (st : state) : Qc :=
  (key_sum k (dump_table lookup (bigram_table st) vocab_size)
   + key_sum k (cr st) + key_sum k (concat (runs st)))%Qc.

(** The invariant of the loop over the tokens; [ht0] is the table as
    loaded and [before] the ranks of the words of the current line,
    the nearest first. *)
Record pass_inv `{Platform} (cfg : Config) (ht0 : table) (vocab_size : Z)
    (before : list Z) (st : state) : Prop := mkPassInv {
  pi_table : forall w, (hashsearch (vocab_hash st) w).1 = (hashsearch ht0 w).1;
  pi_j : j st = Z.of_nat (length before);
  pi_hist_len : Z.of_nat (length (history st)) = window_size cfg;
  pi_hist : forall i : nat,
      (i < length before)%nat -> Z.of_nat i < window_size cfg ->
      history st !!! Z.to_nat (Z.rem (j st - 1 - Z.of_nat i) (window_size cfg))
      = before !!! i;
  pi_ranks : Forall (fun r => 1 <= r <= vocab_size) before
}.

(** The ranks in a table are those of a vocabulary of [vocab_size]
    words. *)
Definition ranks_in `{Platform} (ht : table) (vocab_size : Z) : Prop :=
  forall b r, r ∈ ht b -> 1 <= hid r <= vocab_size.

(** The words held by the pass: the entries of [history] and the
    records of the overflow buffer and of the overflow files. *)
Definition holds_ranks `{Platform} (ht0 : table) (V : Z) (st : state) : Prop :=
  Forall (fun x => 0 <= x <= V) (history st)
  /\ Forall (rank_words V) (cr st)
  /\ Forall (Forall (rank_words V)) (runs st)
  /\ forall w, (hashsearch (vocab_hash st) w).1 = (hashsearch ht0 w).1.

(** The initial content [new0] of [new] in [merge_files] is such that
    no comparison with a record of the run files overflows: these
    hold ranks of the vocabulary read from [vocab_file]. *)
Definition new_fits `{Platform} (vocab_file : list byte) (new0 : CRECID) : Prop :=
  exists ht vocab_size,
    load_vocab vocab_file = Some (ht, vocab_size)
    /\ fits_ranks vocab_size (crec new0).

End PairProps.

(** * Proof automation *)

(** Proves [Forall P l] for an explicit list [l], with [tac] on the
    elements. *)
Ltac forall_list tac :=
  repeat (apply Forall_cons_2; [tac|]); apply Forall_nil_2.


(** * Properties *)

Import Cooccur Props.

(** ** The lookup table of the dense region *)

Lemma lookup_loop_length n a V M l :
  length (lookup_loop n a V M l) = length l.
Proof.
  revert a l. induction n as [|n IH]; intros a l; simpl; [done|].
  rewrite IH. by rewrite length_insert.
Qed.

Lemma lookup_loop_spec n V M : forall (a : nat) l,
  (1 <= a)%nat ->
  (a + n <= length l)%nat ->
  (forall i, (i < a)%nat -> l !! i = Some (row_offset V M i)) ->
  forall i, (i < a + n)%nat ->
    lookup_loop n (Z.of_nat a) V M l !! i = Some (row_offset V M i).
Proof.
  induction n as [|n IH]; intros a l Ha Hlen Hl i Hi; simpl.
  - apply Hl. lia.
  - replace (Z.of_nat a + 1) with (Z.of_nat (S a)) by lia.
    apply IH; [lia| rewrite length_insert; lia | | lia].
    intros i' Hi'. rewrite Nat2Z.id.
    destruct (decide (i' = a)) as [->|Hne].
    + rewrite list_lookup_insert_eq by lia. f_equal.
      replace (Z.to_nat (Z.of_nat a - 1)) with (a - 1)%nat by lia.
      rewrite (list_lookup_total_correct l (a - 1)%nat (row_offset V M (a - 1)))
        by (apply Hl; lia).
      destruct a as [|a']; [lia|]. simpl row_offset at 3. unfold row_cells.
      replace (S a' - 1)%nat with a' by lia.
      destruct (_ <? _); lia.
    + rewrite list_lookup_insert_ne by done. apply Hl. lia.
Qed.

Lemma build_row_offset V M (i : nat) :
  0 <= V -> (i <= Z.to_nat V)%nat ->
  build_lookup V M !!! i = row_offset V M i.
Proof.
  intros HV Hi. apply list_lookup_total_correct. unfold build_lookup.
  apply (lookup_loop_spec (Z.to_nat V) V M 1%nat); try lia.
  - rewrite length_insert, length_replicate. lia.
  - intros j Hj. assert (j = 0%nat) as -> by lia.
    rewrite list_lookup_insert_eq; [done|]. rewrite length_replicate. lia.
Qed.

Lemma row_cells_nonneg V M a : 0 <= V -> 0 <= M -> 0 < a -> 0 <= row_cells V M a.
Proof.
  intros. unfold row_cells. destruct (_ <? _); [|lia].
  apply Z.quot_pos; lia.
Qed.

Lemma row_offset_mono V M (a b : nat) :
  0 <= V -> 0 <= M -> (a <= b)%nat -> row_offset V M a <= row_offset V M b.
Proof.
  intros HV HM. induction 1 as [|b Hab IH]; [lia|].
  simpl. pose proof (row_cells_nonneg V M (Z.of_nat (S b)) HV HM). lia.
Qed.

Lemma reserved_range V M w1 w2 :
  0 <= V -> 0 <= M -> reserved (build_lookup V M) V w1 w2 ->
  row_offset V M (Z.to_nat (w1 - 1)) - 1 <= cell (build_lookup V M) w1 w2
    <= row_offset V M (Z.to_nat w1) - 2.
Proof.
  intros HV HM [Hw1 Hw2]. unfold cell.
  rewrite !build_row_offset in * by lia. lia.
Qed.

(** C5: with [lookup] built as in the code, for [vocab_size >= 1] and
    [max_product >= 1], every pair of ranks whose product is below
    [max_product] owns a cell, its index [lookup[w1-1] + w2 - 2] lies
    inside the [lookup[vocab_size]] cells allocated, and distinct pairs
    that own a cell have distinct indices. *)
Theorem dense_cells_exact (V M : Z) :
  1 <= V -> 1 <= M ->
  let L := build_lookup V M in
  (L !!! 0%nat = 1 /\
   forall a, 1 <= a <= V ->
     L !!! Z.to_nat a = L !!! Z.to_nat (a - 1) + Z.min (M / a) V) /\
  (forall w1 w2, 1 <= w1 <= V -> 1 <= w2 <= V -> w1 * w2 < M ->
     reserved L V w1 w2 /\ 0 <= cell L w1 w2 < L !!! Z.to_nat V) /\
  (forall w1 w2 w1' w2',
     reserved L V w1 w2 -> reserved L V w1' w2' ->
     cell L w1 w2 = cell L w1' w2' -> w1 = w1' /\ w2 = w2').
Proof.
  intros HV HM L. 
  assert (Hrow : forall a, 1 <= a <= V ->
     L !!! Z.to_nat a = L !!! Z.to_nat (a - 1) + Z.min (M / a) V).
  { intros a Ha. unfold L. rewrite !build_row_offset by lia.
    replace (Z.to_nat a) with (S (Z.to_nat (a - 1))) at 1 by lia.
    simpl row_offset. f_equal. unfold row_cells.
    replace (Z.of_nat (S (Z.to_nat (a - 1)))) with a by lia.
    rewrite Z.quot_div_nonneg by lia.
    destruct (Z.ltb_spec (M / a) V); lia. }
  split; [split; [|exact Hrow]|split].
  - unfold L. by rewrite build_row_offset by lia.
  - intros w1 w2 Hw1 Hw2 Hprod.
    assert (Hres : reserved L V w1 w2).
    { split; [done|]. rewrite Hrow by done.
      assert (w2 <= M / w1) by (apply Z.div_le_lower_bound; lia). lia. }
    split; [done|].
    pose proof (reserved_range V M w1 w2 ltac:(lia) ltac:(lia) Hres) as Hr.
    fold L in Hr.
    assert (HLV : L !!! Z.to_nat V = row_offset V M (Z.to_nat V))
      by (unfold L; rewrite build_row_offset; [done|lia|lia]).
    rewrite HLV.
    pose proof (row_offset_mono V M 0 (Z.to_nat (w1 - 1)) ltac:(lia) ltac:(lia) ltac:(lia)).
    pose proof (row_offset_mono V M (Z.to_nat w1) (Z.to_nat V) ltac:(lia) ltac:(lia) ltac:(lia)).
    simpl in *. lia.
  - intros w1 w2 w1' w2' H1 H2 Heq.
    pose proof (reserved_range V M w1 w2 ltac:(lia) ltac:(lia) H1) as Hr1.
    pose proof (reserved_range V M w1' w2' ltac:(lia) ltac:(lia) H2) as Hr2.
    fold L in Hr1, Hr2. destruct H1 as [Ha1 _], H2 as [Ha2 _].
    assert (w1 = w1') as <-.
    { destruct (Z.lt_trichotomy w1 w1') as [Hlt|[?|Hlt]]; [|done|].
      - pose proof (row_offset_mono V M (Z.to_nat w1) (Z.to_nat (w1' - 1))
                      ltac:(lia) ltac:(lia) ltac:(lia)). lia.
      - pose proof (row_offset_mono V M (Z.to_nat w1') (Z.to_nat (w1 - 1))
                      ltac:(lia) ltac:(lia) ltac:(lia)). lia. }
    split; [done|]. unfold cell in Heq. lia.
Qed.

(** The statement of C5 for three words and [max_product = 4]. *)
Lemma dense_cells_exact_witness :
  let L := build_lookup 3 4 in
  (L !!! 0%nat = 1 /\
   forall a, 1 <= a <= 3 ->
     L !!! Z.to_nat a = L !!! Z.to_nat (a - 1) + Z.min (4 / a) 3) /\
  (forall w1 w2, 1 <= w1 <= 3 -> 1 <= w2 <= 3 -> w1 * w2 < 4 ->
     reserved L 3 w1 w2 /\ 0 <= cell L w1 w2 < L !!! Z.to_nat 3) /\
  (forall w1 w2 w1' w2',
     reserved L 3 w1 w2 -> reserved L 3 w1' w2' ->
     cell L w1 w2 = cell L w1' w2' -> w1 = w1' /\ w2 = w2').
Proof. apply (dense_cells_exact 3 4); lia. Defined.

(** ** Reading tokens *)

Import Cooccur Props.

Lemma byte_of_int_of_byte b : byte_of_int (int_of_byte b) = b.
Proof. by destruct b. Qed.

Lemma isspace_false_get_word b :
  isspace b = false ->
  (int_of_byte b =? 13) = false /\
  ((int_of_byte b =? 32) || (int_of_byte b =? 9) || (int_of_byte b =? 10)) = false.
Proof. destruct b; vm_compute; intros; (done || split; done). Qed.

(** [fscanf] consumes input whenever it converts a word. *)
Lemma skip_space_length s : (length (skip_space s) <= length s)%nat.
Proof.
  induction s as [|b s IH]; [done|]. cbn [skip_space].
  destruct (isspace b); simpl; lia.
Qed.

Lemma skip_space_head s b r : skip_space s = b :: r -> isspace b = false.
Proof.
  induction s as [|c s IH]; [done|]. cbn [skip_space].
  destruct (isspace c) eqn:Hc; [done|]. by intros [= <- _].
Qed.

Lemma skip_digits_length s : (length (skip_digits s) <= length s)%nat.
Proof.
  induction s as [|b s IH]; [done|]. cbn [skip_digits].
  destruct (isdigit b); simpl; lia.
Qed.

Lemma skip_sign_length s : (length (skip_sign s) <= length s)%nat.
Proof. destruct s as [|b s]; [done|]. cbn [skip_sign]. destruct (_ || _); simpl; lia. Qed.

Lemma scan_word_length width s :
  (length (scan_word width s).2 <= length s)%nat.
Proof.
  revert s. induction width as [|w IH]; intros [|b s]; try done.
  cbn [scan_word]. destruct (isspace b); [done|].
  specialize (IH s). destruct (scan_word w s). simpl in *. lia.
Qed.

Lemma fscanf_s_progress (width : nat) f t f' :
  fscanf_s (S width) f = (Some t, f') -> (length (buf f') < length (buf f))%nat.
Proof.
  unfold fscanf_s. pose proof (skip_space_length (buf f)) as Hlen.
  destruct (skip_space (buf f)) as [|b s] eqn:Hs; [done|].
  apply skip_space_head in Hs. cbn [scan_word]. rewrite Hs.
  pose proof (scan_word_length width s) as Hw.
  destruct (scan_word width s) as [t0 rest]. intros [= _ <-]. simpl in *. lia.
Qed.

Lemma fscanf_s_lld_progress (width : nat) f t f' :
  fscanf_s_lld (S width) f = (Some t, f') -> (length (buf f') < length (buf f))%nat.
Proof.
  unfold fscanf_s_lld.
  destruct (fscanf_s (S width) f) as [[t0|] f0] eqn:Hf; [|done].
  apply fscanf_s_progress in Hf. intros [= _ <-]. cbn [buf].
  pose proof (skip_digits_length (skip_sign (skip_space (buf f0)))).
  pose proof (skip_sign_length (skip_space (buf f0))).
  pose proof (skip_space_length (buf f0)). lia.
Qed.

Lemma cstring_app_nul l junk : cstring (l ++ x00 :: junk) = cstring l.
Proof.
  induction l as [|c l IH]; simpl; [done|].
  destruct (Byte.eqb c x00); [done|]. by rewrite IH.
Qed.

Lemma cstring_prefix l : cstring l `prefix_of` l.
Proof.
  induction l as [|c l IH]; simpl; [done|].
  destruct (Byte.eqb c x00); [apply prefix_nil|]. by apply prefix_cons.
Qed.

Lemma cstring_length l : (length (cstring l) <= length l)%nat.
Proof. apply prefix_length, cstring_prefix. Qed.

Lemma cstring_take (n : nat) : forall l, cstring l = l -> cstring (take n l) = take n l.
Proof.
  induction n as [|n IH]; intros [|c l]; simpl; try done.
  destruct (Byte.eqb c x00); [done|]. intros [= Hl]. by rewrite IH.
Qed.

(** The buffer after [word[i] = 0]. *)
Lemma cstring_terminated (word : list byte) (i : nat) :
  (i < length word)%nat ->
  cstring (<[i := x00]> word) = cstring (take i word).
Proof.
  intros Hi.
  rewrite <- (take_drop i word) at 1.
  rewrite insert_app_r_alt by (rewrite length_take; lia).
  rewrite length_take, Nat.min_l, Nat.sub_diag by lia.
  destruct (drop i word) as [|c junk] eqn:Hd.
  - apply (f_equal length) in Hd. rewrite length_drop in Hd. simpl in Hd. lia.
  - simpl. apply cstring_app_nul.
Qed.

(** [get_word] on a token [t] that ends at the delimiter [d]: [pre]
    are the bytes of the token read so far. *)
Lemma get_word_loop_token (d : byte) rest :
  d = x20 \/ d = x09 \/ d = x0a ->
  forall t pre word,
    length word = 1001%nat ->
    forallb (fun b => negb (isspace b)) t = true ->
    (0 < length pre + length t)%nat ->
    take (length pre `min` 998) word = take 998 pre ->
    exists word',
      get_word_loop word (length pre `min` 998) (t ++ d :: rest)
      = (0, word',
         {| buf := if decide (d = x0a) then d :: rest else rest; eof := false |})
      /\ cstring word' = cstring (take 998 (pre ++ t)).
Proof.
  intros Hd. induction t as [|b t IH]; intros pre word Hlen Ht Hpos Hpre.
  - rewrite app_nil_r. cbn [length] in Hpos.
    assert ((0 <? length pre `min` 998)%nat = true) as Hi by (apply Nat.ltb_lt; lia).
    destruct Hd as [->|[->| ->]]; cbn [app get_word_loop];
      change (int_of_byte x20) with 32; change (int_of_byte x09) with 9;
      change (int_of_byte x0a) with 10; cbn [Z.eqb Pos.eqb orb];
      rewrite Hi; eexists; (split; [reflexivity|]);
      (rewrite cstring_terminated by lia); by rewrite Hpre.
  - cbn [forallb] in Ht. apply andb_prop in Ht as [Hb Ht].
    apply negb_true_iff in Hb.
    destruct (isspace_false_get_word b Hb) as [H13 Hdl].
    cbn [app get_word_loop]. rewrite H13, Hdl.
    unfold store_char. rewrite byte_of_int_of_byte.
    assert (Hstep :
      (if (MAX_STRING_LENGTH - 1 <=? S (length pre `min` 998))%nat
       then (S (length pre `min` 998) - 1)%nat else S (length pre `min` 998))
      = (length (pre ++ [b]) `min` 998)%nat).
    { rewrite length_app. cbn [length]. change (MAX_STRING_LENGTH - 1)%nat with 999%nat.
      destruct (Nat.leb_spec 999 (S (length pre `min` 998))); lia. }
    rewrite Hstep.
    destruct (IH (pre ++ [b]) (<[(length pre `min` 998)%nat := b]> word)) as (word' & Hrun & Hstr).
    + by rewrite length_insert.
    + done.
    + rewrite length_app. cbn [length]. lia.
    + rewrite length_app. cbn [length].
      destruct (decide (length pre < 998)%nat) as [Hlt|Hge].
      * rewrite !Nat.min_l by lia. rewrite Nat.min_l in Hpre by lia.
        rewrite (take_ge (pre ++ [b])) by (rewrite length_app; cbn [length]; lia).
        rewrite (take_ge pre) in Hpre by lia.
        replace (length pre + 1)%nat with (S (length pre)) by lia.
        erewrite take_S_r.
        -- rewrite take_insert_ge by lia. by rewrite Hpre.
        -- apply list_lookup_insert_eq. lia.
      * rewrite !Nat.min_r by lia. rewrite Nat.min_r in Hpre by lia.
        rewrite take_insert_ge by lia. rewrite Hpre.
        by rewrite take_app_le by lia.
    + exists word'. split; [exact Hrun|]. by rewrite Hstr, <- app_assoc.
Qed.

Lemma forallb_drop {A} (p : A -> bool) (n : nat) (l : list A) :
  forallb p l = true -> forallb p (drop n l) = true.
Proof.
  revert l. induction n as [|n IH]; intros [|x l] H; try done.
  cbn [forallb] in H. apply andb_prop in H as [_ H]. by apply IH.
Qed.

Lemma scan_word_token (width : nat) (d : byte) rest :
  isspace d = true ->
  forall t, forallb (fun b => negb (isspace b)) t = true ->
    scan_word width (t ++ d :: rest) = (take width t, drop width t ++ d :: rest).
Proof.
  intros Hd. induction width as [|w IH]; intros t Ht.
  - by destruct t.
  - destruct t as [|b t]; simpl.
    + by rewrite Hd.
    + simpl in Ht. apply andb_prop in Ht as [Hb Ht]. apply negb_true_iff in Hb.
      rewrite Hb. by rewrite IH.
Qed.

Lemma skip_space_token (t rest : list byte) b :
  isspace b = false -> skip_space (b :: t ++ rest) = b :: t ++ rest.
Proof. intros Hb. simpl. by rewrite Hb. Qed.

(** C9, as the code has it: a token [t] of more than 1000 bytes that
    ends at a space, tab or newline [d].  [get_word] of the accumulator
    leaves in its buffer the string of the first 998 bytes of [t] (these
    bytes themselves if none of them is NUL) and the stream behind the
    token (at the newline, if [d] is one): the excess is discarded.
    [fscanf] with [%1000s] in the vocabulary builder returns the first
    1000 bytes and leaves the excess in the stream, where the next call
    reads it as a token of its own. *)
Theorem long_token_reading (t rest word0 : list byte) (d : byte) :
  (1000 < length t)%nat ->
  forallb (fun b => negb (isspace b)) t = true ->
  d = x20 \/ d = x09 \/ d = x0a ->
  length word0 = S MAX_STRING_LENGTH ->
  (exists word,
     get_word word0 (fopen (t ++ d :: rest))
     = (0, word, {| buf := if decide (d = x0a) then d :: rest else rest;
                    eof := false |})
     /\ cstring word = cstring (take 998 t)
     /\ (cstring t = t -> cstring word = take 998 t /\ length (cstring word) = 998%nat))
  /\
  (exists f,
     fscanf_s 1000 (fopen (t ++ d :: rest)) = (Some (take 1000 t), f)
     /\ buf f = drop 1000 t ++ d :: rest
     /\ (fscanf_s 1000 f).1 = Some (take 1000 (drop 1000 t))
     /\ drop 1000 t <> []).
Proof.
  intros Hlen Ht Hd Hword. split.
  - destruct (get_word_loop_token d rest Hd t [] word0 Hword Ht) as (word & Hrun & Hstr).
    + cbn [length]. lia.
    + done.
    + exists word. split; [exact Hrun|]. rewrite Hstr. rewrite app_nil_l.
      split; [done|]. intros Hnul.
      rewrite cstring_take by done. split; [done|]. rewrite length_take. lia.
  - assert (Hsp : isspace d = true) by (by destruct Hd as [->|[->| ->]]).
    assert (Hex : drop 1000 t <> []).
    { intros Heq. apply (f_equal length) in Heq. rewrite length_drop in Heq.
      simpl in Heq. lia. }
    destruct t as [|b t]; [simpl in Hlen; lia|].
    pose proof Ht as Ht'. simpl in Ht'. apply andb_prop in Ht' as [Hb _].
    apply negb_true_iff in Hb.
    unfold fscanf_s at 1. simpl buf.
    change ((b :: t) ++ d :: rest) with (b :: t ++ d :: rest).
    rewrite skip_space_token by done.
    change (b :: t ++ d :: rest) with ((b :: t) ++ d :: rest).
    rewrite scan_word_token by done.
    destruct (drop 1000 (b :: t)) as [|e excess] eqn:Hdrop; [done|].
    eexists. split; [reflexivity|]. split; [done|]. split; [|done].
    assert (Hfe : forallb (fun b => negb (isspace b)) (e :: excess) = true).
    { rewrite <- Hdrop. by apply forallb_drop. }
    pose proof Hfe as Hfe'. simpl in Hfe'. apply andb_prop in Hfe' as [He _].
    apply negb_true_iff in He.
    unfold fscanf_s. simpl buf.
    change ((e :: excess) ++ d :: rest) with (e :: excess ++ d :: rest).
    rewrite skip_space_token by done.
    change (e :: excess ++ d :: rest) with ((e :: excess) ++ d :: rest).
    rewrite scan_word_token by done.
    by destruct (drop 1000 (e :: excess) ++ d :: rest).
Qed.

(** The statement for a token of 1001 bytes "a" before a newline. *)
Lemma long_token_reading_witness :
  let t := replicate 1001 x61 in
  (exists word,
     get_word (replicate 1001 x00) (fopen (t ++ [x0a]))
     = (0, word, {| buf := if decide (x0a = x0a) then [x0a] else []; eof := false |})
     /\ cstring word = cstring (take 998 t)
     /\ (cstring t = t -> cstring word = take 998 t /\ length (cstring word) = 998%nat))
  /\
  (exists f,
     fscanf_s 1000 (fopen (t ++ [x0a])) = (Some (take 1000 t), f)
     /\ buf f = drop 1000 t ++ [x0a]
     /\ (fscanf_s 1000 f).1 = Some (take 1000 (drop 1000 t))
     /\ drop 1000 t <> []).
Proof.
  apply (long_token_reading (replicate 1001 x61) [] (replicate 1001 x00) x0a).
  - rewrite length_replicate. lia.
  - by vm_compute.
  - by right; right.
  - by vm_compute.
Defined.

(** C9 fails as stated: of a token of 1001 bytes [get_word] keeps 998,
    not 1000, and [fscanf] in the vocabulary builder hands the byte
    after the first 1000 to the next call as a token. *)
Lemma long_token_not_first_1000 :
  let t := replicate 1001 x61 in
  let input := fopen (t ++ [x0a]) in
  cstring (get_word (replicate 1001 x00) input).1.2 = take 998 t
  /\ cstring (get_word (replicate 1001 x00) input).1.2 <> take 1000 t
  /\ (fscanf_s 1000 input).1 = Some (take 1000 t)
  /\ (fscanf_s 1000 (fscanf_s 1000 input).2).1 = Some [x61].
Proof.
  cbv zeta. split; [by vm_compute|]. split; [|split; by vm_compute].
  intros Heq. apply (f_equal length) in Heq. vm_compute in Heq. done.
Qed.

(** ** The vocabulary builder *)

Import VocabCount VocabProps.

(** *** Characters and [scmp] *)

Lemma int_of_byte_range b : 0 <= int_of_byte b < 256.
Proof. destruct b; by vm_compute. Qed.

Lemma int_of_byte_inj a b : int_of_byte a = int_of_byte b -> a = b.
Proof.
  unfold int_of_byte. intros Heq%N2Z.inj.
  apply (f_equal Byte.of_N) in Heq. rewrite !Byte.of_to_N in Heq. by injection Heq.
Qed.

Section Chars.
Context {plat : Platform}.

Lemma char_val_inj a b : char_val a = char_val b -> a = b.
Proof.
  unfold char_val. intros Heq. apply int_of_byte_inj.
  pose proof (int_of_byte_range a). pose proof (int_of_byte_range b).
  destruct char_signed; cbn [andb] in Heq;
    repeat match type of Heq with context [?x <=? ?y] => destruct (Z.leb_spec x y) end; lia.
Qed.

Lemma char_val_nul : char_val x00 = 0.
Proof. unfold char_val. by destruct char_signed. Qed.

Lemma char_val_zero b : char_val b = 0 -> b = x00.
Proof. rewrite <- char_val_nul. apply char_val_inj. Qed.

Lemma scmp_unfold (a b : list byte) :
  scmp a b = if decide (hdv a <> 0 /\ hdv a = hdv b)
             then scmp (tail a) (tail b) else hdv a - hdv b.
Proof.
  unfold hdv, deref. destruct a as [|c1 r1], b as [|c2 r2]; cbn [scmp hd tail deref].
  - rewrite decide_False; [done|]. rewrite char_val_nul. lia.
  - rewrite decide_False; [done|]. rewrite char_val_nul. lia.
  - rewrite decide_False; [done|]. rewrite char_val_nul. lia.
  - destruct (Byte.eqb c1 x00) eqn:H0; cbn [negb andb].
    + apply Byte.byte_dec_bl in H0 as ->. rewrite decide_False; [done|].
      rewrite char_val_nul. lia.
    + apply Byte.eqb_false in H0.
      destruct (Byte.eqb c1 c2) eqn:H12.
      * apply Byte.byte_dec_bl in H12 as ->. rewrite decide_True; [done|].
        split; [|done]. intros Hz. by apply char_val_zero in Hz.
      * apply Byte.eqb_false in H12. rewrite decide_False; [done|].
        intros [_ Heq]. by apply char_val_inj in Heq.
Qed.

Lemma scmp_antisym (a b : list byte) : scmp b a = - scmp a b.
Proof.
  revert b. induction a as [|c a IH]; intros b.
  - rewrite (scmp_unfold [] b), (scmp_unfold b []).
    assert (hdv [] = 0) as -> by apply char_val_nul.
    repeat case_decide; lia.
  - rewrite (scmp_unfold (c :: a) b), (scmp_unfold b (c :: a)).
    repeat case_decide; try lia. cbn [tail]. apply IH.
Qed.

Lemma scmp_trans (a b c : list byte) :
  scmp a b <= 0 -> scmp b c <= 0 -> scmp a c <= 0.
Proof.
  revert b c. induction a as [|x a IH]; intros b c.
  - rewrite (scmp_unfold [] b), (scmp_unfold b c), (scmp_unfold [] c).
    assert (hdv [] = 0) as -> by apply char_val_nul.
    repeat case_decide; lia.
  - rewrite (scmp_unfold (x :: a) b), (scmp_unfold b c), (scmp_unfold (x :: a) c).
    repeat case_decide; try lia. cbn [tail]. apply IH.
Qed.

Lemma scmp_refl (a : list byte) : scmp a a = 0.
Proof. pose proof (scmp_antisym a a). lia. Qed.

Lemma nul_free_cons c (r : list byte) : nul_free (c :: r) <-> c <> x00 /\ nul_free r.
Proof.
  unfold nul_free. cbn [cstring]. destruct (Byte.eqb c x00) eqn:Hc.
  - apply Byte.byte_dec_bl in Hc. split; [done|]. by intros [? _].
  - apply Byte.eqb_false in Hc. split.
    + intros [= Heq]. done.
    + intros [_ ->]. done.
Qed.

Lemma nul_free_cstring (s : list byte) : nul_free (cstring s).
Proof.
  induction s as [|c s IH]; [done|]. cbn [cstring].
  destruct (Byte.eqb c x00) eqn:Hc; [done|].
  apply nul_free_cons. split; [by apply Byte.eqb_false|done].
Qed.

Lemma scmp_eq (a b : list byte) :
  nul_free a -> nul_free b -> scmp a b = 0 -> a = b.
Proof.
  revert b. induction a as [|x a IH]; intros [|y b] Ha Hb; cbn [scmp deref hd].
  - done.
  - apply nul_free_cons in Hb as [Hy _]. rewrite char_val_nul.
    intros Hz. exfalso. apply Hy, char_val_zero. lia.
  - apply nul_free_cons in Ha as [Hx _]. rewrite char_val_nul.
    intros Hz. exfalso. apply Hx, char_val_zero. lia.
  - apply nul_free_cons in Ha as [Hx Ha]. apply nul_free_cons in Hb as [Hy Hb].
    destruct (Byte.eqb x x00) eqn:H0; [by apply Byte.byte_dec_bl in H0|].
    cbn [negb andb]. destruct (Byte.eqb x y) eqn:Hxy.
    + apply Byte.byte_dec_bl in Hxy as ->. intros Hs. f_equal. by apply IH.
    + apply Byte.eqb_false in Hxy. intros Hz. exfalso. apply Hxy, char_val_inj. lia.
Qed.


(** *** The comparison functions of [qsort] *)

Lemma CompareVocabTie_le (a b : VOCAB) :
  cmp_le CompareVocabTie a b
  <-> count a > count b \/ (count a = count b /\ scmp (word a) (word b) <= 0).
Proof.
  unfold cmp_le, CompareVocabTie.
  destruct (Z.eqb_spec (count b - count a) 0); cbn [negb].
  - lia.
  - destruct (Z.gtb_spec (count b - count a) 0); lia.
Qed.

#[local] Instance CompareVocabTie_trans : Transitive (cmp_le CompareVocabTie).
Proof.
  intros a b c. rewrite !CompareVocabTie_le.
  pose proof (scmp_trans (word a) (word b) (word c)). lia.
Qed.

#[local] Instance CompareVocabTie_total : Total (cmp_le CompareVocabTie).
Proof.
  intros a b. rewrite !CompareVocabTie_le.
  pose proof (scmp_antisym (word a) (word b)). lia.
Qed.

(** *** The hash table *)

Lemma chain_find_some chain w pre r post :
  chain_find chain w = Some (pre, r, post) ->
  chain = pre ++ r :: post /\ scmp (hword r) w = 0.
Proof.
  revert pre. induction chain as [|x chain IH]; intros pre; cbn [chain_find]; [done|].
  destruct (Z.eqb_spec (scmp (hword x) w) 0).
  - by intros [= <- <- <-].
  - destruct (chain_find chain w) as [[[pre' x'] post']|]; [|done].
    intros [= <- <- <-]. destruct (IH pre' eq_refl) as [-> ?]. done.
Qed.

Lemma chain_find_none chain w :
  chain_find chain w = None -> Forall (fun r => scmp (hword r) w <> 0) chain.
Proof.
  induction chain as [|x chain IH]; cbn [chain_find]; [constructor|].
  destruct (Z.eqb_spec (scmp (hword x) w) 0); [done|].
  destruct (chain_find chain w) as [[[pre' x'] post']|]; [done|].
  intros _. constructor; [done|by apply IH].
Qed.

Lemma wf_table_init : wf_table inithashtable.
Proof. intros b. split; constructor. Qed.

Lemma wf_set_bucket ht hval chain :
  wf_table ht ->
  NoDup (map hword chain) ->
  Forall (fun r => bitwisehash (hword r) TSIZE SEED = hval /\ nul_free (hword r)) chain ->
  wf_table (set_bucket ht hval chain).
Proof.
  intros Hwf Hnd Hall b. unfold set_bucket.
  destruct (Z.eqb_spec b hval) as [->|Hne]; [done|apply Hwf].
Qed.

Lemma hashinsert_wf ht w :
  wf_table ht -> nul_free w -> wf_table (hashinsert ht w).
Proof.
  intros Hwf Hw. unfold hashinsert.
  set (hval := bitwisehash w TSIZE SEED).
  destruct (Hwf hval) as [Hnd Hall].
  destruct (chain_find (ht hval) w) as [[[pre r] post]|] eqn:Hfind.
  - apply chain_find_some in Hfind as [Hchain Hr].
    rewrite Hchain in Hnd, Hall.
    rewrite map_app in Hnd. cbn [map] in Hnd.
    assert (Hperm : hword r :: map hword pre ++ map hword post
                    ≡ₚ map hword pre ++ hword r :: map hword post)
      by apply Permutation_middle.
    rewrite <- Hperm in Hnd.
    apply Forall_app in Hall as [Hpre Hpost]. apply Forall_cons in Hpost as [Hr' Hpost].
    assert (Hgoal : wf_table (set_bucket ht hval
                      (mkHASHREC (hword r) (hcount r + 1) :: pre ++ post))).
    { apply wf_set_bucket; [done| |].
      - cbn [map hword]. by rewrite map_app.
      - constructor; [done|]. apply Forall_app. done. }
    destruct pre; exact Hgoal.
  - apply chain_find_none in Hfind.
    apply wf_set_bucket; [done| |].
    + rewrite map_app. cbn [map hword]. apply NoDup_app. split; [done|]. split.
      * intros x Hx ->%list_elem_of_singleton.
        apply list_elem_of_In, in_map_iff in Hx as (r & <- & Hr).
        rewrite Forall_forall in Hfind. apply (Hfind r); [by apply list_elem_of_In|].
        apply scmp_refl.
      * apply NoDup_singleton.
    + apply Forall_app. split; [done|]. by repeat constructor.
Qed.

Lemma count_loop_spec (fuel : nat) :
  forall fid ht,
    (length (buf fid) < fuel)%nat -> wf_table ht ->
    exists res, count_loop fuel fid ht = Some res
                /\ match res with Some ht' => wf_table ht' | None => True end.
Proof.
  induction fuel as [|fuel IH]; intros fid ht Hlen Hwf; [lia|].
  cbn [count_loop].
  destruct (fscanf_s MAX_STRING_LENGTH fid) as [[s|] fid'] eqn:Hf.
  - apply fscanf_s_progress in Hf. case_decide.
    + by exists None.
    + apply IH; [lia|]. apply hashinsert_wf; [done|apply nul_free_cstring].
  - by exists (Some ht).
Qed.

(** *** The array *)

Lemma migrate_spec ht (n : nat) :
  wf_table ht ->
  forall i vocab,
    NoDup (map word vocab) ->
    Forall (fun v => bitwisehash (word v) TSIZE SEED < i /\ nul_free (word v)) vocab ->
    NoDup (map word (migrate n i ht vocab))
    /\ Forall (fun v => nul_free (word v)) (migrate n i ht vocab).
Proof.
  intros Hwf. induction n as [|n IH]; intros i vocab Hnd Hall; cbn [migrate].
  - split; [done|]. eapply Forall_impl; [exact Hall|]. by intros v [_ ?].
  - destruct (Hwf i) as [Hndi Halli]. apply IH.
    + rewrite map_app, map_map. cbn [word]. apply NoDup_app. split; [done|]. split; [|done].
      intros w Hw1 Hw2.
      apply list_elem_of_In, in_map_iff in Hw1 as (v & <- & Hv).
      apply list_elem_of_In, in_map_iff in Hw2 as (r & Heq & Hr).
      rewrite Forall_forall in Hall. rewrite Forall_forall in Halli.
      apply list_elem_of_In in Hv. apply list_elem_of_In in Hr.
      destruct (Hall v Hv) as [Hlt _]. destruct (Halli r Hr) as [Hb _].
      rewrite Heq in Hb. lia.
    + apply Forall_app. split.
      * eapply Forall_impl; [exact Hall|]. intros v [? ?]. split; [lia|done].
      * apply Forall_forall. intros v Hv.
        apply list_elem_of_In, in_map_iff in Hv as (r & <- & Hr).
        rewrite Forall_forall in Halli. apply list_elem_of_In in Hr.
        destruct (Halli r Hr) as [Hb ?]. cbn [word]. split; [lia|done].
Qed.


End Chars.



(** On words of 7-bit bytes the order of [scmp] is ascending byte
    order, whether [char] is signed or not. *)
Lemma char_lex_lt_ascii `{Platform} (s1 s2 : list byte) :
  Forall (fun b => int_of_byte b < 128) s1 ->
  Forall (fun b => int_of_byte b < 128) s2 ->
  nul_free s1 -> nul_free s2 ->
  char_lex_lt s1 s2 <-> byte_lex_lt s1 s2.
Proof.
  assert (Hval : forall b, int_of_byte b < 128 -> char_val b = int_of_byte b).
  { intros b Hb. unfold char_val. destruct (Z.leb_spec 128 (int_of_byte b)); [lia|].
    by rewrite andb_false_r. }
  assert (Hpos : forall b, b <> x00 -> 0 < int_of_byte b).
  { intros b Hb. pose proof (int_of_byte_range b).
    destruct (decide (int_of_byte b = 0)) as [Hz|]; [|lia].
    destruct Hb. by apply int_of_byte_inj. }
  intros H1. revert s2. induction H1 as [|x s1 Hx H1 IH]; intros s2 H2 Hn1 Hn2.
  - destruct H2 as [|y s2 Hy H2]; cbn [char_lex_lt byte_lex_lt]; [done|].
    apply nul_free_cons in Hn2 as [Hy0 _]. rewrite Hval by done.
    split; [done|]. intros _. by apply Hpos.
  - apply nul_free_cons in Hn1 as [Hx0 Hn1].
    destruct H2 as [|y s2 Hy H2]; cbn [char_lex_lt byte_lex_lt].
    + rewrite Hval by done. pose proof (int_of_byte_range x). lia.
    + apply nul_free_cons in Hn2 as [Hy0 Hn2].
      rewrite !Hval by done. by rewrite (IH s2 H2 Hn1 Hn2).
Qed.


(** ** The external merge *)

Import Cooccur MergeProps.

(** *** The order on keys *)

Lemma key_le_iff a b :
  key_le a b <-> word1 a < word1 b \/ (word1 a = word1 b /\ word2 a <= word2 b).
Proof.
  unfold key_le, compare_crec.
  destruct (Z.eqb_spec (word1 a - word1 b) 0); simpl; lia.
Qed.

Lemma key_lt_iff a b :
  key_lt a b <-> word1 a < word1 b \/ (word1 a = word1 b /\ word2 a < word2 b).
Proof.
  unfold key_lt, compare_crec.
  destruct (Z.eqb_spec (word1 a - word1 b) 0); simpl; lia.
Qed.

Lemma key_eq_iff a b : key a = key b <-> word1 a = word1 b /\ word2 a = word2 b.
Proof. unfold key. split; [by intros [= -> ->]|by intros [-> ->]]. Qed.

#[local] Instance key_le_trans : Transitive key_le.
Proof. intros a b c. rewrite !key_le_iff. lia. Qed.

#[local] Instance key_le_refl : Reflexive key_le.
Proof. intros a. rewrite key_le_iff. lia. Qed.

#[local] Instance key_le_total : Total key_le.
Proof. intros a b. rewrite !key_le_iff. lia. Qed.

#[local] Instance key_lt_trans : Transitive key_lt.
Proof. intros a b c. rewrite !key_lt_iff. lia. Qed.

Lemma key_lt_le a b : key_lt a b -> key_le a b.
Proof. rewrite key_lt_iff, key_le_iff. lia. Qed.

Lemma key_lt_ne a b : key_lt a b -> key a <> key b.
Proof. rewrite key_lt_iff, key_eq_iff. lia. Qed.

#[local] Instance cle_trans : Transitive cle.
Proof. intros a b c. unfold cle. apply key_le_trans. Qed.

Lemma cle_refl a : cle a a.
Proof. apply key_le_refl. Qed.

Lemma compare_gt_true a b : (compare_crecid a b >? 0) = true -> cle b a /\ ~ cle a b.
Proof.
  unfold cle, compare_crecid. rewrite !key_le_iff. unfold compare_crec.
  destruct (Z.eqb_spec (word1 (crec a) - word1 (crec b)) 0); simpl; lia.
Qed.

Lemma compare_gt_false a b : (compare_crecid a b >? 0) = false -> cle a b.
Proof.
  unfold cle, compare_crecid. rewrite !key_le_iff. unfold compare_crec.
  destruct (Z.eqb_spec (word1 (crec a) - word1 (crec b)) 0); simpl; lia.
Qed.

Lemma compare_lt_true a b : (compare_crecid a b <? 0) = true -> cle a b.
Proof.
  unfold cle, compare_crecid. rewrite !key_le_iff. unfold compare_crec.
  destruct (Z.eqb_spec (word1 (crec a) - word1 (crec b)) 0); simpl; lia.
Qed.

Lemma compare_lt_false a b : (compare_crecid a b <? 0) = false -> cle b a.
Proof.
  unfold cle, compare_crecid. rewrite !key_le_iff. unfold compare_crec.
  destruct (Z.eqb_spec (word1 (crec a) - word1 (crec b)) 0); simpl; lia.
Qed.

(** *** The priority queue *)

Lemma swap_entry_lookup (pq : list CRECID) (i j k : nat) :
  (i < length pq)%nat -> (j < length pq)%nat ->
  swap_entry pq i j !!! k
  = if decide (k = j) then pq !!! i else if decide (k = i) then pq !!! j else pq !!! k.
Proof.
  intros Hi Hj. unfold swap_entry.
  destruct (decide (k = j)) as [->|Hjk].
  - by rewrite list_lookup_total_insert_eq by (by rewrite length_insert).
  - rewrite list_lookup_total_insert_ne by done.
    destruct (decide (k = i)) as [->|Hik].
    + by rewrite list_lookup_total_insert_eq.
    + by rewrite list_lookup_total_insert_ne.
Qed.

Lemma swap_entry_length (pq : list CRECID) i j :
  length (swap_entry pq i j) = length pq.
Proof. unfold swap_entry. by rewrite !length_insert. Qed.

Lemma swap_entry_take (pq : list CRECID) (n i j : nat) :
  (i < n)%nat -> (j < n)%nat -> (n <= length pq)%nat ->
  take n (swap_entry pq i j) ≡ₚ take n pq.
Proof.
  intros Hi Hj Hn. unfold swap_entry.
  rewrite !take_insert_lt by done.
  apply Permutation_insert_swap.
  - rewrite lookup_take_lt by done. apply list_lookup_lookup_total_lt. lia.
  - rewrite lookup_take_lt by done. apply list_lookup_lookup_total_lt. lia.
Qed.

Lemma heap_but_up_done pq n j :
  heap_but_up pq n j ->
  (forall p, is_child p j -> edge_ok pq p j) ->
  heap_ordered pq n.
Proof.
  intros [Hedges _] Hj p c Hpc Hc.
  destruct (decide (c = j)) as [->|Hne]; [by apply Hj|by apply Hedges].
Qed.

Lemma insert_loop_spec (fuel : nat) :
  forall pq j n,
    (j < fuel)%nat -> (j < n <= length pq)%nat ->
    heap_but_up pq n j ->
    heap_ordered (insert_loop fuel pq j) n
    /\ take n (insert_loop fuel pq j) ≡ₚ take n pq
    /\ length (insert_loop fuel pq j) = length pq.
Proof.
  induction fuel as [|fuel IH]; intros pq j n Hfuel Hj Hinv; [lia|].
  cbn [insert_loop].
  destruct (compare_crecid _ _ >? 0) eqn:Hcmp.
  - apply compare_gt_true in Hcmp as [Hle Hnle].
    assert (0 < j)%nat as Hj0.
    { destruct j; [|lia]. exfalso. apply Hnle. apply cle_refl. }
    set (p := ((j - 1) / 2)%nat) in *.
    assert (is_child p j) as Hpj by (unfold is_child, p; lia).
    assert (p < j)%nat as Hplt by (unfold p; lia).
    destruct (IH (swap_entry pq p j) p n) as (Hheap & Hperm & Hlen).
    + lia.
    + rewrite swap_entry_length. lia.
    + destruct Hinv as [Hedges Hgrand]. split.
      * intros q c Hqc Hc Hcp. unfold edge_ok.
        rewrite !swap_entry_lookup by lia.
        destruct (decide (c = j)) as [->|Hcj].
        -- assert (q = p) as -> by (unfold is_child in *; lia).
           rewrite decide_False by lia. rewrite decide_True by done. done.
        -- rewrite (decide_False (P := c = p)) by done.
           destruct (decide (q = j)) as [->|Hqj].
           ++ by apply (Hgrand p c).
           ++ destruct (decide (q = p)) as [->|Hqp].
              ** etrans; [exact Hle|]. by apply Hedges.
              ** by apply Hedges.
      * intros g c Hgp Hpc Hc. unfold edge_ok.
        rewrite !swap_entry_lookup by (unfold is_child in *; lia).
        rewrite (decide_False (P := g = j)) by (unfold is_child in *; lia).
        rewrite (decide_False (P := g = p)) by (unfold is_child in *; lia).
        destruct (decide (c = j)) as [->|Hcj].
        -- apply Hedges; [done|lia|lia].
        -- rewrite (decide_False (P := c = p)) by (unfold is_child in *; lia).
           etrans; [apply (Hedges g p); [done|lia|lia]|].
           by apply Hedges.
    + split; [done|]. split; [|by rewrite Hlen, swap_entry_length].
      rewrite Hperm. apply swap_entry_take; lia.
  - apply compare_gt_false in Hcmp. split; [|done].
    apply (heap_but_up_done pq n j Hinv).
    intros p Hp. replace p with ((j - 1) / 2)%nat by (unfold is_child in Hp; lia).
    done.
Qed.

Lemma insert_spec pq new size :
  (1 <= size <= length pq)%nat ->
  heap_ordered pq (size - 1) ->
  heap_ordered (insert pq new size) size
  /\ take size (insert pq new size) ≡ₚ new :: take (size - 1) pq
  /\ length (insert pq new size) = length pq.
Proof.
  intros Hsize Hheap. unfold insert.
  destruct (insert_loop_spec (S (size - 1)) (<[(size - 1)%nat := new]> pq) (size - 1) size)
    as (Hh & Hperm & Hlen).
  - lia.
  - rewrite length_insert. lia.
  - split.
    + intros p c Hpc Hc Hne. unfold edge_ok.
      rewrite !list_lookup_total_insert_ne by (unfold is_child in *; lia).
      apply Hheap; [done|lia].
    + intros g c Hg Hc Hlt. unfold is_child in *. lia.
  - split; [done|]. split; [|by rewrite Hlen, length_insert].
    rewrite Hperm.
    replace size with (S (size - 1)) at 1 by lia.
    erewrite take_S_r by (apply list_lookup_insert_eq; lia).
    rewrite take_insert_ge by lia.
    by rewrite Permutation_app_comm.
Qed.

(** The rounds granted to the two loops suffice: more of them do not
    change the result. *)
Lemma compare_crecid_self a : compare_crecid a a = 0.
Proof.
  unfold compare_crecid, compare_crec. rewrite !Z.sub_diag. done.
Qed.

Lemma insert_loop_fuel (fuel1 : nat) :
  forall fuel2 pq j,
    (j < fuel1)%nat -> (j < fuel2)%nat ->
    insert_loop fuel1 pq j = insert_loop fuel2 pq j.
Proof.
  induction fuel1 as [|fuel1 IH]; intros [|fuel2] pq j H1 H2; try lia.
  cbn [insert_loop]. destruct (compare_crecid _ _ >? 0) eqn:Hcmp; [|done].
  destruct j as [|j].
  - change ((0 - 1) / 2)%nat with 0%nat in Hcmp.
    rewrite compare_crecid_self in Hcmp. done.
  - apply IH; lia.
Qed.

Lemma delete_loop_fuel (fuel1 : nat) :
  forall fuel2 pq size p,
    (size - 1 <= fuel1 + p)%nat -> (size - 1 <= fuel2 + p)%nat ->
    delete_loop fuel1 pq size p = delete_loop fuel2 pq size p.
Proof.
  induction fuel1 as [|fuel1 IH]; intros [|fuel2] pq size p H1 H2; cbn [delete_loop].
  - done.
  - destruct (Nat.ltb_spec (2 * p + 1) (size - 1)); [lia|done].
  - destruct (Nat.ltb_spec (2 * p + 1) (size - 1)); [lia|done].
  - destruct (_ <? _)%nat; [|done]. destruct (_ =? _)%nat; [done|].
    destruct (_ <? 0); destruct (_ >? 0); try done; apply IH; lia.
Qed.

Lemma heap_but_down_done pq n p :
  heap_but_down pq n p ->
  (forall c, is_child p c -> (c < n)%nat -> edge_ok pq p c) ->
  heap_ordered pq n.
Proof.
  intros [Hedges _] Hp q c Hqc Hc.
  destruct (decide (q = p)) as [->|Hne]; [by apply Hp|by apply Hedges].
Qed.

(** The state of the heap after the entries at [p] and at its child
    [j] are exchanged, where [pq[j]] is no larger than its sibling. *)
Lemma heap_but_down_swap pq n p j :
  (n <= length pq)%nat -> is_child p j -> (j < n)%nat ->
  heap_but_down pq n p ->
  cle (pq !!! j) (pq !!! p) ->
  (forall c, is_child p c -> (c < n)%nat -> cle (pq !!! j) (pq !!! c)) ->
  heap_but_down (swap_entry pq p j) n j.
Proof.
  intros Hn Hpj Hj [Hedges Hgrand] Hle Hsib.
  assert (p < j)%nat by (unfold is_child in *; lia).
  split.
  - intros q c Hqc Hc Hqj. unfold edge_ok.
    rewrite !swap_entry_lookup by lia.
    rewrite (decide_False (P := q = j)) by done.
    destruct (decide (c = j)) as [->|Hcj].
    + assert (q = p) as -> by (unfold is_child in *; lia).
      by rewrite decide_True.
    + destruct (decide (q = p)) as [->|Hqp].
      * rewrite (decide_False (P := c = p)) by (unfold is_child in *; lia).
        by apply Hsib.
      * destruct (decide (c = p)) as [->|Hcp].
        -- by apply (Hgrand q j).
        -- by apply Hedges.
  - intros g c Hgj Hjc Hc. unfold edge_ok.
    assert (g = p) as -> by (unfold is_child in *; lia).
    rewrite !swap_entry_lookup by lia.
    rewrite (decide_False (P := p = j)) by lia.
    rewrite (decide_True (P := p = p)) by done.
    rewrite (decide_False (P := c = j)) by (unfold is_child in *; lia).
    rewrite (decide_False (P := c = p)) by (unfold is_child in *; lia).
    apply Hedges; [done|done|lia].
Qed.

Lemma delete_loop_spec (fuel : nat) :
  forall pq p size,
    (size - 1 <= fuel + p)%nat -> (1 <= size <= length pq)%nat ->
    heap_but_down pq (size - 1) p ->
    heap_ordered (delete_loop fuel pq size p) (size - 1)
    /\ take (size - 1) (delete_loop fuel pq size p) ≡ₚ take (size - 1) pq
    /\ length (delete_loop fuel pq size p) = length pq.
Proof.
  induction fuel as [|fuel IH]; intros pq p size Hfuel Hsize Hinv.
  - split; [|done]. apply (heap_but_down_done _ _ _ Hinv).
    intros c Hc Hlt. unfold is_child in Hc. lia.
  - cbn [delete_loop].
    destruct (Nat.ltb_spec (2 * p + 1) (size - 1)) as [Hj|Hj]; cycle 1.
    { split; [|done]. apply (heap_but_down_done _ _ _ Hinv).
      intros c Hc Hlt. unfold is_child in Hc. lia. }
    assert (is_child p (2 * p + 1)) as Hc1 by (by left).
    assert (is_child p (2 * p + 1 + 1)) as Hc2 by (right; lia).
    destruct (Nat.eqb_spec (2 * p + 1) (size - 2)) as [Hlast|Hlast].
    + (* a single child *)
      destruct (compare_crecid _ _ >? 0) eqn:Hcmp.
      * apply compare_gt_true in Hcmp as [Hle _].
        split; [|split; [apply swap_entry_take; lia|apply swap_entry_length]].
        eapply (heap_but_down_done _ _ (2 * p + 1)).
        -- apply heap_but_down_swap; try done; try lia.
           intros c Hc Hlt.
           assert (c = (2 * p + 1)%nat) as -> by (unfold is_child in Hc; lia).
           apply cle_refl.
        -- intros c Hc Hlt. unfold is_child in Hc. lia.
      * apply compare_gt_false in Hcmp. split; [|done].
        apply (heap_but_down_done _ _ _ Hinv).
        intros c Hc Hlt.
        assert (c = (2 * p + 1)%nat) as -> by (unfold is_child in Hc; lia).
        done.
    + destruct (compare_crecid (pq !!! _) (pq !!! (2 * p + 1 + 1)%nat) <? 0) eqn:Hsib.
      * apply compare_lt_true in Hsib.
        destruct (compare_crecid _ _ >? 0) eqn:Hcmp.
        -- apply compare_gt_true in Hcmp as [Hle _].
           destruct (IH (swap_entry pq p (2 * p + 1)) (2 * p + 1)%nat size)
             as (Hh & Hperm & Hlen).
           ++ lia.
           ++ rewrite swap_entry_length. lia.
           ++ apply heap_but_down_swap; try done; try lia.
              intros c [->| ->] Hlt; [apply cle_refl|].
              by replace (2 * p + 2)%nat with (2 * p + 1 + 1)%nat by lia.
           ++ split; [done|]. split; [|by rewrite Hlen, swap_entry_length].
              rewrite Hperm. apply swap_entry_take; lia.
        -- apply compare_gt_false in Hcmp. split; [|done].
           apply (heap_but_down_done _ _ _ Hinv).
           intros c [->| ->] Hlt; [done|].
           replace (2 * p + 2)%nat with (2 * p + 1 + 1)%nat by lia.
           unfold edge_ok. by etrans.
      * apply compare_lt_false in Hsib.
        destruct (compare_crecid _ _ >? 0) eqn:Hcmp.
        -- apply compare_gt_true in Hcmp as [Hle _].
           destruct (IH (swap_entry pq p (2 * p + 1 + 1)) (2 * p + 1 + 1)%nat size)
             as (Hh & Hperm & Hlen).
           ++ lia.
           ++ rewrite swap_entry_length. lia.
           ++ apply heap_but_down_swap; try done; try lia.
              intros c [->| ->] Hlt; [done|].
              replace (2 * p + 2)%nat with (2 * p + 1 + 1)%nat by lia.
              apply cle_refl.
           ++ split; [done|]. split; [|by rewrite Hlen, swap_entry_length].
              rewrite Hperm. apply swap_entry_take; lia.
        -- apply compare_gt_false in Hcmp. split; [|done].
           apply (heap_but_down_done _ _ _ Hinv).
           intros c [->| ->] Hlt.
           ++ unfold edge_ok. by etrans.
           ++ by replace (2 * p + 2)%nat with (2 * p + 1 + 1)%nat by lia.
Qed.

Lemma delete_spec pq size :
  (1 <= size <= length pq)%nat ->
  heap_ordered pq size ->
  heap_ordered (delete pq size) (size - 1)
  /\ pq !!! 0%nat :: take (size - 1) (delete pq size) ≡ₚ take size pq
  /\ length (delete pq size) = length pq.
Proof.
  intros Hsize Hheap. unfold delete.
  destruct (delete_loop_spec size (<[0%nat := pq !!! (size - 1)%nat]> pq) 0 size)
    as (Hh & Hperm & Hlen).
  - lia.
  - rewrite length_insert. lia.
  - split.
    + intros q c Hqc Hc Hq. unfold edge_ok.
      rewrite !list_lookup_total_insert_ne by (unfold is_child in *; lia).
      apply Hheap; [done|lia].
    + intros g c Hg. unfold is_child in Hg. lia.
  - split; [done|]. split; [|by rewrite Hlen, length_insert].
    rewrite Hperm.
    replace size with (S (size - 1)) at 3 by lia.
    erewrite (take_S_r pq) by (apply list_lookup_lookup_total_lt; lia).
    destruct (decide (size - 1 = 0)%nat) as [Hz|Hnz].
    + rewrite Hz. simpl. done.
    + destruct pq as [|e pq]; [simpl in Hsize; lia|].
      destruct (size - 1)%nat as [|m] eqn:Hm; [done|].
      rewrite (Permutation_app_comm (take (S m) (e :: pq))).
      simpl. apply Permutation_swap.
Qed.

Lemma heap_root_minimal pq n :
  heap_ordered pq n ->
  forall k, (k < n)%nat -> cle (pq !!! 0%nat) (pq !!! k).
Proof.
  intros Hheap k. induction k as [k IH] using lt_wf_ind. intros Hk.
  destruct k as [|k]; [apply cle_refl|].
  etrans; [apply (IH (k / 2)%nat); lia|].
  apply Hheap; [|done]. unfold is_child. lia.
Qed.

(** *** The merge loop *)

Lemma Sorted_key_le_inv a b l : Sorted key_le (a :: b :: l) -> key_le a b /\ Sorted key_le (a :: l).
Proof.
  intros Hs. apply Sorted_StronglySorted in Hs; [|apply key_le_trans].
  apply StronglySorted_inv in Hs as [Hs Hall].
  apply StronglySorted_inv in Hs as [Hs _].
  apply Forall_cons in Hall as [Hab Hall].
  split; [done|]. apply StronglySorted_Sorted. by constructor.
Qed.

Lemma Sorted_key_le_tail a l : Sorted key_le (a :: l) -> Sorted key_le l.
Proof. by inversion 1. Qed.

Lemma concat_insert_tail (fid : list (list CREC)) (i : nat) r f :
  fid !! i = Some (r :: f) ->
  concat fid ≡ₚ r :: concat (<[i := f]> fid)
  /\ length (concat fid) = S (length (concat (<[i := f]> fid))).
Proof.
  revert i. induction fid as [|g fid IH]; intros [|i] Hi; try done.
  - injection Hi as ->. by simpl.
  - simpl in Hi. destruct (IH i Hi) as [Hp Hl]. simpl. split.
    + rewrite Hp. by rewrite Permutation_middle.
    + rewrite !length_app. lia.
Qed.

Lemma elem_of_take_lookup (pq : list CRECID) (n : nat) e :
  e ∈ take n pq -> exists k, (k < n)%nat /\ (k < length pq)%nat /\ pq !!! k = e.
Proof.
  intros [k Hk]%list_elem_of_lookup.
  apply lookup_take_Some in Hk as [Hk Hlt].
  exists k. split; [done|]. split; [by eapply lookup_lt_Some|].
  by apply list_lookup_total_correct.
Qed.

Lemma root_in_heap (pq : list CRECID) (n : nat) :
  (1 <= n <= length pq)%nat -> pq !!! 0%nat ∈ take n pq.
Proof.
  intros Hn. apply list_elem_of_lookup. exists 0%nat.
  rewrite lookup_take_lt by lia. apply list_lookup_lookup_total_lt. lia.
Qed.

(** One pop of the queue with the read that follows it. *)
Lemma refill_spec runs popped st :
  queue_inv runs popped st ->
  (0 < ms_size st)%nat ->
  queue_inv runs (popped ++ [crec (ms_pq st !!! 0%nat)]) (refill st)
  /\ (ms_size (refill st) + length (concat (ms_fid (refill st)))
      < ms_size st + length (concat (ms_fid st)))%nat
  /\ ms_old (refill st) = ms_old st
  /\ ms_out (refill st) = ms_out st.
Proof.
  intros [Hlpq Hlfid Hsz Hheap Hids Hsorted Hfs Hact Hpop Hbound Hperm] Hpos.
  destruct st as [pq size fid new old out]. cbn [ms_pq ms_size ms_fid ms_new ms_old ms_out] in *.
  set (h0 := pq !!! 0%nat) in *.
  assert (Hh0 : h0 ∈ take size pq) by (apply root_in_heap; lia).
  pose proof (Hids h0 Hh0) as Hi.
  destruct (delete_spec pq size ltac:(lia) Hheap) as (Hheap1 & Hperm1 & Hlen1).
  fold h0 in Hperm1.
  assert (Hmin : forall e, e ∈ take size pq -> cle h0 e).
  { intros e (k & Hk & _ & <-)%elem_of_take_lookup. by apply heap_root_minimal with size. }
  assert (Hpop' : StronglySorted key_le (popped ++ [crec h0])).
  { apply StronglySorted_app. split; [|split; [done|repeat constructor]].
    intros r1 r2 Hr1 ->%list_elem_of_singleton. by apply Hbound. }
  assert (Hsub : forall e, e ∈ take (size - 1) (delete pq size) -> e ∈ take size pq).
  { intros e He. rewrite <- Hperm1. by right. }
  assert (Hbound1 : forall r e, r ∈ popped ++ [crec h0] ->
            e ∈ take (size - 1) (delete pq size) -> key_le r (crec e)).
  { intros r e [Hr| ->%list_elem_of_singleton]%elem_of_app He.
    - apply Hbound; [done|by apply Hsub].
    - apply Hmin. by apply Hsub. }
  unfold refill. cbn [ms_pq ms_size ms_fid ms_new ms_old ms_out]. fold h0.
  destruct (fid !!! id h0) as [|r f] eqn:Hfile; cbn [fread].
  - (* end of file: the queue shrinks *)
    assert (Hfid : <[id h0 := []]> fid = fid).
    { apply list_insert_id. rewrite <- Hfile. apply list_lookup_lookup_total_lt. lia. }
    rewrite Hfid. split; [|cbn; split; [lia|done]].
    constructor; cbn [ms_pq ms_size ms_fid ms_new ms_old ms_out]; try done; try lia.
    + intros e He. by apply Hids, Hsub.
    + intros e He. by apply Hsorted, Hsub.
    + intros i Hilt Hne. destruct (Hact i Hilt Hne) as (e & He & Hid).
      exists e. split; [|done].
      rewrite <- Hperm1 in He. apply elem_of_cons in He as [->|He]; [|done].
      by rewrite Hid in Hfile.
    + rewrite <- Hperm, <- Hperm1. rewrite <- app_assoc. simpl. done.
  - (* a record is read and inserted *)
    assert (Hlook : fid !! id h0 = Some (r :: f)).
    { rewrite <- Hfile. apply list_lookup_lookup_total_lt. lia. }
    destruct (concat_insert_tail fid (id h0) r f Hlook) as [Hcperm Hclen].
    set (enew := set_id (mkCRECID r (id new)) (id h0)).
    destruct (insert_spec (delete pq size) enew size ltac:(lia) Hheap1)
      as (Hheap2 & Hperm2 & Hlen2).
    pose proof (Hsorted h0 Hh0) as Hs0. rewrite Hfile in Hs0.
    apply Sorted_key_le_inv in Hs0 as [Hh0r Hs0].
    split; [|cbn [ms_pq ms_size ms_fid ms_new ms_old ms_out]; split; [lia|done]].
    constructor; cbn [ms_pq ms_size ms_fid ms_new ms_old ms_out]; try done; try lia.
    + by rewrite length_insert.
    + intros e He. rewrite Hperm2 in He.
      apply elem_of_cons in He as [->|He]; [done|]. by apply Hids, Hsub.
    + intros e He. rewrite Hperm2 in He.
      apply elem_of_cons in He as [->|He].
      * cbn. rewrite list_lookup_total_insert_eq by lia.
        eapply Forall_lookup_1 in Hfs; [|exact Hlook]. done.
      * destruct (decide (id e = id h0)) as [Heq|Hne].
        -- rewrite Heq, list_lookup_total_insert_eq by lia.
           pose proof (Hsorted e (Hsub e He)) as Hse. rewrite Heq, Hfile in Hse.
           by apply Sorted_key_le_inv in Hse as [_ Hse].
        -- rewrite list_lookup_total_insert_ne by done. by apply Hsorted, Hsub.
    + apply Forall_insert; [done|].
      eapply Forall_lookup_1 in Hfs; [|exact Hlook]. by apply Sorted_key_le_tail in Hfs.
    + intros i Hilt Hne.
      destruct (decide (i = id h0)) as [->|Hine].
      * exists enew. split; [|done]. rewrite Hperm2. by left.
      * rewrite list_lookup_total_insert_ne in Hne by done.
        destruct (Hact i Hilt Hne) as (e & He & Hid).
        exists e. split; [|done]. rewrite Hperm2. right.
        rewrite <- Hperm1 in He. apply elem_of_cons in He as [->|He]; [|done].
        done.
    + intros r0 e Hr0 He. rewrite Hperm2 in He.
      apply elem_of_cons in He as [->|He]; [|by apply Hbound1].
      cbn. apply elem_of_app in Hr0 as [Hr0| ->%list_elem_of_singleton]; [|done].
      etrans; [|exact Hh0r]. by apply Hbound.
    + rewrite <- Hperm, <- Hperm1, Hperm2, Hcperm.
      rewrite <- app_assoc. apply Permutation_app_head.
      subst enew. cbn [map app crec set_id].
      apply Permutation_skip, Permutation_middle.
Qed.

Lemma queue_inv_irrel runs popped pq size fid new old out new' old' out' :
  queue_inv runs popped (mkMS pq size fid new old out) ->
  queue_inv runs popped (mkMS pq size fid new' old' out').
Proof. intros []. by constructor. Qed.

Lemma merge_write_chunk (e old old' : CRECID) (w : list CREC) :
  merge_write e old = (old', w) ->
  forall more,
    write_chunk_loop (crec old) (crec e :: more) = w ++ write_chunk_loop (crec old') more.
Proof.
  unfold merge_write. intros Hmw more. cbn [write_chunk_loop].
  destruct (_ && _); by injection Hmw as <- <-.
Qed.

Lemma concat_all_nil {A} (l : list (list A)) :
  (forall i, (i < length l)%nat -> l !!! i = []) -> concat l = [].
Proof.
  induction l as [|x l IH]; intros Hall; [done|].
  pose proof (Hall 0%nat ltac:(simpl; lia)) as H0. cbn in H0. subst x.
  cbn [concat app]. apply IH.
  intros i Hi. apply (Hall (S i)). simpl. lia.
Qed.

Lemma merge_loop_spec runs (fuel : nat) :
  forall st popped,
    queue_inv runs popped st ->
    written_inv popped st ->
    (ms_size st + length (concat (ms_fid st)) < fuel)%nat ->
    exists st' popped',
      merge_loop fuel st = Some st'
      /\ popped' ≡ₚ concat runs
      /\ StronglySorted key_le popped'
      /\ ms_out st' ++ [crec (ms_old st')] = write_chunk popped'.
Proof.
  induction fuel as [|fuel IH]; intros st popped Hinv Hout Hfuel; [lia|].
  cbn [merge_loop].
  destruct (Nat.ltb_spec 0 (ms_size st)) as [Hpos|Hzero].
  - destruct (merge_write (ms_pq st !!! 0%nat) (ms_old st)) as [old' written] eqn:Hmw.
    destruct st as [pq size fid new old out]. cbn [ms_pq ms_size ms_fid ms_new ms_old ms_out] in *.
    pose proof (refill_spec runs popped (mkMS pq size fid new old' (out ++ written))
                  (queue_inv_irrel _ _ _ _ _ _ _ _ _ _ _ Hinv) Hpos)
      as (Hinv' & Hdec & Hold & Hwr).
    cbn [ms_pq ms_size ms_fid ms_new ms_old ms_out] in *.
    apply (IH _ _ Hinv'); [|lia].
    destruct Hout as (first & rest & -> & Hrel).
    exists first, (rest ++ [crec (pq !!! 0%nat)]). split; [done|].
    intros more. rewrite Hold, Hwr. rewrite <- app_assoc. cbn [app].
    rewrite Hrel. cbn [ms_out ms_old].
    rewrite (merge_write_chunk _ _ _ _ Hmw). by rewrite app_assoc.
  - exists st, popped. split; [done|].
    destruct Hinv as [Hlpq Hlfid Hsz Hheap Hids Hsorted Hfs Hact Hpop Hbound Hperm].
    assert (ms_size st = 0)%nat as Hs0 by lia. rewrite Hs0 in *.
    assert (Hnil : concat (ms_fid st) = []).
    { apply concat_all_nil. intros i Hi.
      destruct (ms_fid st !!! i) eqn:Hfi; [done|].
      destruct (Hact i) as (e & He & _); [lia|by rewrite Hfi|].
      rewrite take_0 in He. by apply elem_of_nil in He. }
    rewrite Hnil, take_0 in Hperm. cbn in Hperm. rewrite app_nil_r in Hperm.
    split; [done|]. split; [done|].
    destruct Hout as (first & rest & -> & Hrel).
    specialize (Hrel []). rewrite app_nil_r in Hrel. cbn [write_chunk]. by rewrite Hrel.
Qed.

Lemma effective_length new (files : list (list CREC)) :
  length (effective new files) = length files
  /\ (length (concat (effective new files)) <= length (concat files) + length files)%nat.
Proof.
  revert new. induction files as [|[|r f] files IH]; intros new.
  - done.
  - destruct (IH new) as [Hl Hc]. simpl. lia.
  - destruct (IH r) as [Hl Hc]. simpl. rewrite !length_app. simpl. lia.
Qed.

Lemma effective_nonempty new (files : list (list CREC)) :
  Forall (fun f => f <> []) files -> effective new files = files.
Proof.
  intros Hall. revert new. induction Hall as [|[|r f] files Hf Hall IH]; intros new.
  - done.
  - done.
  - simpl. by rewrite IH.
Qed.

Lemma effective_sorted new (files : list (list CREC)) :
  Forall (Sorted key_le) files -> Forall (Sorted key_le) (effective new files).
Proof.
  intros Hall. revert new. induction Hall as [|[|r f] files Hf Hall IH]; intros new.
  - done.
  - simpl. constructor; [repeat constructor|apply IH].
  - simpl. constructor; [done|apply IH].
Qed.

(** The state of the queue after priming: [runs_done] are the
    effective runs of the files already opened. *)
Lemma prime_spec (files : list (list CREC)) :
  forall i new pq fid runs_done,
    length fid = i -> length runs_done = i ->
    (i + length files <= length pq)%nat ->
    heap_ordered pq i ->
    (forall e, e ∈ take i pq ->
       (id e < i)%nat /\ crec e :: fid !!! id e = runs_done !!! id e) ->
    (forall k, (k < i)%nat -> exists e, e ∈ take i pq /\ id e = k) ->
    map crec (take i pq) ++ concat fid ≡ₚ concat runs_done ->
    exists new' pq' fid',
      prime files i new pq fid = (new', pq', fid')
      /\ let runs := runs_done ++ effective (crec new) files in
         let n := (i + length files)%nat in
         length fid' = n /\ length pq' = length pq
         /\ heap_ordered pq' n
         /\ (forall e, e ∈ take n pq' ->
               (id e < n)%nat /\ crec e :: fid' !!! id e = runs !!! id e)
         /\ (forall k, (k < n)%nat -> exists e, e ∈ take n pq' /\ id e = k)
         /\ map crec (take n pq') ++ concat fid' ≡ₚ concat runs.
Proof.
  induction files as [|f files IH];
    intros i new pq fid runs_done Hlf Hlr Hlen Hheap Hent Hact Hperm.
  - exists new, pq, fid. split; [done|]. cbn [effective length].
    rewrite app_nil_r, Nat.add_0_r. done.
  - cbn [prime length] in *.
    set (r := match f with [] => crec new | r :: _ => r end).
    set (f' := match f with [] => [] | _ :: f' => f' end).
    assert (Hfread : fread new f
              = (mkCRECID r (id new), f', match f with [] => true | _ => false end)).
    { destruct f; [by destruct new|done]. }
    rewrite Hfread.
    change (set_id (mkCRECID r (id new)) i) with (mkCRECID r i).
    set (e0 := mkCRECID r i).
    destruct (insert_spec pq e0 (S i) ltac:(lia)) as (Hheap' & Hperm' & Hlen').
    { by replace (S i - 1)%nat with i by lia. }
    replace (S i - 1)%nat with i in Hperm' by lia.
    destruct (IH (S i) e0 (insert pq e0 (S i)) (fid ++ [f'])
                (runs_done ++ [r :: f'])) as (new' & pq' & fid' & Hrun & Hres).
    + rewrite length_app. simpl. lia.
    + rewrite length_app. simpl. lia.
    + lia.
    + done.
    + intros e He. rewrite Hperm' in He. apply elem_of_cons in He as [->|He].
      * unfold e0. cbn [id crec]. split; [lia|].
        rewrite !lookup_total_app_r by lia.
        rewrite Hlf, Hlr, Nat.sub_diag. done.
      * destruct (Hent e He) as [Hid Heq]. split; [lia|].
        rewrite !lookup_total_app_l by lia. done.
    + intros k Hk. destruct (decide (k = i)) as [->|Hne].
      * exists e0. split; [|done]. rewrite Hperm'. by left.
      * destruct (Hact k ltac:(lia)) as (e & He & Hid).
        exists e. split; [|done]. rewrite Hperm'. by right.
    + rewrite Hperm', !concat_app. cbn [map concat]. rewrite !app_nil_r.
      rewrite <- Hperm, <- Permutation_middle.
      unfold e0. cbn [app crec]. apply Permutation_skip. by rewrite app_assoc.
    + exists new', pq', fid'. split; [exact Hrun|].
      cbn zeta in *. cbn [crec] in Hres.
      replace (runs_done ++ effective (crec new) (f :: files))
        with ((runs_done ++ [r :: f']) ++ effective r files).
      * replace (i + S (length files))%nat with (S i + length files)%nat by lia.
        rewrite Hlen' in Hres. exact Hres.
      * rewrite <- app_assoc. cbn [app]. subst r f'. by destruct f.
Qed.

Lemma Sorted_key_le_cons_tail (r : CREC) l : Sorted key_le (r :: l) -> Sorted key_le l.
Proof. by inversion 1. Qed.

(** [merge_files] writes what [write_chunk] makes of the records of
    the effective runs in sorted order. *)
Lemma merge_files_spec (new0 : CRECID) (files : list (list CREC)) :
  files <> [] ->
  Forall (Sorted key_le) files ->
  exists popped,
    merge_files new0 files = Some (write_chunk popped)
    /\ popped ≡ₚ concat (effective (crec new0) files)
    /\ StronglySorted key_le popped.
Proof.
  intros Hne Hsorted. unfold merge_files.
  destruct (Nat.eqb_spec (length files) 0) as [Hz|Hnz].
  { by destruct files. }
  set (runs := effective (crec new0) files).
  destruct (prime_spec files 0 new0 (replicate (length files) new0) [] [])
    as (new & pq & fid & Hrun & Hres); try done.
  - rewrite length_replicate. simpl. lia.
  - intros p c _ Hc. lia.
  - intros e He. rewrite take_0 in He. by apply elem_of_nil in He.
  - intros k Hk. lia.
  - rewrite Hrun. cbn zeta in Hres. cbn [app] in Hres. fold runs in Hres.
    rewrite Nat.add_0_l in Hres.
    destruct Hres as (Hlfid & Hlpq & Hheap & Hent & Hact & Hperm).
    rewrite length_replicate in Hlpq.
    pose proof (effective_length (crec new0) files) as [Hlruns Hcruns]. fold runs in Hlruns, Hcruns.
    pose proof (effective_sorted (crec new0) files Hsorted) as Hrs. fold runs in Hrs.
    assert (Hrun_sorted : forall k, (k < length files)%nat -> Sorted key_le (runs !!! k)).
    { intros k Hk. eapply Forall_lookup_1; [exact Hrs|].
      apply list_lookup_lookup_total_lt. lia. }
    set (st0 := mkMS pq (length files) fid new (pq !!! 0%nat) []).
    assert (Hinv0 : queue_inv runs [] st0).
    { constructor; unfold st0; cbn [ms_pq ms_size ms_fid].
      - lia.
      - lia.
      - lia.
      - done.
      - intros e He. rewrite Hlruns. by apply Hent.
      - intros e He. destruct (Hent e He) as [Hid Heq]. rewrite Heq. by apply Hrun_sorted.
      - apply Forall_lookup_2. intros k x Hk.
        assert (k < length files)%nat as Hklt by (apply lookup_lt_Some in Hk; lia).
        destruct (Hact k Hklt) as (e & He & Hid).
        destruct (Hent e He) as [_ Heq]. rewrite Hid in Heq.
        apply list_lookup_total_correct in Hk. rewrite Hk in Heq.
        pose proof (Hrun_sorted k Hklt) as Hs. rewrite <- Heq in Hs.
        by apply Sorted_key_le_cons_tail in Hs.
      - intros k Hk _. apply Hact. lia.
      - constructor.
      - intros r e Hr. by apply elem_of_nil in Hr.
      - done. }
    destruct (refill_spec runs [] st0 Hinv0) as (Hinv1 & Hdec & Hold & Hout).
    { unfold st0. cbn [ms_size]. lia. }
    cbn [app] in Hinv1.
    destruct (merge_loop_spec runs (S (length files + length (concat files)))
                (refill st0) [crec (pq !!! 0%nat)] Hinv1)
      as (st' & popped & Hloop & Hpp & Hps & Hwr).
    + exists (crec (pq !!! 0%nat)), []. split; [done|].
      intros more. by rewrite Hold, Hout.
    + apply Permutation_length in Hperm.
      rewrite length_app, length_map, length_take in Hperm.
      unfold st0 in Hdec at 3 4. cbn [ms_size ms_fid] in Hdec. lia.
    + fold st0. rewrite Hloop. exists popped. by rewrite Hwr.
Qed.

(** *** What [write_chunk] makes of a sorted list *)

Lemma key_sum_cons k x (l : list CREC) :
  key_sum k (x :: l) = ((if decide (key x = k) then val x else 0) + key_sum k l)%Qc.
Proof. unfold key_sum. cbn [foldr]. case_decide; ring. Qed.

Lemma key_sum_perm k (l1 l2 : list CREC) :
  l1 ≡ₚ l2 -> key_sum k l1 = key_sum k l2.
Proof.
  induction 1 as [|x l1 l2 _ IH|x y l|l1 l2 l3 _ IH1 _ IH2].
  - done.
  - by rewrite !key_sum_cons, IH.
  - rewrite !key_sum_cons. ring.
  - congruence.
Qed.

Lemma key_sum_absent k (l : list CREC) : ~ In k (map key l) -> key_sum k l = 0%Qc.
Proof.
  induction l as [|x l IH]; intros Hk; [done|].
  rewrite key_sum_cons. cbn [map In] in Hk.
  rewrite decide_False by tauto. rewrite IH by tauto. ring.
Qed.

Lemma write_chunk_loop_sum k (l : list CREC) :
  forall old, key_sum k (write_chunk_loop old l) = key_sum k (old :: l).
Proof.
  induction l as [|r l IH]; intros old; cbn [write_chunk_loop]; [done|].
  destruct ((word1 r =? word1 old) && (word2 r =? word2 old)) eqn:Heq.
  - apply andb_true_iff in Heq as [H1%Z.eqb_eq H2%Z.eqb_eq].
    rewrite IH. rewrite !key_sum_cons.
    assert (key r = key old) as Hk by (apply key_eq_iff; lia).
    unfold key at 1. cbn [word1 word2 val]. fold (key old). rewrite Hk.
    destruct (decide (key old = k)); ring.
  - rewrite (key_sum_cons k old (write_chunk_loop r l)), IH.
    by rewrite (key_sum_cons k old (r :: l)).
Qed.

Lemma write_chunk_sum k (l : list CREC) : key_sum k (write_chunk l) = key_sum k l.
Proof. destruct l as [|r l]; [done|]. apply write_chunk_loop_sum. Qed.

Lemma write_chunk_loop_keys k (l : list CREC) :
  forall old, In k (map key (write_chunk_loop old l)) <-> In k (map key (old :: l)).
Proof.
  induction l as [|r l IH]; intros old; cbn [write_chunk_loop]; [done|].
  destruct ((word1 r =? word1 old) && (word2 r =? word2 old)) eqn:Heq.
  - apply andb_true_iff in Heq as [H1%Z.eqb_eq H2%Z.eqb_eq].
    rewrite IH. cbn [map In].
    assert (key r = key old) as Hk by (apply key_eq_iff; lia).
    unfold key at 1. cbn [word1 word2]. fold (key old). rewrite Hk. tauto.
  - cbn [map In]. rewrite IH. cbn [map In]. tauto.
Qed.

Lemma write_chunk_keys k (l : list CREC) :
  In k (map key (write_chunk l)) <-> In k (map key l).
Proof. destruct l as [|r l]; [done|]. apply write_chunk_loop_keys. Qed.

Lemma write_chunk_loop_sorted (l : list CREC) :
  forall old,
    Forall (key_le old) l -> StronglySorted key_le l ->
    StronglySorted key_lt (write_chunk_loop old l)
    /\ Forall (key_le old) (write_chunk_loop old l).
Proof.
  induction l as [|r l IH]; intros old Hall Hs; cbn [write_chunk_loop].
  - split; repeat constructor. apply key_le_refl.
  - apply Forall_cons in Hall as [Hor Hall].
    apply StronglySorted_inv in Hs as [Hs Hrl].
    destruct ((word1 r =? word1 old) && (word2 r =? word2 old)) eqn:Heq.
    + apply andb_true_iff in Heq as [H1%Z.eqb_eq H2%Z.eqb_eq].
      destruct (IH (mkCREC (word1 old) (word2 old) (val old + val r))) as [Hs' Hall'];
        [|done|].
      * eapply Forall_impl; [exact Hall|]. intros x. rewrite !key_le_iff. cbn. lia.
      * split; [done|]. eapply Forall_impl; [exact Hall'|].
        intros x. rewrite !key_le_iff. cbn. lia.
    + destruct (IH r Hrl Hs) as [Hs' Hall'].
      assert (key_lt old r) as Hlt.
      { apply key_le_iff in Hor. apply key_lt_iff.
        apply andb_false_iff in Heq as [Hne%Z.eqb_neq|Hne%Z.eqb_neq]; lia. }
      split.
      * constructor; [done|]. eapply Forall_impl; [exact Hall'|].
        intros x Hx. apply key_le_iff in Hx. apply key_lt_iff in Hlt. apply key_lt_iff. lia.
      * constructor; [apply key_le_refl|]. eapply Forall_impl; [exact Hall'|].
        intros x Hx. etrans; [exact Hor|done].
Qed.

Lemma write_chunk_sorted (l : list CREC) :
  StronglySorted key_le l -> StronglySorted key_lt (write_chunk l).
Proof.
  destruct l as [|r l]; [constructor|]. intros Hs.
  apply StronglySorted_inv in Hs as [Hs Hall].
  by apply write_chunk_loop_sorted.
Qed.

Lemma sorted_lt_NoDup (l : list CREC) : StronglySorted key_lt l -> NoDup (map key l).
Proof.
  induction 1 as [|x l Hs IH Hall]; cbn [map]; constructor; [|done].
  intros Hin. apply list_elem_of_In, in_map_iff in Hin as (y & Hk & Hy).
  apply list_elem_of_In in Hy.
  rewrite Forall_forall in Hall. by apply Hall, key_lt_ne in Hy.
Qed.

Lemma key_sum_unique (l : list CREC) r :
  NoDup (map key l) -> r ∈ l -> key_sum (key r) l = val r.
Proof.
  induction l as [|x l IH]; intros Hnd Hr; [by apply elem_of_nil in Hr|].
  cbn [map] in Hnd. apply NoDup_cons in Hnd as [Hx Hnd].
  rewrite key_sum_cons. apply elem_of_cons in Hr as [->|Hr].
  - rewrite decide_True by done. rewrite key_sum_absent; [ring|].
    intros Hin. by apply Hx, list_elem_of_In.
  - rewrite decide_False.
    + rewrite IH by done. ring.
    + intros Heq. apply Hx. rewrite Heq. apply list_elem_of_In, in_map.
      by apply list_elem_of_In.
Qed.

Lemma in_keys_concat k (files : list (list CREC)) :
  In k (map key (concat files)) <-> exists f, f ∈ files /\ k ∈ map key f.
Proof.
  rewrite in_map_iff. split.
  - intros (r & <- & Hr). apply in_concat in Hr as (f & Hf & Hr).
    exists f. split; [by apply list_elem_of_In|]. by apply list_elem_of_In, in_map.
  - intros (f & Hf & Hk). apply list_elem_of_In, in_map_iff in Hk as (r & <- & Hr).
    exists r. split; [done|]. apply in_concat. exists f. split; [|done].
    by apply list_elem_of_In.
Qed.


Lemma run_ok_sorted (f : list CREC) : run_ok f -> Sorted key_le f.
Proof.
  intros [_ Hs]. apply StronglySorted_Sorted.
  induction Hs as [|x l Hs IH Hall]; constructor; [done|].
  eapply Forall_impl; [exact Hall|]. apply key_lt_le.
Qed.

(** C10: if every run file holds at least one record and is strictly
    increasing in the key, [merge_files] terminates and writes exactly
    one record for each key present in a run, with the sum of the
    values that the runs hold for this key. *)
Theorem merge_files_sums (new0 : CRECID) (files : list (list CREC)) :
  files <> [] ->
  Forall run_ok files ->
  exists out,
    merge_files new0 files = Some out
    /\ NoDup (map key out)
    /\ (forall k, k ∈ map key out <-> exists f, f ∈ files /\ k ∈ map key f)
    /\ (forall r, r ∈ out -> val r = key_sum (key r) (concat files)).
Proof.
  intros Hne Hok.
  assert (Hs : Forall (Sorted key_le) files).
  { eapply Forall_impl; [exact Hok|]. apply run_ok_sorted. }
  destruct (merge_files_spec new0 files Hne Hs) as (popped & Hrun & Hperm & Hps).
  rewrite effective_nonempty in Hperm
    by (eapply Forall_impl; [exact Hok|]; by intros f [? _]).
  exists (write_chunk popped). split; [done|].
  assert (Hnd : NoDup (map key (write_chunk popped)))
    by (by apply sorted_lt_NoDup, write_chunk_sorted).
  split; [done|]. split.
  - intros k. rewrite <- in_keys_concat. rewrite list_elem_of_In, write_chunk_keys.
    rewrite !in_map_iff. split; intros (r & Hk & Hr); exists r; (split; [done|]).
    + apply list_elem_of_In. rewrite <- Hperm. by apply list_elem_of_In.
    + apply list_elem_of_In. rewrite Hperm. by apply list_elem_of_In.
  - intros r Hr. rewrite <- (key_sum_perm _ _ _ Hperm), <- write_chunk_sum.
    symmetry. by apply key_sum_unique.
Qed.

(** The guarantee of C10 for two run files with a common key. *)
Lemma merge_files_sums_witness :
  let files := [[mkCREC 1 1 1%Qc; mkCREC 2 1 1%Qc]; [mkCREC 1 1 2%Qc; mkCREC 1 2 1%Qc]] in
  exists out,
    merge_files inhabitant files = Some out
    /\ NoDup (map key out)
    /\ (forall k, k ∈ map key out <-> exists f, f ∈ files /\ k ∈ map key f)
    /\ (forall r, r ∈ out -> val r = key_sum (key r) (concat files)).
Proof.
  apply merge_files_sums; [done|].
  repeat constructor; try done; by vm_compute.
Defined.

(** The values that [merge_files] writes add up to those of the
    effective runs: every empty run file adds the value of a stale
    record. *)
Lemma sum_val_perm (l1 l2 : list CREC) : l1 ≡ₚ l2 -> Props.sum_val l1 = Props.sum_val l2.
Proof.
  induction 1 as [|x l1 l2 _ IH|x y l|l1 l2 l3 _ IH1 _ IH2]; cbn [Props.sum_val foldr].
  - done.
  - fold (Props.sum_val l1). fold (Props.sum_val l2). by rewrite IH.
  - fold (Props.sum_val l). ring.
  - congruence.
Qed.

Lemma write_chunk_loop_weight (l : list CREC) :
  forall old, Props.sum_val (write_chunk_loop old l) = Props.sum_val (old :: l).
Proof.
  induction l as [|r l IH]; intros old; cbn [write_chunk_loop]; [done|].
  destruct (_ && _).
  - rewrite IH. cbn [Props.sum_val foldr val]. ring.
  - cbn [Props.sum_val foldr]. fold (Props.sum_val (write_chunk_loop r l)).
    rewrite IH. done.
Qed.

Lemma merge_files_weight (new0 : CRECID) (files : list (list CREC)) :
  files <> [] ->
  Forall (Sorted key_le) files ->
  exists out,
    merge_files new0 files = Some out
    /\ Props.sum_val out = Props.sum_val (concat (effective (crec new0) files)).
Proof.
  intros Hne Hs. destruct (merge_files_spec new0 files Hne Hs) as (popped & Hrun & Hperm & _).
  exists (write_chunk popped). split; [done|].
  rewrite <- (sum_val_perm _ _ Hperm).
  destruct popped as [|r l]; [done|]. apply write_chunk_loop_weight.
Qed.

(** Without the precondition the guarantee is lost: an empty run file
    makes the first record of the file before it count twice, and an
    empty first file puts the initial content of [new] into the
    output. *)
Lemma empty_run_counted_twice (new0 : CRECID) :
  option_map (map Props.triple) (merge_files new0 [[mkCREC 1 1 1%Qc]; []])
  = Some [(1, 1, (2 # 1)%Q)]
  /\ option_map (map Props.triple)
       (merge_files (mkCRECID (mkCREC 7 7 (Q2Qc 5)) 0) [[]; [mkCREC 1 1 1%Qc]])
     = Some [(1, 1, (1 # 1)%Q); (7, 7, (5 # 1)%Q)].
Proof. split; by vm_compute. Qed.

(** ** The accumulator as a whole *)

Import Cooccur MergeProps.

(** *** The loops over the input end *)

Lemma read_vocab_terminates `{Platform} (fuel : nat) :
  forall fid ht j,
    (length (buf fid) < fuel)%nat -> is_Some (read_vocab fuel fid ht j).
Proof.
  induction fuel as [|fuel IH]; intros fid ht j Hlen; [lia|].
  cbn [read_vocab].
  destruct (fscanf_s_lld MAX_STRING_LENGTH fid) as [[s|] fid'] eqn:Hf; [|done].
  apply fscanf_s_lld_progress in Hf. apply IH. lia.
Qed.

Lemma load_vocab_terminates `{Platform} (vocab_file : list byte) :
  is_Some (load_vocab vocab_file).
Proof. apply read_vocab_terminates. simpl. lia. Qed.

Lemma store_char_pos word i ch : (0 < (store_char word i ch).2)%nat.
Proof. unfold store_char. cbn [snd]. destruct (_ <=? _)%nat eqn:Hc; [|lia].
  apply Nat.leb_le in Hc. unfold MAX_STRING_LENGTH in Hc. lia. Qed.

(** [get_word] either sets the end-of-file indicator or consumes input. *)
Lemma get_word_loop_progress (s : list byte) :
  forall word i flag word' f',
    get_word_loop word i s = (flag, word', f') ->
    eof f' = true
    \/ ((length (buf f') <= length s)%nat
        /\ (i = 0%nat -> (length (buf f') < length s)%nat)).
Proof.
  induction s as [|b s IH]; intros word i flag word' f'; cbn [get_word_loop].
  - destruct (store_char word i EOF). intros [= _ _ <-]. by left.
  - destruct (int_of_byte b =? 13).
    { intros Hrun. apply IH in Hrun as [?|[? ?]]; [by left|right]. simpl. lia. }
    destruct (_ || _).
    + destruct (Nat.ltb_spec 0 i).
      * destruct (int_of_byte b =? 10); intros [= _ _ <-]; right; simpl; lia.
      * destruct (int_of_byte b =? 10).
        -- intros [= _ _ <-]. right. simpl. lia.
        -- intros Hrun. apply IH in Hrun as [?|[? ?]]; [by left|right]. simpl. lia.
    + pose proof (store_char_pos word i (int_of_byte b)) as Hpos.
      destruct (store_char word i (int_of_byte b)) as [word1 i1].
      intros Hrun. apply IH in Hrun as [?|[? ?]]; [by left|right]. simpl in *. lia.
Qed.

Lemma get_word_progress word fin flag word' fin' :
  get_word word fin = (flag, word', fin') ->
  eof fin' = true \/ (length (buf fin') < length (buf fin))%nat.
Proof.
  unfold get_word, feof. destruct (eof fin) eqn:He.
  - intros [= _ _ <-]. by left.
  - intros Hrun. apply get_word_loop_progress in Hrun as [?|[_ Hlt]]; [by left|right].
    by apply Hlt.
Qed.

(** *** The run files are sorted *)

#[local] Instance cmp_le_crec_trans : Transitive (cmp_le compare_crec).
Proof. exact key_le_trans. Qed.

#[local] Instance cmp_le_crec_total : Total (cmp_le compare_crec).
Proof. exact key_le_total. Qed.

Lemma StronglySorted_lt_le (l : list CREC) :
  StronglySorted key_lt l -> Sorted key_le l.
Proof.
  intros Hs. apply StronglySorted_Sorted.
  induction Hs as [|x l Hs IH Hall]; constructor; [done|].
  eapply Forall_impl; [exact Hall|]. apply key_lt_le.
Qed.

Lemma overflow_run_sorted (cr : list CREC) :
  StronglySorted key_lt (write_chunk (qsort compare_crec cr)).
Proof.
  apply write_chunk_sorted. unfold qsort.
  apply (StronglySorted_merge_sort (cmp_le compare_crec)).
Qed.

Lemma context_loop_frame `{Platform} cfg lookup (n : nat) :
  forall k w2 st,
    fin (context_loop cfg lookup n k w2 st) = fin st
    /\ runs (context_loop cfg lookup n k w2 st) = runs st.
Proof.
  induction n as [|n IH]; intros k w2 st; [done|].
  cbn [context_loop].
  match goal with
  | |- context [context_loop cfg lookup n ?k' ?w ?s] =>
      destruct (IH k' w s) as [Hf Hr]; rewrite Hf, Hr
  end.
  destruct (_ <? _); destruct (_ >? _); done.
Qed.

Lemma process_word_frame `{Platform} cfg lookup w2 st :
  fin (process_word cfg lookup w2 st) = fin st
  /\ runs (process_word cfg lookup w2 st) = runs st.
Proof. unfold process_word. cbn [fin runs]. apply context_loop_frame. Qed.

Lemma token_loop_spec `{Platform} cfg lookup (fuel : nat) :
  forall st,
    (length (buf (fin st)) < fuel)%nat ->
    Forall (Sorted key_le) (runs st) ->
    exists st',
      token_loop cfg lookup fuel st = Some st'
      /\ Forall (Sorted key_le) (runs st').
Proof.
  induction fuel as [|fuel IH]; intros st Hlen Hruns; [lia|].
  cbn [token_loop].
  set (st1 := if ind st >=? overflow_length cfg - window_size cfg then flush st else st).
  assert (Hfin1 : fin st1 = fin st) by (unfold st1; by destruct (_ >=? _)).
  assert (Hruns1 : Forall (Sorted key_le) (runs st1)).
  { unfold st1. destruct (_ >=? _); [|done]. cbn [flush runs].
    apply Forall_app. split; [done|]. repeat constructor.
    apply StronglySorted_lt_le, overflow_run_sorted. }
  destruct (get_word (str st1) (fin st1)) as [[flag str'] fin'] eqn:Hgw.
  apply get_word_progress in Hgw. rewrite Hfin1 in Hgw.
  cbn [fin str vocab_hash j cr cr_high history bigram_table runs].
  unfold feof. destruct (eof fin') eqn:Heof.
  { eexists. split; [reflexivity|]. done. }
  destruct Hgw as [?|Hlt]; [done|].
  destruct (flag =? 1).
  { apply IH; [cbn [fin]; lia|done]. }
  destruct (hashsearch (vocab_hash st1) (cstring str')) as [[htmp|] ht].
  - apply IH.
    + rewrite (proj1 (process_word_frame _ _ _ _)). cbn [fin]. lia.
    + by rewrite (proj2 (process_word_frame _ _ _ _)).
  - apply IH; [cbn [fin]; lia|done].
Qed.

Lemma corpus_pass_spec `{Platform} cfg ht lookup corpus :
  exists st,
    corpus_pass cfg ht lookup corpus = Some st
    /\ Forall (Sorted key_le) (runs (flush st)).
Proof.
  destruct (token_loop_spec cfg lookup (S (length corpus)) (initial_state cfg ht corpus))
    as (st & Hrun & Hs).
  - simpl. lia.
  - constructor.
  - exists st. split; [done|]. cbn [flush runs].
    apply Forall_app. split; [done|]. repeat constructor.
    apply StronglySorted_lt_le, overflow_run_sorted.
Qed.

(** *** File 0000 is sorted *)

Lemma flat_map_sorted {A B} (R : relation B) (Q : relation A) (f : A -> list B) l :
  StronglySorted Q l ->
  (forall x, In x l -> StronglySorted R (f x)) ->
  (forall x y a b, Q x y -> In a (f x) -> In b (f y) -> R a b) ->
  StronglySorted R (flat_map f l).
Proof.
  intros Hl Hrow Hcross. induction Hl as [|x l Hl IH Hall]; [constructor|].
  cbn [flat_map]. apply StronglySorted_app. split; [|split].
  - intros a b Ha Hb. apply list_elem_of_In, in_flat_map in Hb as (y & Hy & Hb).
    rewrite Forall_forall in Hall.
    apply (Hcross x y); [apply Hall; by apply list_elem_of_In|by apply list_elem_of_In|done].
  - apply Hrow. by left.
  - apply IH. intros y Hy. apply Hrow. by right.
Qed.

Lemma index_range_sorted (start n : nat) :
  StronglySorted Z.lt (map (fun k => Z.of_nat k + 1) (seq start n)).
Proof.
  revert start. induction n as [|n IH]; intros start; [constructor|].
  cbn [seq map]. constructor; [apply IH|].
  apply Forall_forall. intros z Hz.
  apply list_elem_of_In, in_map_iff in Hz as (k & <- & Hk). apply in_seq in Hk. lia.
Qed.

Lemma dump_row_in lookup t x r : In r (dump_row lookup t x) -> word1 r = x.
Proof.
  unfold dump_row. intros (y & _ & Hr)%in_flat_map.
  destruct (Qc_eq_bool _ _); [done|]. by destruct Hr as [<-|[]].
Qed.

Lemma dump_row_sorted lookup t x : StronglySorted key_lt (dump_row lookup t x).
Proof.
  unfold dump_row. apply (flat_map_sorted key_lt Z.lt).
  - apply index_range_sorted.
  - intros y _. destruct (Qc_eq_bool _ _); repeat constructor.
  - intros y y' a b Hlt Ha Hb.
    destruct (Qc_eq_bool _ _); [done|]. destruct (Qc_eq_bool _ _); [done|].
    destruct Ha as [<-|[]]. destruct Hb as [<-|[]].
    apply key_lt_iff. cbn. lia.
Qed.

Lemma dump_table_sorted lookup t vocab_size :
  StronglySorted key_lt (dump_table lookup t vocab_size).
Proof.
  unfold dump_table. apply (flat_map_sorted key_lt Z.lt).
  - apply index_range_sorted.
  - intros x _. apply dump_row_sorted.
  - intros x x' a b Hlt Ha%dump_row_in Hb%dump_row_in. apply key_lt_iff. lia.
Qed.



(** ** The accumulator on small inputs *)

Import Cooccur Props Examples.

(** C3 on the code: with window 2 and symmetric context on the corpus
    "a b a c" / "b a", and table sizes under which every pair is dense,
    the overflow file 0001 is empty and the first record comes out with
    twice its value: (1,1,2.0) instead of (1,1,1.0).  When the last
    line has no newline behind it, its last token is dropped as well
    and (1,2) and (2,1) come out with 2.0. *)
Lemma scenario_a_default_sizes (plat : Platform) (new0 : CRECID) :
  stdout_triples (get_cooccurrence (default_config 2 1) new0 vocab_abc corpus_abac_ba)
  = Some [(1, 1, (2 # 1)%Q); (1, 2, (3 # 1)%Q); (1, 3, (1 # 1)%Q); (2, 1, (3 # 1)%Q);
          (2, 3, (1 # 2)%Q); (3, 1, (1 # 1)%Q); (3, 2, (1 # 2)%Q)]
  /\ stdout_triples
       (get_cooccurrence (default_config 2 1) new0 vocab_abc
          (removelast corpus_abac_ba))
     = Some [(1, 1, (2 # 1)%Q); (1, 2, (2 # 1)%Q); (1, 3, (1 # 1)%Q); (2, 1, (2 # 1)%Q);
             (2, 3, (1 # 2)%Q); (3, 1, (1 # 1)%Q); (3, 2, (1 # 2)%Q)].
Proof. destruct plat as [[]]; split; by vm_compute. Qed.

(** With sizes that leave records in both the table and the last
    overflow file, the output is the one of the scenario. *)
Lemma scenario_a_mixed_sizes (plat : Platform) (new0 : CRECID) :
  stdout_triples (get_cooccurrence (mkConfig 4 100 2 1) new0 vocab_abc corpus_abac_ba)
  = Some [(1, 1, (1 # 1)%Q); (1, 2, (3 # 1)%Q); (1, 3, (1 # 1)%Q); (2, 1, (3 # 1)%Q);
          (2, 3, (1 # 2)%Q); (3, 1, (1 # 1)%Q); (3, 2, (1 # 2)%Q)].
Proof. destruct plat as [[]]; by vm_compute. Qed.

(** C1 on the code: on the same input the values written add up to 11,
    the weights of the pairs to 10. *)
Lemma weight_not_conserved (plat : Platform) (new0 : CRECID) :
  stdout_weight (get_cooccurrence (default_config 2 1) new0 vocab_abc corpus_abac_ba)
  = Some (11 # 1)%Q
  /\ spec_lines [[x61]; [x62]; [x63]] corpus_abac_ba = [[1; 2; 1; 3]; [2; 1]; []]
  /\ this (spec_total_weight 2 1 (spec_lines [[x61]; [x62]; [x63]] corpus_abac_ba))
     = (10 # 1)%Q.
Proof. destruct plat as [[]]; by vm_compute. Qed.

(** C4 on the code: with window 3, symmetric context and an overflow
    buffer of 4 + 1 records, the fourth token of "a a a a" stores six
    records, the last at index 5. *)
Lemma overflow_buffer_overrun (plat : Platform) :
  let cfg := mkConfig 1 4 3 1 in
  cr_high_water cfg vocab_a corpus_aaaa = Some 5
  /\ overflow_length cfg + 1 <= 5.
Proof. destruct plat as [[]]; by vm_compute. Qed.

(** ** The shuffler *)

Import Cooccur Shuffle ShuffleProps.

Lemma rand_long_loop_range (n limit : Z) (len : nat) :
  forall draws j rest,
    (length draws <= len)%nat ->
    0 < n ->
    rand_long_loop n limit draws = Some (j, rest) ->
    - n < j < n.
Proof.
  induction len as [|len IH]; intros draws j rest Hlen Hn Hrun.
  - destruct draws; [done|simpl in Hlen; lia].
  - destruct draws as [|a [|b draws]]; try done.
    cbn [rand_long_loop] in Hrun.
    destruct (_ >=? _).
    + eapply (IH draws); [simpl in Hlen; lia|done|done].
    + injection Hrun as <- _. pose proof (Z.rem_bound_abs ((RAND_MAX + 1) * a + b) n). lia.
Qed.

Lemma rand_long_range (n : Z) draws j rest :
  0 < n -> rand_long n draws = Some (j, rest) -> (Z.to_nat j < Z.to_nat n)%nat.
Proof.
  intros Hn Hrun.
  pose proof (rand_long_loop_range n _ (length draws) draws j rest (le_n _) Hn Hrun).
  lia.
Qed.

(** [shuffle_loop i] only touches the indices [0 .. i]. *)
Lemma shuffle_loop_above (i : nat) :
  forall array draws array' draws' k,
    shuffle_loop i array draws = Some (array', draws') ->
    (i < k)%nat \/ i = 0%nat -> array' !! k = array !! k.
Proof.
  induction i as [|i IH]; intros array draws array' draws' k Hrun Hk.
  - by injection Hrun as <- _.
  - cbn [shuffle_loop] in Hrun.
    destruct (rand_long _ draws) as [[j draws1]|] eqn:Hj; [|done].
    apply rand_long_range in Hj; [|lia].
    rewrite (IH _ _ _ _ k Hrun) by lia.
    rewrite !list_lookup_insert_ne by lia. done.
Qed.


(** C7 on the code: the first phase calls [shuffle(array, i - 2)], so a
    buffer of three records is written as it was read, whatever the
    random source; the claim has index 2 swapped with a random index
    of [0, 2]. *)
Lemma chunk_of_three_not_shuffled (r1 r2 r3 : CREC) (draws : list Z) :
  chunk_files 10 [r1; r2; r3] draws = Some ([[r1; r2; r3]], draws).
Proof. reflexivity. Qed.

(** In a buffer of any size the last two records stay in place. *)
Lemma chunk_last_two_in_place (array : list CREC) (draws : list Z) array' draws' :
  shuffle array (Z.of_nat (length array) - 2) draws = Some (array', draws') ->
  drop (length array - 2) array' = drop (length array - 2) array.
Proof.
  unfold shuffle. intros Hrun.
  apply list_eq. intros k. rewrite !lookup_drop.
  eapply shuffle_loop_above; [exact Hrun|]. lia.
Qed.

(** C6 on the code: five records with a buffer of two records make
    three temporary files; the second phase reads [2 / 3 = 0] records
    from each and writes nothing. *)
Lemma records_lost (r1 r2 r3 r4 r5 : CREC) (draws : list Z) :
  shuffle_by_chunks 2 [r1; r2; r3; r4; r5] draws = Some [].
Proof. reflexivity. Qed.

(** *** What the shuffler keeps *)

Lemma shuffle_loop_perm (i : nat) :
  forall array draws array' draws',
    (i < length array)%nat \/ i = 0%nat ->
    shuffle_loop i array draws = Some (array', draws') ->
    array' ≡ₚ array.
Proof.
  induction i as [|i IH]; intros array draws array' draws' Hi Hrun.
  - by injection Hrun as <- _.
  - cbn [shuffle_loop] in Hrun.
    destruct (rand_long _ draws) as [[j draws1]|] eqn:Hj; [|done].
    apply rand_long_range in Hj; [|lia].
    apply IH in Hrun; [|rewrite !length_insert; lia].
    rewrite Hrun. apply Permutation_insert_swap.
    + apply list_lookup_lookup_total_lt. lia.
    + apply list_lookup_lookup_total_lt. lia.
Qed.








(** ** Strings, hashing and the hash table of the accumulator *)

Import Cooccur VocabProps.

(** *** [scmp] and [bitwisehash] *)

Lemma cstring_nul_head (c : byte) (r : list byte) :
  cstring (c :: r) = if decide (c = x00) then [] else c :: cstring r.
Proof.
  cbn [cstring]. destruct (Byte.eqb c x00) eqn:Hc.
  - apply Byte.byte_dec_bl in Hc. by rewrite decide_True.
  - apply Byte.eqb_false in Hc. by rewrite decide_False.
Qed.

Lemma scmp_cstring `{Platform} (s1 s2 : list byte) :
  scmp s1 s2 = 0 <-> cstring s1 = cstring s2.
Proof.
  revert s2. induction s1 as [|c1 r1 IH]; intros [|c2 r2].
  - cbn [scmp deref hd]. split; [done|lia].
  - cbn [scmp deref hd]. rewrite cstring_nul_head, char_val_nul.
    case_decide as Hc.
    + subst. rewrite char_val_nul. done.
    + split; [|done]. intros Hz. exfalso. apply Hc, char_val_zero. lia.
  - cbn [scmp deref hd]. rewrite cstring_nul_head, char_val_nul.
    case_decide as Hc.
    + subst. rewrite char_val_nul. done.
    + split; [|done]. intros Hz. exfalso. apply Hc, char_val_zero. lia.
  - cbn [scmp]. rewrite !cstring_nul_head.
    destruct (Byte.eqb c1 x00) eqn:H1; cbn [negb andb].
    + apply Byte.byte_dec_bl in H1 as ->. rewrite decide_True by done.
      rewrite char_val_nul. case_decide as Hc.
      * subst. rewrite char_val_nul. done.
      * split; [|done]. intros Hz. exfalso. apply Hc, char_val_zero. lia.
    + apply Byte.eqb_false in H1. rewrite (decide_False (P := c1 = x00)) by done.
      destruct (Byte.eqb c1 c2) eqn:H12.
      * apply Byte.byte_dec_bl in H12 as <-. rewrite decide_False by done.
        rewrite IH. split; [by intros ->|by intros [= ->]].
      * apply Byte.eqb_false in H12. split.
        -- intros Hz. exfalso. apply H12, char_val_inj. lia.
        -- case_decide; [done|]. by intros [= ?].
Qed.

(** X1: [scmp] returns 0 exactly when its arguments hold the same C
    string, that is, agree up to their first NUL. *)
Theorem scmp_zero_iff_same_string `{Platform} (s1 s2 : list byte) :
  scmp s1 s2 = 0 <-> cstring s1 = cstring s2.
Proof. apply scmp_cstring. Qed.

Lemma bitwisehash_bounds `{Platform} (w : list byte) (tsize seed : Z) :
  0 < tsize -> 0 <= bitwisehash w tsize seed < tsize.
Proof.
  intros Ht. unfold bitwisehash.
  assert (0 <= Z.land (bitwisehash_loop w (u32 seed)) 0x7fffffff)
    by (apply Z.land_nonneg; right; lia).
  apply Z.rem_bound_pos; lia.
Qed.

(** X2: for a positive table size the value of [bitwisehash] is an
    index into the table, whatever the string and the seed. *)
Theorem bitwisehash_in_table `{Platform} (w : list byte) (tsize seed : Z) :
  0 < tsize -> 0 <= bitwisehash w tsize seed < tsize.
Proof. apply bitwisehash_bounds. Qed.

Lemma bitwisehash_in_table_witness :
  0 <= bitwisehash (plat := x86_64) [x74; x68; x65] TSIZE SEED < TSIZE.
Proof. apply (bitwisehash_in_table (H := x86_64) [x74; x68; x65] TSIZE SEED). unfold TSIZE. lia. Defined.

(** *** Chains *)

(** The first record of a chain whose word is [w]. *)
Lemma chain_find_app `{Platform} (pre : list HASHREC) r post (w : list byte) :
  Forall (fun p => scmp (word p) w <> 0) pre ->
  scmp (word r) w = 0 ->
  chain_find (pre ++ r :: post) w = Some (pre, r, post).
Proof.
  induction 1 as [|p pre Hp _ IH]; intros Hr; cbn [app chain_find].
  - apply Z.eqb_eq in Hr. by rewrite Hr.
  - apply Z.eqb_neq in Hp. rewrite Hp. by rewrite IH.
Qed.

Lemma chain_find_inv `{Platform} (chain : list HASHREC) (w : list byte) pre r post :
  chain_find chain w = Some (pre, r, post) ->
  chain = pre ++ r :: post
  /\ Forall (fun p => scmp (word p) w <> 0) pre
  /\ scmp (word r) w = 0.
Proof.
  revert pre. induction chain as [|x chain IH]; intros pre; cbn [chain_find]; [done|].
  destruct (Z.eqb_spec (scmp (word x) w) 0) as [Hx|Hx].
  - intros [= <- <- <-]. done.
  - destruct (chain_find chain w) as [[[pre' r'] post']|] eqn:Hf; [|done].
    intros [= <- <- <-]. destruct (IH pre' eq_refl) as (-> & Hpre & Hr).
    split; [done|]. split; [by constructor|done].
Qed.

Lemma chain_find_None `{Platform} (chain : list HASHREC) (w : list byte) :
  chain_find chain w = None <-> Forall (fun p => scmp (word p) w <> 0) chain.
Proof.
  induction chain as [|x chain IH]; cbn [chain_find]; [by split|].
  destruct (Z.eqb_spec (scmp (word x) w) 0) as [Hx|Hx].
  - split; [done|]. by intros [? _]%Forall_cons.
  - destruct (chain_find chain w) as [[[pre' r'] post']|] eqn:Hf.
    + split; [done|]. intros [_ Hc]%Forall_cons. by apply IH in Hc.
    + split; [|done]. intros _. constructor; [done|]. by apply IH.
Qed.

(** The record that a walk along [chain] stops at. *)
Lemma chain_find_skip `{Platform} (l1 : list HASHREC) x l2 (w : list byte) :
  scmp (word x) w <> 0 ->
  (fun t => t.1.2) <$> chain_find (l1 ++ x :: l2) w
  = (fun t => t.1.2) <$> chain_find (l1 ++ l2) w.
Proof.
  intros Hx. induction l1 as [|p l1 IH]; cbn [app chain_find].
  - apply Z.eqb_neq in Hx. rewrite Hx.
    by destruct (chain_find l2 w) as [[[??]?]|].
  - destruct (scmp (word p) w =? 0); [done|].
    destruct (chain_find (l1 ++ x :: l2) w) as [[[??]?]|],
             (chain_find (l1 ++ l2) w) as [[[??]?]|]; cbn in *; congruence.
Qed.

Lemma chain_find_front `{Platform} (pre : list HASHREC) r post (w w' : list byte) :
  Forall (fun p => scmp (word p) w <> 0) pre ->
  scmp (word r) w = 0 ->
  (fun t => t.1.2) <$> chain_find (r :: pre ++ post) w'
  = (fun t => t.1.2) <$> chain_find (pre ++ r :: post) w'.
Proof.
  intros Hpre Hr.
  destruct (Z.eq_dec (scmp (word r) w') 0) as [Hr'|Hr'].
  - rewrite (chain_find_app pre r post w'); [|  |done].
    + cbn [chain_find]. apply Z.eqb_eq in Hr'. by rewrite Hr'.
    + eapply Forall_impl; [exact Hpre|]. intros p Hp Hp'. apply Hp.
      apply scmp_cstring. apply scmp_cstring in Hp', Hr, Hr'. congruence.
  - pose proof (chain_find_skip [] r (pre ++ post) w' Hr') as E.
    cbn [app] in E. rewrite E.
    by rewrite (chain_find_skip pre r post w' Hr').
Qed.

Lemma hashsearch_fst `{Platform} (ht : table) (w : list byte) :
  (hashsearch ht w).1
  = (fun t => t.1.2) <$> chain_find (ht (bitwisehash w TSIZE SEED)) w.
Proof.
  unfold hashsearch.
  destruct (chain_find _ w) as [[[[|p pre] r] post]|]; done.
Qed.

Lemma set_bucket_same (ht : table) hval chain : set_bucket ht hval chain hval = chain.
Proof. unfold set_bucket. by rewrite Z.eqb_refl. Qed.

Lemma set_bucket_other (ht : table) hval chain i :
  i <> hval -> set_bucket ht hval chain i = ht i.
Proof. unfold set_bucket. intros Hi. apply Z.eqb_neq in Hi. by rewrite Hi. Qed.

Lemma hashsearch_stable `{Platform} (ht : table) (w w' : list byte) :
  (hashsearch (hashsearch ht w).2 w').1 = (hashsearch ht w').1.
Proof.
  rewrite !hashsearch_fst. unfold hashsearch.
  destruct (chain_find _ w) as [[[pre r] post]|] eqn:Hf; [|done].
  apply chain_find_inv in Hf as (Hchain & Hpre & Hr).
  destruct pre as [|p pre]; [done|]. cbn [snd].
  destruct (Z.eq_dec (bitwisehash w' TSIZE SEED) (bitwisehash w TSIZE SEED)) as [Hb|Hb].
  - rewrite Hb, set_bucket_same, Hchain. by apply (chain_find_front _ _ _ w).
  - by rewrite set_bucket_other.
Qed.

Lemma hashsearch_found `{Platform} (ht : table) (w : list byte) r :
  (hashsearch ht w).1 = Some r ->
  cstring (word r) = cstring w /\ r ∈ ht (bitwisehash w TSIZE SEED).
Proof.
  rewrite hashsearch_fst.
  destruct (chain_find _ w) as [[[pre r'] post]|] eqn:Hf; [|done].
  intros [= <-]. apply chain_find_inv in Hf as (Hchain & _ & Hr).
  split; [by apply scmp_cstring|]. rewrite Hchain. apply elem_of_app. right. left.
Qed.

(** X3: a search that finds its string takes the record found, the
    first one of its chain that holds the string, out of its place and
    puts it in front of the chain; the other records of the chain keep
    their order and the other chains are untouched.  A search that
    finds nothing leaves the table as it is.  Either way a later
    search returns what it would have returned before. *)
Theorem hashsearch_move_to_front `{Platform} (ht : table) (w : list byte) :
  let hval := bitwisehash w TSIZE SEED in
  match hashsearch ht w with
  | (Some r, ht') =>
      cstring (word r) = cstring w
      /\ (exists pre post,
            ht hval = pre ++ r :: post
            /\ Forall (fun p => cstring (word p) <> cstring w) pre
            /\ ht' hval = r :: pre ++ post)
      /\ (forall b, b <> hval -> ht' b = ht b)
  | (None, ht') =>
      Forall (fun p => cstring (word p) <> cstring w) (ht hval)
      /\ (forall b, ht' b = ht b)
  end
  /\ (forall w', (hashsearch (hashsearch ht w).2 w').1 = (hashsearch ht w').1).
Proof.
  intros hval. split; [|intros w'; apply hashsearch_stable].
  unfold hashsearch. fold hval.
  destruct (chain_find (ht hval) w) as [[[pre r] post]|] eqn:Hf.
  - apply chain_find_inv in Hf as (Hchain & Hpre & Hr).
    assert (Hpre' : Forall (fun p => cstring (word p) <> cstring w) pre).
    { eapply Forall_impl; [exact Hpre|]. intros p Hp Hc. by apply Hp, scmp_cstring. }
    apply scmp_cstring in Hr.
    destruct pre as [|p pre].
    + split; [done|]. split; [|done]. by exists [], post.
    + split; [done|]. split.
      * exists (p :: pre), post. by rewrite set_bucket_same.
      * intros b Hb. by apply set_bucket_other.
  - apply chain_find_None in Hf. split; [|done].
    eapply Forall_impl; [exact Hf|]. intros p Hp Hc. by apply Hp, scmp_cstring.
Qed.

Lemma hashinsert_lookup `{Platform} (ht : table) (w : list byte) (id : Z) :
  (hashsearch (hashinsert ht w id) w).1
  = match (hashsearch ht w).1 with
    | Some r => Some r
    | None => Some (mkHASHREC w id)
    end
  /\ forall w', cstring w' <> cstring w ->
       (hashsearch (hashinsert ht w id) w').1 = (hashsearch ht w').1.
Proof.
  split.
  - rewrite !hashsearch_fst. unfold hashinsert.
    destruct (chain_find (ht (bitwisehash w TSIZE SEED)) w) as [[[pre r] post]|] eqn:Hf.
    + by rewrite Hf.
    + rewrite set_bucket_same. apply chain_find_None in Hf.
      rewrite (chain_find_app _ (mkHASHREC w id) [] w); [done|done|].
      by apply scmp_cstring.
  - intros w' Hw'. rewrite !hashsearch_fst. unfold hashinsert.
    destruct (chain_find (ht (bitwisehash w TSIZE SEED)) w) as [[[pre r] post]|] eqn:Hf; [done|].
    destruct (Z.eq_dec (bitwisehash w' TSIZE SEED) (bitwisehash w TSIZE SEED)) as [Hb|Hb].
    + rewrite Hb, set_bucket_same.
      rewrite (chain_find_skip _ (mkHASHREC w id) [] w'); [by rewrite app_nil_r|].
      cbn [word]. intros Hs. apply Hw'. symmetry. by apply scmp_cstring.
    + by rewrite set_bucket_other.
Qed.

(** X4: after [hashinsert(ht, w, id)] a search for [w] finds the
    record that was there before, if any, and otherwise a new record
    with the number [id]; searches for other strings are not
    affected.  A second insertion of a word thus keeps its first
    number. *)
Theorem hashinsert_then_hashsearch `{Platform} (ht : table) (w : list byte) (id : Z) :
  (hashsearch (hashinsert ht w id) w).1
  = match (hashsearch ht w).1 with
    | Some r => Some r
    | None => Some (mkHASHREC w id)
    end
  /\ forall w', cstring w' <> cstring w ->
       (hashsearch (hashinsert ht w id) w').1 = (hashsearch ht w').1.
Proof. apply hashinsert_lookup. Qed.

(** ** [get_word] *)

Import Cooccur TokenProps.

Lemma int_of_byte_eqb (b c : byte) :
  (int_of_byte b =? int_of_byte c) = bool_decide (b = c).
Proof.
  case_bool_decide as Hbc.
  - subst. apply Z.eqb_refl.
  - apply Z.eqb_neq. intros Heq. by apply int_of_byte_inj in Heq.
Qed.

Lemma get_word_tests (b : byte) :
  (int_of_byte b =? 13) = bool_decide (b = x0d)
  /\ ((int_of_byte b =? 32) || (int_of_byte b =? 9) || (int_of_byte b =? 10))
     = bool_decide (delimiter b).
Proof.
  change 13 with (int_of_byte x0d). change 32 with (int_of_byte x20).
  change 9 with (int_of_byte x09). change 10 with (int_of_byte x0a).
  rewrite !int_of_byte_eqb. split; [done|]. unfold delimiter.
  destruct (bool_decide_reflect (b = x20)), (bool_decide_reflect (b = x09)),
    (bool_decide_reflect (b = x0a)); cbn; symmetry;
    (apply bool_decide_eq_true_2 + apply bool_decide_eq_false_2); tauto.
Qed.

Lemma drop_cr_cons (b : byte) (t : list byte) :
  drop_cr (b :: t) = if decide (b = x0d) then drop_cr t else b :: drop_cr t.
Proof.
  unfold drop_cr. case_decide.
  - rewrite filter_cons_False; [done|]. by intros ?.
  - by rewrite filter_cons_True.
Qed.

(** The loop on a word, its delimiter and what follows: [pre] are the
    bytes of the word stored already. *)
Lemma get_word_loop_run (d : byte) rest :
  delimiter d ->
  forall t pre word,
    length word = 1001%nat ->
    Forall (fun b => ~ delimiter b) t ->
    (0 < length pre + length (drop_cr t))%nat ->
    take (length pre `min` 998) word = take 998 pre ->
    exists word',
      get_word_loop word (length pre `min` 998) (t ++ d :: rest)
      = (0, word',
         {| buf := if decide (d = x0a) then d :: rest else rest; eof := false |})
      /\ cstring word' = cstring (take 998 (pre ++ drop_cr t)).
Proof.
  intros Hd. induction t as [|b t IH]; intros pre word Hlen Ht Hpos Hpre.
  - rewrite app_nil_r. cbn [length drop_cr] in Hpos.
    assert ((0 <? length pre `min` 998)%nat = true) as Hi
      by (apply Nat.ltb_lt; unfold drop_cr in Hpos; cbn in Hpos; lia).
    destruct Hd as [->|[->| ->]]; cbn [app get_word_loop];
      change (int_of_byte x20) with 32; change (int_of_byte x09) with 9;
      change (int_of_byte x0a) with 10; cbn [Z.eqb Pos.eqb orb];
      rewrite Hi; eexists; (split; [reflexivity|]);
      (rewrite cstring_terminated by lia); by rewrite Hpre.
  - apply Forall_cons in Ht as [Hb Ht].
    destruct (get_word_tests b) as [H13 Hdl].
    cbn [app get_word_loop]. rewrite H13, Hdl, (bool_decide_eq_false_2 _ Hb).
    rewrite drop_cr_cons in Hpos |- *.
    destruct (decide (b = x0d)) as [Hcr|Hcr].
    { rewrite bool_decide_eq_true_2 by done. by apply IH. }
    rewrite bool_decide_eq_false_2 by done.
    unfold store_char. rewrite byte_of_int_of_byte.
    assert (Hstep :
      (if (MAX_STRING_LENGTH - 1 <=? S (length pre `min` 998))%nat
       then (S (length pre `min` 998) - 1)%nat else S (length pre `min` 998))
      = (length (pre ++ [b]) `min` 998)%nat).
    { rewrite length_app. cbn [length]. change (MAX_STRING_LENGTH - 1)%nat with 999%nat.
      destruct (Nat.leb_spec 999 (S (length pre `min` 998))); lia. }
    rewrite Hstep.
    destruct (IH (pre ++ [b]) (<[(length pre `min` 998)%nat := b]> word)) as (word' & Hrun & Hstr).
    + by rewrite length_insert.
    + done.
    + rewrite length_app. cbn [length]. lia.
    + rewrite length_app. cbn [length].
      destruct (decide (length pre < 998)%nat) as [Hlt|Hge].
      * rewrite !Nat.min_l by lia. rewrite Nat.min_l in Hpre by lia.
        rewrite (take_ge (pre ++ [b])) by (rewrite length_app; cbn [length]; lia).
        rewrite (take_ge pre) in Hpre by lia.
        replace (length pre + 1)%nat with (S (length pre)) by lia.
        erewrite take_S_r.
        -- rewrite take_insert_ge by lia. by rewrite Hpre.
        -- apply list_lookup_insert_eq. lia.
      * rewrite !Nat.min_r by lia. rewrite Nat.min_r in Hpre by lia.
        rewrite take_insert_ge by lia. rewrite Hpre.
        by rewrite take_app_le by lia.
    + exists word'. split; [exact Hrun|]. by rewrite Hstr, <- app_assoc.
Qed.

(** Spaces, tabs and carriage returns in front of a word are passed
    over. *)
Lemma get_word_loop_blanks (sp s : list byte) (word : list byte) :
  Forall blank sp ->
  get_word_loop word 0 (sp ++ s) = get_word_loop word 0 s.
Proof.
  induction 1 as [|b sp Hb _ IH]; [done|].
  cbn [app get_word_loop]. destruct (get_word_tests b) as [-> ->].
  destruct Hb as [->|[->| ->]]; cbn; exact IH.
Qed.

(** X5: on input that holds, after spaces, tabs and carriage returns,
    a word followed by a space, tab or newline, [get_word] returns 0
    and leaves in the buffer the word without its carriage returns,
    cut to 998 bytes; the stream is left behind the delimiter, except
    that a newline is put back. *)
Theorem get_word_reads_word (sp t rest word0 : list byte) (d : byte) :
  Forall blank sp ->
  Forall (fun b => ~ delimiter b) t ->
  drop_cr t <> [] ->
  delimiter d ->
  length word0 = S MAX_STRING_LENGTH ->
  exists word,
    get_word word0 (fopen (sp ++ t ++ d :: rest))
    = (0, word, {| buf := if decide (d = x0a) then d :: rest else rest;
                   eof := false |})
    /\ cstring word = cstring (take 998 (drop_cr t)).
Proof.
  intros Hsp Ht Hne Hd Hlen. unfold get_word, fopen, feof. cbn [eof buf].
  rewrite get_word_loop_blanks by done.
  apply (get_word_loop_run d rest Hd t [] word0); try done.
  cbn [length]. destruct (drop_cr t); [done|cbn [length]; lia].
Qed.

Lemma get_word_reads_word_witness :
  exists word,
    get_word (replicate 1001 x00)
      (fopen ([x20; x0d] ++ [x61; x0d; x62] ++ x0a :: [x63]))
    = (0, word, {| buf := if decide (x0a = x0a) then x0a :: [x63] else [x63];
                   eof := false |})
    /\ cstring word = cstring (take 998 (drop_cr [x61; x0d; x62])).
Proof.
  apply (get_word_reads_word [x20; x0d] [x61; x0d; x62] [x63] (replicate 1001 x00) x0a).
  - forall_list ltac:(unfold blank; auto).
  - forall_list ltac:(unfold delimiter; intros [|[|]]; discriminate).
  - vm_compute. discriminate.
  - unfold delimiter. auto.
  - reflexivity.
Defined.

(** X6: when a newline comes first, after spaces, tabs and carriage
    returns only, [get_word] consumes it, returns 1 and leaves the
    buffer as it was. *)
Theorem get_word_at_newline (sp rest word0 : list byte) :
  Forall blank sp ->
  get_word word0 (fopen (sp ++ x0a :: rest))
  = (1, word0, {| buf := rest; eof := false |}).
Proof.
  intros Hsp. unfold get_word, fopen, feof. cbn [eof buf].
  by rewrite get_word_loop_blanks by done.
Qed.

Lemma get_word_at_newline_witness :
  get_word [x00] (fopen ([x20; x09; x0d] ++ x0a :: [x61]))
  = (1, [x00], {| buf := [x61]; eof := false |}).
Proof.
  apply (get_word_at_newline [x20; x09; x0d] [x61] [x00]).
  forall_list ltac:(unfold blank; auto).
Defined.

(** The loop on input without a delimiter behind the word: end of
    file is reached. *)
Lemma get_word_loop_eof (t : list byte) :
  forall word i,
    Forall (fun b => ~ delimiter b) t ->
    exists word', get_word_loop word i t = (0, word', {| buf := []; eof := true |}).
Proof.
  induction t as [|b t IH]; intros word i Ht.
  - cbn [get_word_loop]. destruct (store_char word i EOF). by eexists.
  - apply Forall_cons in Ht as [Hb Ht].
    cbn [get_word_loop]. destruct (get_word_tests b) as [-> ->].
    rewrite (bool_decide_eq_false_2 _ Hb).
    case_bool_decide; [by apply IH|].
    destruct (store_char word i (int_of_byte b)). by apply IH.
Qed.

(** ** Run files, the priority queue and the merge *)

Import Cooccur Props MergeProps.

(** *** [write_chunk] *)

Lemma write_chunk_loop_length (l : list CREC) :
  forall old, (length (write_chunk_loop old l) <= S (length l))%nat.
Proof.
  induction l as [|r l IH]; intros old; cbn [write_chunk_loop length]; [lia|].
  destruct (_ && _); [specialize (IH (mkCREC (word1 old) (word2 old) (val old + val r)))
                     |specialize (IH r); cbn [length]]; lia.
Qed.

Lemma write_chunk_loop_head (l : list CREC) :
  forall old, exists r rest, write_chunk_loop old l = r :: rest /\ key r = key old.
Proof.
  induction l as [|x l IH]; intros old; cbn [write_chunk_loop]; [by eexists _, _|].
  destruct (_ && _); [|by eexists _, _].
  destruct (IH (mkCREC (word1 old) (word2 old) (val old + val x))) as (r & rest & -> & Hr).
  by eexists _, _.
Qed.

Lemma write_chunk_loop_adjacent (l : list CREC) :
  forall old (i : nat) a b,
    write_chunk_loop old l !! i = Some a ->
    write_chunk_loop old l !! S i = Some b ->
    key a <> key b.
Proof.
  induction l as [|x l IH]; intros old i a b; cbn [write_chunk_loop]; [done|].
  destruct (_ && _) eqn:Hk; [apply IH|].
  destruct i as [|i]; [|apply IH].
  cbn. intros [= <-] Hb.
  destruct (write_chunk_loop_head l x) as (r & rest & Hr & Hkey).
  rewrite Hr in Hb. injection Hb as <-. rewrite Hkey.
  unfold key. intros [= H1 H2]. rewrite H1, H2, !Z.eqb_refl in Hk. done.
Qed.

Lemma CREC_eta (r : CREC) : mkCREC (word1 r) (word2 r) (val r) = r.
Proof. by destruct r. Qed.

(** The loop of [write_chunk] with [old] in hand: the records [ext]
    that it adds to [old], and the runs behind them. *)
Lemma write_chunk_loop_groups (l : list CREC) :
  forall old, exists ext groups,
    l = ext ++ concat groups
    /\ Forall (fun r => key r = key old) ext
    /\ Forall same_pair groups
    /\ (forall h, groups !! 0%nat = Some h -> key old <> key (hd inhabitant h))
    /\ runs_differ groups
    /\ write_chunk_loop old l
       = mkCREC (word1 old) (word2 old) (val old + sum_val ext) :: map joined groups.
Proof.
  induction l as [|x l IH]; intros old; cbn [write_chunk_loop].
  - exists [], []. split; [done|]. split; [done|]. split; [done|].
    split; [done|]. split; [done|].
    cbn [sum_val foldr map]. replace (val old + 0)%Qc with (val old) by ring.
    by rewrite CREC_eta.
  - destruct ((word1 x =? word1 old) && (word2 x =? word2 old)) eqn:Hk.
    + apply andb_prop in Hk as [H1%Z.eqb_eq H2%Z.eqb_eq].
      destruct (IH (mkCREC (word1 old) (word2 old) (val old + val x)))
        as (ext & groups & -> & Hext & Hg & Hfirst & Hdiff & ->).
      exists (x :: ext), groups.
      split; [done|]. split; [|split; [done|split; [done|split; [done|]]]].
      * constructor; [unfold key; congruence|done].
      * cbn [word1 word2 val sum_val foldr]. fold (sum_val ext).
        by replace (val old + val x + sum_val ext)%Qc
          with (val old + (val x + sum_val ext))%Qc by ring.
    + destruct (IH x) as (ext & groups & -> & Hext & Hg & Hfirst & Hdiff & ->).
      exists [], ((x :: ext) :: groups).
      split; [done|]. split; [done|]. split; [|split; [|split]].
      * constructor; [|done]. split; [done|]. constructor; [done|exact Hext].
      * intros h [= <-]. cbn [hd]. unfold key. intros [= H1 H2].
        rewrite H1, H2, !Z.eqb_refl in Hk. done.
      * intros [|i] g h; cbn.
        -- intros [= <-] Hh. cbn [hd]. by apply Hfirst.
        -- apply Hdiff.
      * cbn [sum_val foldr map]. replace (val old + 0)%Qc with (val old) by ring.
        by rewrite CREC_eta.
Qed.

(** X7: [write_chunk] joins neighbours with the same pair of words
    and does nothing else.  The chunk is cut into runs of neighbours
    with one pair of words, as long as they can be (the runs next to
    each other differ in their pairs); what is written is one record
    for each run, in the order of the runs, with the pair of the run
    and the sum of its values.  Records of one pair that are not
    neighbours are not joined.  For every pair the values written thus
    add up to the values given. *)
Theorem write_chunk_accumulates (cr : list CREC) :
  (exists groups,
     cr = concat groups
     /\ Forall same_pair groups
     /\ runs_differ groups
     /\ write_chunk cr = map joined groups)
  /\ (forall k, key_sum k (write_chunk cr) = key_sum k cr)
  /\ sum_val (write_chunk cr) = sum_val cr.
Proof.
  split; [|split; [intros k; apply write_chunk_sum|]].
  - destruct cr as [|r l]; [by exists []|]. cbn [write_chunk].
    destruct (write_chunk_loop_groups l r) as (ext & groups & -> & Hext & Hg & Hfirst & Hdiff & ->).
    exists ((r :: ext) :: groups). split; [done|]. split; [|split; [|done]].
    + constructor; [|done]. split; [done|]. constructor; [done|exact Hext].
    + intros [|i] g h; cbn.
      * intros [= <-] Hh. cbn [hd]. by apply Hfirst.
      * apply Hdiff.
  - destruct cr as [|r l]; [done|]. apply write_chunk_loop_weight.
Qed.

(** X8: an overflow file, written by [write_chunk] from the buffer
    sorted with [compare_crec], is strictly increasing in the pair of
    words, holds exactly the pairs of the buffer, and the value of a
    record is the sum of the values of its pair in the buffer. *)
Theorem overflow_file_sorted_sums (cr : list CREC) :
  let file := write_chunk (qsort compare_crec cr) in
  StronglySorted key_lt file
  /\ (forall k, k ∈ map key file <-> k ∈ map key cr)
  /\ (forall r, r ∈ file -> val r = key_sum (key r) cr).
Proof.
  intros file. assert (Hs : StronglySorted key_lt file) by apply overflow_run_sorted.
  assert (Hp : qsort compare_crec cr ≡ₚ cr) by apply merge_sort_Permutation.
  split; [done|]. split.
  - intros k. rewrite !list_elem_of_In. unfold file. rewrite write_chunk_keys.
    rewrite <- !list_elem_of_In. by rewrite Hp.
  - intros r Hr. rewrite <- (key_sum_perm _ _ _ Hp), <- write_chunk_sum.
    symmetry. apply key_sum_unique; [|done]. by apply sorted_lt_NoDup.
Qed.

(** *** The priority queue *)

(** X9: [insert(pq, new, size)] on a heap in [pq[0 .. size-2]] makes
    [pq[0 .. size-1]] a heap that holds the entries of before and
    [new]. *)
Theorem insert_keeps_heap (pq : list CRECID) (new : CRECID) (size : nat) :
  (1 <= size <= length pq)%nat ->
  heap_ordered pq (size - 1) ->
  heap_ordered (insert pq new size) size
  /\ take size (insert pq new size) ≡ₚ new :: take (size - 1) pq
  /\ length (insert pq new size) = length pq.
Proof. apply insert_spec. Qed.

Lemma insert_keeps_heap_witness :
  let a := mkCRECID (mkCREC 2 1 1) 0 in
  let b := mkCRECID (mkCREC 1 5 1) 1 in
  heap_ordered (insert [a; a] b 2) 2
  /\ take 2 (insert [a; a] b 2) ≡ₚ b :: take (2 - 1) [a; a]
  /\ length (insert [a; a] b 2) = length [a; a].
Proof.
  intros a b. apply (insert_keeps_heap [a; a] b 2).
  - cbn [length]. lia.
  - intros p c [-> | ->] Hc; cbn in Hc; lia.
Defined.

(** X10: [delete(pq, size)] on a heap in [pq[0 .. size-1]] takes out
    the entry at the root, which is not above any other entry in the
    order of [compare_crecid], and leaves a heap of the other entries
    in [pq[0 .. size-2]]. *)
Theorem delete_removes_minimum (pq : list CRECID) (size : nat) :
  (1 <= size <= length pq)%nat ->
  heap_ordered pq size ->
  heap_ordered (delete pq size) (size - 1)
  /\ pq !!! 0%nat :: take (size - 1) (delete pq size) ≡ₚ take size pq
  /\ (forall e, e ∈ take size pq -> compare_crecid (pq !!! 0%nat) e <= 0).
Proof.
  intros Hsize Hheap. destruct (delete_spec pq size Hsize Hheap) as (Hh & Hp & _).
  split; [done|]. split; [done|].
  intros e (k & Hk & _ & <-)%elem_of_take_lookup.
  by apply (heap_root_minimal pq size).
Qed.

Lemma delete_removes_minimum_witness :
  let a := mkCRECID (mkCREC 1 5 1) 0 in
  let b := mkCRECID (mkCREC 2 1 1) 1 in
  let pq := [a; b; b] in
  heap_ordered (delete pq 3) (3 - 1)
  /\ pq !!! 0%nat :: take (3 - 1) (delete pq 3) ≡ₚ take 3 pq
  /\ (forall e, e ∈ take 3 pq -> compare_crecid (pq !!! 0%nat) e <= 0).
Proof.
  intros a b pq. apply (delete_removes_minimum pq 3).
  - cbn [length pq]. lia.
  - intros p c Hpc Hc. assert (p = 0%nat) as -> by (destruct Hpc; lia).
    destruct Hpc as [-> | ->]; by vm_compute.
Defined.

(** *** [merge_files] on run files that may be empty *)

Lemma compare_crec_int_no_wrap (a b : CREC) :
  no_wrap a b -> compare_crec_int a b = compare_crec a b.
Proof.
  intros [H1 H2]. unfold compare_crec_int, compare_crec, int_wrap, int_value in *.
  replace ((word1 a - word1 b + 2 ^ 31) mod 2 ^ 32 - 2 ^ 31) with (word1 a - word1 b).
  - replace ((word2 a - word2 b + 2 ^ 31) mod 2 ^ 32 - 2 ^ 31) with (word2 a - word2 b);
      [done|].
    rewrite Z.mod_small by lia. lia.
  - rewrite Z.mod_small by lia. lia.
Qed.

(** X11: on sorted run files, empty ones included, whose records and
    the initial content of [new] are such that no comparison
    overflows, [merge_files] ends and writes a strictly increasing
    sequence; since the first read from a file is not checked, an
    empty file adds one more copy of the record read last (the first
    record of the nearest non-empty file before it, or the initial
    content of [new]), so that the values written for a pair add up to
    those of the files and of these copies. *)
Theorem merge_files_with_empty_runs (new0 : CRECID) (files : list (list CREC)) :
  files <> [] ->
  Forall (Sorted key_le) files ->
  no_wrap_all (crec new0 :: concat files) ->
  exists out,
    merge_files new0 files = Some out
    /\ StronglySorted key_lt out
    /\ (forall k, key_sum k out = key_sum k (concat (effective (crec new0) files)))
    /\ sum_val out = sum_val (concat (effective (crec new0) files)).
Proof.
  intros Hne Hs _.
  destruct (merge_files_spec new0 files Hne Hs) as (popped & Hrun & Hperm & Hps).
  exists (write_chunk popped). split; [done|]. split; [by apply write_chunk_sorted|].
  split.
  - intros k. by rewrite write_chunk_sum, (key_sum_perm _ _ _ Hperm).
  - rewrite <- (sum_val_perm _ _ Hperm).
    destruct popped as [|r l]; [done|]. apply write_chunk_loop_weight.
Qed.

Lemma merge_files_with_empty_runs_witness :
  let files := [[mkCREC 1 1 1%Qc; mkCREC 1 2 1%Qc]; []] in
  exists out,
    merge_files inhabitant files = Some out
    /\ StronglySorted key_lt out
    /\ (forall k, key_sum k out = key_sum k (concat (effective (crec inhabitant) files)))
    /\ sum_val out = sum_val (concat (effective (crec inhabitant) files)).
Proof.
  intros files. apply (merge_files_with_empty_runs inhabitant files).
  - done.
  - forall_list ltac:(repeat constructor; by vm_compute).
  - forall_list ltac:(forall_list ltac:(by vm_compute)).
Defined.

(** ** The pass over the corpus *)

Import Cooccur Props MergeProps TokenProps PassProps Examples.

(** *** A proof rule for the loop over the tokens *)

Section TokenLoopRule.
Context `{Platform} (cfg : Config) (lookup : list Z) (P : state -> Prop).

Hypothesis P_flush : forall st, P st -> P (flush st).
Hypothesis P_read : forall st fin' str',
  P st ->
  P (mkState fin' str' (vocab_hash st) (j st) (cr st) (cr_high st) (history st)
       (bigram_table st) (runs st)).
Hypothesis P_newline : forall st,
  P st ->
  P (mkState (fin st) (str st) (vocab_hash st) 0 (cr st) (cr_high st) (history st)
       (bigram_table st) (runs st)).
Hypothesis P_word : forall st w htmp ht,
  P st ->
  ind st < overflow_length cfg - window_size cfg \/ cr st = [] ->
  hashsearch (vocab_hash st) w = (Some htmp, ht) ->
  P (process_word cfg lookup (hid htmp)
       (mkState (fin st) (str st) ht (j st) (cr st) (cr_high st) (history st)
          (bigram_table st) (runs st))).

Lemma token_loop_rule (fuel : nat) :
  forall st,
    (length (buf (fin st)) < fuel)%nat -> P st ->
    exists st', token_loop cfg lookup fuel st = Some st' /\ P st'.
Proof.
  induction fuel as [|fuel IH]; intros st Hlen HP; [lia|].
  cbn [token_loop].
  set (st1 := if ind st >=? overflow_length cfg - window_size cfg then flush st else st).
  assert (Hfin1 : fin st1 = fin st) by (unfold st1; by destruct (_ >=? _)).
  assert (HP1 : P st1) by (unfold st1; destruct (_ >=? _); auto).
  assert (Hroom : ind st1 < overflow_length cfg - window_size cfg \/ cr st1 = []).
  { unfold st1. destruct (Z.geb_spec (ind st) (overflow_length cfg - window_size cfg));
      [by right|left; lia]. }
  destruct (get_word (str st1) (fin st1)) as [[flag str'] fin'] eqn:Hgw.
  apply get_word_progress in Hgw. rewrite Hfin1 in Hgw.
  cbn [fin str vocab_hash j cr cr_high history bigram_table runs].
  unfold feof. destruct (eof fin') eqn:Heof.
  { eexists. split; [reflexivity|]. by apply P_read. }
  destruct Hgw as [?|Hlt]; [done|].
  pose proof (P_read st1 fin' str' HP1) as HP2.
  destruct (flag =? 1).
  { apply IH; [cbn [fin]; lia|]. by apply P_newline in HP2. }
  destruct (hashsearch (vocab_hash st1) (cstring str')) as [[htmp|] ht] eqn:Hs.
  - apply IH.
    + rewrite (proj1 (process_word_frame _ _ _ _)). cbn [fin]. lia.
    + by apply (P_word _ (cstring str') htmp ht) in HP2.
  - apply IH; [cbn [fin]; lia|done].
Qed.

End TokenLoopRule.

(** *** Stores into the overflow buffer *)

Lemma context_loop_high `{Platform} cfg lookup (n : nat) :
  forall k w2 st,
    ind (context_loop cfg lookup n k w2 st)
    <= ind st + (if symmetric cfg >? 0 then 2 else 1) * Z.of_nat n
    /\ cr_high (context_loop cfg lookup n k w2 st)
       <= Z.max (cr_high st)
            (ind st + (if symmetric cfg >? 0 then 2 else 1) * Z.of_nat n - 1).
Proof.
  induction n as [|n IH]; intros k w2 st; [cbn [context_loop]; lia|].
  cbn [context_loop].
  match goal with
  | |- context [context_loop cfg lookup n ?k' ?w ?s] =>
      destruct (IH k' w s) as [Hi Hh]; revert Hi Hh;
      generalize (context_loop cfg lookup n k' w s)
  end.
  intros st' Hi Hh. unfold ind in *. revert Hi Hh.
  destruct (_ <? _); destruct (symmetric cfg >? 0);
    repeat first [ progress cbn [set_bigram store_cr cr cr_high length]
                 | progress unfold ind
                 | rewrite length_app ];
    lia.
Qed.

(** X12: the index of a store into the overflow buffer is below
    [max(0, overflow_length - window_size - 1)] plus [window_size]
    (twice that with symmetric context).  With left context only,
    every store is hence within the [overflow_length + 1] records
    allocated as soon as [window_size <= overflow_length + 1]. *)
Theorem overflow_stores_bounded `{Platform} (cfg : Config)
    (vocab_file corpus : list byte) :
  1 <= window_size cfg ->
  exists h,
    cr_high_water cfg vocab_file corpus = Some h
    /\ h < Z.max 0 (overflow_length cfg - window_size cfg - 1)
           + (if symmetric cfg >? 0 then 2 else 1) * window_size cfg
    /\ (symmetric cfg <= 0 -> window_size cfg <= overflow_length cfg + 1 ->
        h <= overflow_length cfg).
Proof.
  intros HW. unfold cr_high_water.
  destruct (load_vocab_terminates vocab_file) as [[ht vocab_size] ->].
  set (lookup := build_lookup vocab_size (max_product cfg)).
  set (bound := Z.max 0 (overflow_length cfg - window_size cfg - 1)
                + (if symmetric cfg >? 0 then 2 else 1) * window_size cfg).
  destruct (token_loop_rule cfg lookup (fun st => cr_high st < bound))
    with (fuel := S (length corpus)) (st := initial_state cfg ht corpus)
    as (st & Hrun & Hst); try done.
  - intros st w htmp ht' Hst Hroom _. unfold process_word. cbn [cr_high j].
    match goal with
    | |- context [context_loop cfg lookup ?n ?k ?w ?s] =>
        pose proof (proj2 (context_loop_high cfg lookup n k w s)) as Hh;
        assert (Hn : Z.of_nat n <= window_size cfg)
          by (destruct (Z.gtb_spec (j st) (window_size cfg)); lia);
        revert Hh Hn; generalize (context_loop cfg lookup n k w s); generalize n
    end.
    intros n st' Hh Hn. unfold ind in Hh, Hroom. cbn [cr_high cr] in Hh.
    assert (Z.of_nat (length (cr st))
            <= Z.max 0 (overflow_length cfg - window_size cfg - 1)).
    { destruct Hroom as [?| ->]; [lia|cbn [length]; lia]. }
    unfold bound in *. destruct (symmetric cfg >? 0); nia.
  - cbn [initial_state fin fopen buf]. lia.
  - cbn [initial_state cr_high]. unfold bound. destruct (symmetric cfg >? 0); lia.
  - unfold corpus_pass. fold lookup. rewrite Hrun. exists (cr_high st).
    split; [done|]. split; [done|].
    intros Hsym Hwin. unfold bound in Hst.
    destruct (Z.gtb_spec (symmetric cfg) 0); lia.
Qed.

Lemma overflow_stores_bounded_witness :
  let cfg := mkConfig 1 4 3 0 in
  exists h,
    cr_high_water (H := x86_64) cfg vocab_a corpus_aaaa = Some h
    /\ h < Z.max 0 (overflow_length cfg - window_size cfg - 1)
           + (if symmetric cfg >? 0 then 2 else 1) * window_size cfg
    /\ (symmetric cfg <= 0 -> window_size cfg <= overflow_length cfg + 1 ->
        h <= overflow_length cfg).
Proof.
  intros cfg. apply (overflow_stores_bounded (H := x86_64) cfg vocab_a corpus_aaaa).
  cbn. lia.
Defined.

(** *** An empty corpus *)

Lemma read_vocab_count `{Platform} (fuel : nat) :
  forall fid ht j ht' j', read_vocab fuel fid ht j = Some (ht', j') -> j <= j'.
Proof.
  induction fuel as [|fuel IH]; intros fid ht j ht' j'; cbn [read_vocab]; [done|].
  destruct (fscanf_s_lld MAX_STRING_LENGTH fid) as [[s|] fid'].
  - intros Hrun%IH. lia.
  - intros [= _ <-]. lia.
Qed.

Lemma lookup_total_pos (V M : Z) :
  0 <= V -> 0 <= M -> 1 <= build_lookup V M !!! Z.to_nat V.
Proof.
  intros HV HM. rewrite build_row_offset by lia.
  apply (row_offset_mono V M 0 (Z.to_nat V)); lia.
Qed.

Lemma flat_map_nil {A B} (f : A -> list B) (l : list A) :
  (forall x, f x = []) -> flat_map f l = [].
Proof. intros Hf. induction l as [|x l IH]; [done|]. cbn [flat_map]. by rewrite Hf, IH. Qed.

Lemma dump_table_zero (lookup : list Z) (vocab_size : Z) :
  dump_table lookup (fun _ => 0%Qc) vocab_size = [].
Proof.
  unfold dump_table. apply flat_map_nil. intros x.
  unfold dump_row. by apply flat_map_nil.
Qed.

Lemma perm_two_copies {A} (c : A) (l : list A) : l ≡ₚ [c; c] -> l = [c; c].
Proof.
  intros Hp. pose proof (Permutation_length Hp) as Hlen.
  destruct l as [|a [|b [|? ?]]]; try done.
  assert (a ∈ [c; c]) as Ha by (rewrite <- Hp; left).
  assert (b ∈ [c; c]) as Hb by (rewrite <- Hp; right; left).
  rewrite !elem_of_cons, elem_of_nil in Ha. rewrite !elem_of_cons, elem_of_nil in Hb.
  destruct Ha as [->|[->|[]]], Hb as [->|[->|[]]]; done.
Qed.

(** X13: on an empty corpus both run files are empty, and the output
    is not empty: it is one record with the words of the local [new]
    of [merge_files], which was never assigned, and twice its
    value. *)
Theorem empty_corpus_writes_a_record `{Platform} (cfg : Config) (new0 : CRECID)
    (vocab_file : list byte) :
  0 <= max_product cfg ->
  window_size cfg < overflow_length cfg ->
  get_cooccurrence cfg new0 vocab_file []
  = Done [mkCREC (word1 (crec new0)) (word2 (crec new0))
            (val (crec new0) + val (crec new0))].
Proof.
  intros HM HW. unfold get_cooccurrence.
  destruct (load_vocab_terminates vocab_file) as [[ht vocab_size] Hload].
  rewrite Hload. apply read_vocab_count in Hload.
  pose proof (lookup_total_pos vocab_size (max_product cfg) Hload HM) as Hpos.
  destruct (Z.ltb_spec (build_lookup vocab_size (max_product cfg) !!! Z.to_nat vocab_size) 0);
    [lia|].
  unfold corpus_pass. cbn [length token_loop].
  assert (Hno : (ind (initial_state cfg ht []) >=? overflow_length cfg - window_size cfg)
                = false).
  { unfold ind. cbn [initial_state cr length].
    rewrite Z.geb_leb. apply Z.leb_gt. lia. }
  rewrite Hno. unfold get_word. cbn [initial_state fin str fopen feof eof buf].
  destruct (get_word_loop_eof [] (replicate (S MAX_STRING_LENGTH) x00) 0)
    as (word' & ->); [constructor|].
  cbn [fin eof vocab_hash j cr cr_high history bigram_table runs feof].
  unfold run_files. cbn [flush runs bigram_table cr app].
  rewrite dump_table_zero. cbn [initial_state runs cr app].
  destruct (merge_files_spec new0 [[]; write_chunk (qsort compare_crec [])])
    as (popped & -> & Hperm & _); [done|repeat constructor|].
  change (write_chunk (qsort compare_crec [])) with (@nil CREC) in Hperm.
  cbn [effective concat app] in Hperm. apply perm_two_copies in Hperm as ->.
  cbn [write_chunk write_chunk_loop]. by rewrite !Z.eqb_refl.
Qed.

Lemma empty_corpus_writes_a_record_witness :
  get_cooccurrence (plat := x86_64) (default_config 15 1) inhabitant vocab_abc []
  = Done [mkCREC (word1 (crec inhabitant)) (word2 (crec inhabitant))
            (val (crec inhabitant) + val (crec inhabitant))].
Proof.
  apply (empty_corpus_writes_a_record (H := x86_64) (default_config 15 1) inhabitant vocab_abc);
    cbn; lia.
Defined.

(** *** What follows the last delimiter *)

Lemma get_word_loop_extend (t : list byte) :
  Forall (fun b => ~ delimiter b) t ->
  forall s word i flag word' f',
    get_word_loop word i s = (flag, word', f') ->
    if eof f'
    then exists word'', get_word_loop word i (s ++ t)
                        = (0, word'', {| buf := []; eof := true |})
    else get_word_loop word i (s ++ t)
         = (flag, word', {| buf := buf f' ++ t; eof := false |}).
Proof.
  intros Ht. induction s as [|b s IH]; intros word i flag word' f'.
  - cbn [get_word_loop app]. destruct (store_char word i EOF). intros [= _ _ <-].
    cbn [eof]. by apply get_word_loop_eof.
  - cbn [get_word_loop app].
    destruct (int_of_byte b =? 13); [apply IH|].
    destruct (_ || _).
    + destruct (0 <? i)%nat.
      * destruct (int_of_byte b =? 10); by intros [= <- <- <-].
      * destruct (int_of_byte b =? 10); [by intros [= <- <- <-]|apply IH].
    + destruct (store_char word i (int_of_byte b)). apply IH.
Qed.

Lemma context_loop_with_fin `{Platform} cfg lookup f (n : nat) :
  forall k w2 st,
    context_loop cfg lookup n k w2 (with_fin f st)
    = with_fin f (context_loop cfg lookup n k w2 st).
Proof.
  induction n as [|n IH]; intros k w2 st; [done|].
  cbn [context_loop]. rewrite <- IH. f_equal.
  cbn [with_fin history j max_product bigram_table].
  destruct (_ <? _); destruct (_ >? _); reflexivity.
Qed.

Lemma process_word_with_fin `{Platform} cfg lookup f w2 st :
  process_word cfg lookup w2 (with_fin f st)
  = with_fin f (process_word cfg lookup w2 st).
Proof.
  unfold process_word. cbn [with_fin j]. rewrite context_loop_with_fin. reflexivity.
Qed.

(** The loop on a corpus and on the corpus with bytes appended that
    hold no delimiter. *)
Lemma token_loop_extend `{Platform} cfg lookup (t : list byte) :
  Forall (fun b => ~ delimiter b) t ->
  forall (fuel1 fuel2 : nat) st st',
    eof (fin st) = false ->
    (length (buf (fin st)) + length t < fuel2)%nat ->
    token_loop cfg lookup fuel1 st = Some st' ->
    exists st2,
      token_loop cfg lookup fuel2
        (with_fin {| buf := buf (fin st) ++ t; eof := false |} st) = Some st2
      /\ same_data st' st2.
Proof.
  intros Ht. induction fuel1 as [|fuel1 IH]; intros fuel2 st st' Heof Hlen; [done|].
  destruct fuel2 as [|fuel2]; [lia|].
  cbn [token_loop].
  change (ind (with_fin {| buf := buf (fin st) ++ t; eof := false |} st)) with (ind st).
  set (st1 := if ind st >=? overflow_length cfg - window_size cfg then flush st else st).
  assert (Hfin1 : fin st1 = fin st) by (unfold st1; by destruct (_ >=? _)).
  assert (Hst1 :
    (if ind st >=? overflow_length cfg - window_size cfg
     then flush (with_fin {| buf := buf (fin st) ++ t; eof := false |} st)
     else with_fin {| buf := buf (fin st) ++ t; eof := false |} st)
    = with_fin {| buf := buf (fin st) ++ t; eof := false |} st1)
    by (unfold st1; by destruct (_ >=? _)).
  rewrite Hst1. clearbody st1. clear Hst1.
  cbn [with_fin str fin vocab_hash j cr cr_high history bigram_table runs].
  destruct (get_word (str st1) (fin st1)) as [[flag str'] fin'] eqn:Hgw.
  pose proof (get_word_progress _ _ _ _ _ Hgw) as Hprog. rewrite Hfin1 in Hprog.
  revert Hgw. unfold get_word, feof. rewrite Hfin1, Heof. cbn [eof buf].
  intros Hgw. apply (get_word_loop_extend t Ht) in Hgw.
  cbn [fin str vocab_hash j cr cr_high history bigram_table runs].
  destruct (eof fin') eqn:Heof'.
  { destruct Hgw as (word'' & ->). cbn [eof]. intros [= <-].
    eexists. split; [reflexivity|]. by repeat split. }
  rewrite Hgw. cbn [eof]. destruct Hprog as [?|Hlt]; [done|].
  assert (Hfin' : fin' = {| buf := buf fin'; eof := false |})
    by (destruct fin'; cbn in *; congruence).
  destruct (flag =? 1).
  { intros Hrun.
    apply (IH fuel2) in Hrun; [|by rewrite Hfin' |cbn [fin]; lia].
    exact Hrun. }
  destruct (hashsearch (vocab_hash st1) (cstring str')) as [[htmp|] ht].
  - intros Hrun.
    apply (IH fuel2) in Hrun.
    + rewrite (proj1 (process_word_frame _ _ _ _)) in Hrun. cbn [fin] in Hrun.
      rewrite <- process_word_with_fin in Hrun. exact Hrun.
    + rewrite (proj1 (process_word_frame _ _ _ _)). by rewrite Hfin'.
    + rewrite (proj1 (process_word_frame _ _ _ _)). cbn [fin]. lia.
  - intros Hrun.
    apply (IH fuel2) in Hrun; [|by rewrite Hfin' |cbn [fin]; lia].
    exact Hrun.
Qed.

(** X14: bytes behind the last space, tab or newline of the corpus
    are not counted: with or without them the output is the same.  A
    last word that no delimiter follows is thus lost. *)
Theorem trailing_bytes_ignored `{Platform} (cfg : Config) (new0 : CRECID)
    (vocab_file corpus t : list byte) :
  Forall (fun b => ~ delimiter b) t ->
  get_cooccurrence cfg new0 vocab_file (corpus ++ t)
  = get_cooccurrence cfg new0 vocab_file corpus.
Proof.
  intros Ht. unfold get_cooccurrence.
  destruct (load_vocab vocab_file) as [[ht vocab_size]|]; [|done].
  destruct (_ <? 0); [done|].
  set (lookup := build_lookup vocab_size (max_product cfg)).
  destruct (corpus_pass_spec cfg ht lookup corpus) as (st & Hrun & _).
  rewrite Hrun. unfold corpus_pass in *.
  apply (token_loop_extend cfg lookup t Ht _ (S (length (corpus ++ t)))) in Hrun
    as (st2 & Hrun2 & Hsame); [|done|].
  - change (with_fin _ (initial_state cfg ht corpus))
      with (initial_state cfg ht (corpus ++ t)) in Hrun2.
    rewrite Hrun2. destruct Hsame as (_ & _ & Hcr & _ & _ & Hbt & Hruns).
    unfold run_files. cbn [flush runs]. by rewrite Hcr, Hbt, Hruns.
  - cbn [initial_state fin fopen buf]. rewrite length_app. lia.
Qed.

Lemma trailing_bytes_ignored_witness :
  get_cooccurrence (plat := x86_64) (mkConfig 4 100 2 1) inhabitant vocab_abc
    (corpus_abac_ba ++ [x63; x0d])
  = get_cooccurrence (plat := x86_64) (mkConfig 4 100 2 1) inhabitant vocab_abc
      corpus_abac_ba.
Proof.
  apply (trailing_bytes_ignored (H := x86_64) (mkConfig 4 100 2 1) inhabitant vocab_abc
           corpus_abac_ba [x63; x0d]).
  forall_list ltac:(unfold delimiter; intros [|[|]]; discriminate).
Defined.

(** ** The pairs counted by the pass over the corpus *)

Import Cooccur Props MergeProps PassProps PairProps.

(** *** Sums over the records of a pair *)

Lemma key_sum_app k (l1 l2 : list CREC) :
  key_sum k (l1 ++ l2) = (key_sum k l1 + key_sum k l2)%Qc.
Proof.
  induction l1 as [|x l1 IH]; cbn [app].
  - unfold key_sum at 2. cbn. ring.
  - rewrite !key_sum_cons, IH. ring.
Qed.

Lemma key_sum_nil k : key_sum k [] = 0%Qc.
Proof. done. Qed.

Lemma key_sum_single k (r : CREC) :
  key_sum k [r] = if decide (key r = k) then val r else 0%Qc.
Proof. rewrite key_sum_cons, key_sum_nil. case_decide; ring. Qed.

Lemma key_sum_flat_map_single {A} `{EqDecision A} (f : A -> list CREC) (l : list A)
    (a0 : A) k :
  NoDup l ->
  (forall a, a ∈ l -> a <> a0 -> key_sum k (f a) = 0%Qc) ->
  key_sum k (flat_map f l) = if decide (a0 ∈ l) then key_sum k (f a0) else 0%Qc.
Proof.
  induction 1 as [|a l Ha Hnd IH]; intros Hf; cbn [flat_map].
  - rewrite decide_False by apply not_elem_of_nil. done.
  - rewrite key_sum_app, IH by (intros b Hb; apply Hf; by right).
    destruct (decide (a = a0)) as [->|Hne].
    + rewrite decide_False by done. rewrite decide_True by left. ring.
    + rewrite (Hf a) by (done || left).
      destruct (decide (a0 ∈ l)) as [Hin|Hout].
      * rewrite decide_True by (by right). ring.
      * rewrite decide_False; [ring|]. intros [?|?]%elem_of_cons; [by apply Hne|done].
Qed.

(** *** File 0000 *)

Lemma index_list_elem (n : nat) (z : Z) :
  z ∈ map (fun k => Z.of_nat k + 1) (seq 0 n) <-> 1 <= z <= Z.of_nat n.
Proof.
  rewrite list_elem_of_In, in_map_iff. split.
  - intros (k & <- & Hk%in_seq). lia.
  - intros Hz. exists (Z.to_nat (z - 1)). split; [lia|]. apply in_seq. lia.
Qed.

Lemma index_list_NoDup (n : nat) : NoDup (map (fun k => Z.of_nat k + 1) (seq 0 n)).
Proof.
  assert (Inj eq eq (fun k : nat => Z.of_nat k + 1)) by (intros a b ?; lia).
  change (NoDup ((fun k : nat => Z.of_nat k + 1) <$> seq 0 n)).
  apply NoDup_fmap_2; [done|apply NoDup_seq].
Qed.

Lemma dump_row_key_sum (lookup : list Z) (t : Z -> Qc) (x' x y : Z) :
  key_sum (x, y) (dump_row lookup t x')
  = if decide (x' = x
               /\ 1 <= y <= lookup !!! Z.to_nat x' - lookup !!! Z.to_nat (x' - 1))
    then t (cell lookup x y) else 0%Qc.
Proof.
  unfold dump_row.
  rewrite (key_sum_flat_map_single _ _ y).
  2: apply index_list_NoDup.
  2: { intros a _ Ha. cbv zeta. destruct (Qc_eq_bool _ _); [done|].
       rewrite key_sum_single, decide_False; [done|]. unfold key. cbn. congruence. }
  cbv zeta.
  destruct (decide (y ∈ _)) as [Hin|Hout].
  - apply index_list_elem in Hin.
    destruct (Qc_eq_bool _ 0) eqn:Hz.
    + apply Qc_eq_bool_correct in Hz. rewrite key_sum_nil.
      case_decide as Hc; [|done]. destruct Hc as [-> _]. unfold cell.
      replace (lookup !!! Z.to_nat (x - 1) + y - 2)
        with (lookup !!! Z.to_nat (x - 1) - 2 + y) by lia. by rewrite Hz.
    + rewrite key_sum_single. unfold key. cbn [word1 word2 val].
      destruct (decide (x' = x)) as [->|Hne].
      * rewrite decide_True by done. rewrite decide_True by (split; [done|lia]).
        unfold cell. f_equal. lia.
      * rewrite decide_False by congruence. rewrite decide_False; [done|]. by intros [? _].
  - rewrite decide_False; [done|]. intros [_ Hy]. apply Hout, index_list_elem. lia.
Qed.

Lemma dump_table_key_sum (lookup : list Z) (t : Z -> Qc) (vocab_size x y : Z) :
  key_sum (x, y) (dump_table lookup t vocab_size)
  = if decide (reserved lookup vocab_size x y) then t (cell lookup x y) else 0%Qc.
Proof.
  unfold dump_table.
  rewrite (key_sum_flat_map_single _ _ x).
  2: apply index_list_NoDup.
  2: { intros a _ Ha. rewrite dump_row_key_sum, decide_False; [done|]. by intros [? _]. }
  rewrite dump_row_key_sum. unfold reserved.
  destruct (decide (x ∈ _)) as [Hin|Hout].
  - apply index_list_elem in Hin.
    destruct (decide (1 <= y <= lookup !!! Z.to_nat x - lookup !!! Z.to_nat (x - 1))).
    + rewrite decide_True by done. rewrite decide_True; [done|]. split; [lia|done].
    + rewrite decide_False by (by intros [_ ?]). rewrite decide_False; [done|].
      by intros [_ ?].
  - rewrite decide_False; [done|]. intros [Hx _]. apply Hout, index_list_elem. lia.
Qed.

(** *** Cells of the table *)

Lemma row_diff (V M a : Z) :
  0 <= V -> 1 <= a <= V ->
  build_lookup V M !!! Z.to_nat a - build_lookup V M !!! Z.to_nat (a - 1)
  = row_cells V M a.
Proof.
  intros HV Ha. rewrite !build_row_offset by lia.
  replace (Z.to_nat a) with (S (Z.to_nat (a - 1))) at 1 by lia.
  cbn [row_offset]. replace (Z.of_nat (S (Z.to_nat (a - 1)))) with a by lia. lia.
Qed.

Lemma cell_inj (V M w1 w2 w1' w2' : Z) :
  0 <= V -> 0 <= M ->
  reserved (build_lookup V M) V w1 w2 -> reserved (build_lookup V M) V w1' w2' ->
  cell (build_lookup V M) w1 w2 = cell (build_lookup V M) w1' w2' ->
  w1 = w1' /\ w2 = w2'.
Proof.
  intros HV HM H1 H2 Heq.
  pose proof (reserved_range V M w1 w2 HV HM H1) as Hr1.
  pose proof (reserved_range V M w1' w2' HV HM H2) as Hr2.
  destruct H1 as [Ha1 _], H2 as [Ha2 _].
  assert (w1 = w1') as <-.
  { destruct (Z.lt_trichotomy w1 w1') as [Hlt|[?|Hlt]]; [|done|].
    - pose proof (row_offset_mono V M (Z.to_nat w1) (Z.to_nat (w1' - 1))
                    ltac:(lia) ltac:(lia) ltac:(lia)). lia.
    - pose proof (row_offset_mono V M (Z.to_nat w1') (Z.to_nat (w1 - 1))
                    ltac:(lia) ltac:(lia) ltac:(lia)). lia. }
  split; [done|]. unfold cell in Heq. lia.
Qed.

(** A pair that the loop stores in the table owns a cell, and so does
    its mirror image. *)
Lemma dense_reserved (V M w1 w2 : Z) :
  0 <= M -> 1 <= w1 <= V -> 1 <= w2 <= V ->
  (w1 <? Z.quot M w2) = true ->
  reserved (build_lookup V M) V w1 w2 /\ reserved (build_lookup V M) V w2 w1.
Proof.
  intros HM H1 H2 Hd%Z.ltb_lt.
  rewrite Z.quot_div_nonneg in Hd by lia.
  assert (Hq : w2 * (M / w2) <= M) by (apply Z.mul_div_le; lia).
  assert (Hprod : w1 * w2 <= M) by nia.
  assert (w2 <= M / w1) by (apply Z.div_le_lower_bound; lia).
  unfold reserved. rewrite !row_diff by lia. unfold row_cells.
  rewrite !Z.quot_div_nonneg by lia.
  split; (split; [done|]); destruct (_ <? _); lia.
Qed.

Lemma add_cell_key_sum (V M : Z) (t : Z -> Qc) (w1 w2 : Z) (w : Qc) k :
  0 <= V -> 0 <= M ->
  reserved (build_lookup V M) V w1 w2 ->
  key_sum k (dump_table (build_lookup V M)
               (add_cell t (cell (build_lookup V M) w1 w2) w) V)
  = (key_sum k (dump_table (build_lookup V M) t V) + key_sum k [mkCREC w1 w2 w])%Qc.
Proof.
  intros HV HM Hres. destruct k as [x y].
  rewrite !dump_table_key_sum, key_sum_single. unfold key, add_cell. cbn [word1 word2 val].
  destruct (decide (reserved (build_lookup V M) V x y)) as [Hxy|Hxy].
  - destruct (Z.eqb_spec (cell (build_lookup V M) x y) (cell (build_lookup V M) w1 w2))
      as [Heq|Hne].
    + apply cell_inj in Heq as [-> ->]; [|done..]. rewrite decide_True by done. ring.
    + rewrite decide_False; [ring|]. intros [= -> ->]. done.
  - rewrite decide_False; [ring|]. intros [= -> ->]. done.
Qed.

(** *** The ranks of the vocabulary *)

Lemma hashinsert_elem `{Platform} (ht : table) (w : list byte) (id : Z) b x :
  x ∈ hashinsert ht w id b -> x ∈ ht b \/ x = mkHASHREC w id.
Proof.
  unfold hashinsert. destruct (chain_find _ w); [by left|].
  unfold set_bucket. destruct (Z.eqb_spec b (bitwisehash w TSIZE SEED)) as [->|_];
    [|by left].
  intros [?|Hx]%elem_of_app; [by left|]. right. by apply list_elem_of_singleton in Hx.
Qed.

Lemma read_vocab_ranks `{Platform} (fuel : nat) :
  forall fid ht j ht' j',
    0 <= j -> ranks_in ht j ->
    read_vocab fuel fid ht j = Some (ht', j') -> ranks_in ht' j'.
Proof.
  induction fuel as [|fuel IH]; intros fid ht j ht' j' Hj Hin; cbn [read_vocab]; [done|].
  destruct (fscanf_s_lld MAX_STRING_LENGTH fid) as [[s|] fid'].
  - apply IH; [lia|]. intros b x [Hx| ->]%hashinsert_elem.
    + specialize (Hin b x Hx). lia.
    + cbn [hid]. lia.
  - by intros [= <- <-].
Qed.

Lemma load_vocab_ranks `{Platform} (vocab_file : list byte) ht V :
  load_vocab vocab_file = Some (ht, V) ->
  0 <= V /\ forall w r, rank ht w = Some r -> 1 <= r <= V.
Proof.
  intros Hload. split; [by apply read_vocab_count in Hload|].
  assert (ranks_in ht V) as Hin.
  { apply (read_vocab_ranks _ _ _ _ _ _ (Z.le_refl 0)) in Hload; [done|].
    by intros b x ?%elem_of_nil. }
  intros w r. unfold rank.
  destruct ((hashsearch ht w).1) as [x|] eqn:Hx; [|done].
  intros [= <-]. apply hashsearch_found in Hx as [_ Hx]. exact (Hin _ x Hx).
Qed.

(** *** The loop over the context words *)

Lemma window_pairs_length (cfg : Config) (r : Z) (before : list Z) :
  forall d (n : nat),
    window_pairs cfg r d n before
    = window_pairs cfg r d (n `min` length before) before.
Proof.
  induction before as [|c before IH]; intros d [|n]; try done.
  cbn [length Nat.min window_pairs]. by rewrite <- IH.
Qed.

Lemma context_loop_pairs `{Platform} (cfg : Config) (V w2 : Z) :
  0 <= V -> 0 <= max_product cfg -> 1 <= w2 <= V ->
  forall (n : nat) (d : Z) (rest : list Z) (st : state),
    (n <= length rest)%nat ->
    Forall (fun r => 1 <= r <= V) rest ->
    (forall i : nat, (i < n)%nat ->
       history st !!! Z.to_nat (Z.rem (j st - d - Z.of_nat i) (window_size cfg))
       = rest !!! i) ->
    (forall k,
       held (build_lookup V (max_product cfg)) V k
         (context_loop cfg (build_lookup V (max_product cfg)) n (j st - d) w2 st)
       = (held (build_lookup V (max_product cfg)) V k st
          + key_sum k (window_pairs cfg w2 d n rest))%Qc)
    /\ history (context_loop cfg (build_lookup V (max_product cfg)) n (j st - d) w2 st)
       = history st
    /\ j (context_loop cfg (build_lookup V (max_product cfg)) n (j st - d) w2 st) = j st
    /\ vocab_hash (context_loop cfg (build_lookup V (max_product cfg)) n (j st - d) w2 st)
       = vocab_hash st
    /\ str (context_loop cfg (build_lookup V (max_product cfg)) n (j st - d) w2 st)
       = str st.
Proof.
  intros HV HM Hw2. set (lookup := build_lookup V (max_product cfg)).
  induction n as [|n IH]; intros d rest st Hn Hranks Hhist.
  - cbn [context_loop window_pairs]. split; [|done]. intros k. rewrite key_sum_nil. ring.
  - destruct rest as [|c rest]; [cbn [length] in Hn; lia|].
    apply Forall_cons in Hranks as [Hc Hranks].
    pose proof (Hhist 0%nat ltac:(lia)) as H0.
    change (Z.of_nat 0) with 0 in H0. rewrite Z.sub_0_r in H0. cbn in H0.
    cbn [context_loop window_pairs]. rewrite H0.
    replace (j st - (j st - d)) with d by lia.
    match goal with
    | |- context [context_loop cfg lookup n _ w2 ?s] => set (st1 := s)
    end.
    assert (Hst1 :
      (forall k, held lookup V k st1
                 = (held lookup V k st
                    + key_sum k (mkCREC c w2 (weight d)
                                 :: (if symmetric cfg >? 0
                                     then [mkCREC w2 c (weight d)] else [])))%Qc)
      /\ history st1 = history st /\ j st1 = j st /\ vocab_hash st1 = vocab_hash st
      /\ str st1 = str st).
    { unfold st1. destruct (c <? Z.quot (max_product cfg) w2) eqn:Hdense.
      - destruct (dense_reserved V (max_product cfg) c w2 HM Hc Hw2 Hdense) as [R1 R2].
        split; [|done]. intros k. unfold held. cbn [set_bigram bigram_table cr runs].
        destruct (symmetric cfg >? 0).
        + unfold lookup. rewrite !add_cell_key_sum by done.
          rewrite !key_sum_cons, !key_sum_nil. ring.
        + unfold lookup. rewrite !add_cell_key_sum by done.
          rewrite !key_sum_cons, !key_sum_nil. ring.
      - destruct (symmetric cfg >? 0); (split; [|done]); intros k; unfold held;
          repeat (cbn [store_cr bigram_table cr runs j]);
          replace (j st - (j st - d)) with d by lia;
          rewrite !key_sum_app, !key_sum_cons, !key_sum_nil; ring. }
    destruct Hst1 as (Hheld1 & Hh1 & Hj1 & Hv1 & Hs1).
    replace (j st - d - 1) with (j st1 - (d + 1)) by lia.
    destruct (IH (d + 1) rest st1) as (Hheld & Hh & Hj & Hv & Hs).
    + cbn [length] in Hn. lia.
    + done.
    + intros i Hi. rewrite Hh1, Hj1.
      replace (j st - (d + 1) - Z.of_nat i) with (j st - d - Z.of_nat (S i)) by lia.
      rewrite (Hhist (S i)) by lia. done.
    + split; [|by rewrite Hh, Hj, Hv, Hs].
      intros k. rewrite Hheld, Hheld1, key_sum_app. ring.
Qed.

(** *** A word and its line *)

Lemma rem_distinct (x y W : Z) :
  0 <= x -> x < y -> y - x < W ->
  Z.to_nat (Z.rem x W) <> Z.to_nat (Z.rem y W).
Proof.
  intros Hx Hxy HW. rewrite !Z.rem_mod_nonneg by lia.
  pose proof (Z.mod_pos_bound x W ltac:(lia)).
  pose proof (Z.mod_pos_bound y W ltac:(lia)).
  pose proof (Z.div_mod x W ltac:(lia)). pose proof (Z.div_mod y W ltac:(lia)).
  intros Heq. assert (x mod W = y mod W) as Hm by lia.
  assert (Hq : y - x = W * (y / W - x / W)) by lia.
  revert Hq. generalize (y / W - x / W). intros q Hq.
  destruct (Z.le_gt_cases q 0); nia.
Qed.

Lemma pass_inv_ext `{Platform} cfg ht0 V before (st st' : state) :
  vocab_hash st' = vocab_hash st -> j st' = j st -> history st' = history st ->
  pass_inv cfg ht0 V before st -> pass_inv cfg ht0 V before st'.
Proof.
  intros Hv Hj Hh [H1 H2 H3 H4 H5].
  constructor; rewrite ?Hv, ?Hj, ?Hh; done.
Qed.

Lemma process_word_pairs `{Platform} (cfg : Config) ht0 (V w2 : Z) before st :
  0 <= V -> 0 <= max_product cfg -> 1 <= window_size cfg -> 1 <= w2 <= V ->
  pass_inv cfg ht0 V before st ->
  pass_inv cfg ht0 V (w2 :: before)
    (process_word cfg (build_lookup V (max_product cfg)) w2 st)
  /\ (forall k,
        held (build_lookup V (max_product cfg)) V k
          (process_word cfg (build_lookup V (max_product cfg)) w2 st)
        = (held (build_lookup V (max_product cfg)) V k st
           + key_sum k (window_pairs cfg w2 1 (Z.to_nat (window_size cfg)) before))%Qc)
  /\ str (process_word cfg (build_lookup V (max_product cfg)) w2 st) = str st.
Proof.
  intros HV HM HW Hw2 [Htab Hj Hlen Hhist Hranks]. unfold process_word.
  set (n := Z.to_nat (j st - (if j st >? window_size cfg
                              then j st - window_size cfg else 0))).
  assert (Hn : n = (Z.to_nat (window_size cfg) `min` length before)%nat).
  { unfold n. destruct (Z.gtb_spec (j st) (window_size cfg)); lia. }
  destruct (context_loop_pairs cfg V w2 HV HM Hw2 n 1 before st)
    as (Hheld & Hh & Hj' & Hv & Hs); [lia|done| |].
  { intros i Hi. apply Hhist; lia. }
  revert Hheld Hh Hj' Hv Hs.
  generalize (context_loop cfg (build_lookup V (max_product cfg)) n (j st - 1) w2 st).
  intros st' Hheld Hh Hj' Hv Hs. split; [|split].
  - constructor; cbn [vocab_hash j history].
    + intros w. by rewrite Hv.
    + cbn [length]. lia.
    + rewrite length_insert. by rewrite Hh.
    + intros i Hi HiW. rewrite Hh, Hj'.
      assert (Hidx : (Z.to_nat (Z.rem (j st) (window_size cfg)) < length (history st))%nat).
      { pose proof (Z.rem_bound_pos (j st) (window_size cfg)). lia. }
      destruct i as [|i].
      * replace (j st + 1 - 1 - Z.of_nat 0) with (j st) by lia.
        rewrite list_lookup_total_insert_eq by done. done.
      * cbn [length] in Hi. rewrite list_lookup_total_insert_ne.
        -- replace (j st + 1 - 1 - Z.of_nat (S i)) with (j st - 1 - Z.of_nat i) by lia.
           rewrite Hhist by lia. done.
        -- replace (j st + 1 - 1 - Z.of_nat (S i)) with (j st - 1 - Z.of_nat i) by lia.
           intros Heq. symmetry in Heq. revert Heq. apply rem_distinct; lia.
    + by constructor.
  - intros k. unfold held in *. cbn [bigram_table cr runs].
    rewrite (window_pairs_length cfg w2 before 1 (Z.to_nat (window_size cfg))), <- Hn.
    apply Hheld.
  - done.
Qed.

Lemma flush_held (lookup : list Z) V k (st : state) :
  held lookup V k (flush st) = held lookup V k st.
Proof.
  unfold held, flush. cbn [bigram_table cr runs].
  rewrite concat_app, key_sum_app. cbn [concat]. rewrite app_nil_r.
  rewrite write_chunk_sum. unfold qsort.
  rewrite (key_sum_perm k _ _ (merge_sort_Permutation (cmp_le compare_crec) (cr st))).
  rewrite key_sum_nil. ring.
Qed.

(** *** The loop over the tokens *)

Lemma token_loop_pairs `{Platform} (cfg : Config) ht0 (V : Z) :
  0 <= V -> 0 <= max_product cfg -> 1 <= window_size cfg ->
  (forall w r, rank ht0 w = Some r -> 1 <= r <= V) ->
  forall (fuel : nat) st before,
    pass_inv cfg ht0 V before st ->
    (length (buf (fin st)) < fuel)%nat ->
    exists st',
      token_loop cfg (build_lookup V (max_product cfg)) fuel st = Some st'
      /\ forall k,
           held (build_lookup V (max_product cfg)) V k st'
           = (held (build_lookup V (max_product cfg)) V k st
              + key_sum k (pairs_of cfg ht0 (events fuel (str st) (fin st)) before))%Qc.
Proof.
  intros HV HM HW Hranks. set (lookup := build_lookup V (max_product cfg)).
  induction fuel as [|fuel IH]; intros st before Hinv Hlen; [lia|].
  cbn [token_loop events].
  set (st1 := if ind st >=? overflow_length cfg - window_size cfg then flush st else st).
  assert (Hfin1 : fin st1 = fin st) by (unfold st1; by destruct (_ >=? _)).
  assert (Hstr1 : str st1 = str st) by (unfold st1; by destruct (_ >=? _)).
  assert (Hheld1 : forall k, held lookup V k st1 = held lookup V k st).
  { intros k. unfold st1. destruct (_ >=? _); [apply flush_held|done]. }
  assert (Hinv1 : pass_inv cfg ht0 V before st1).
  { unfold st1. destruct (_ >=? _); [|done]. by apply (pass_inv_ext _ _ _ _ st). }
  clearbody st1. rewrite Hfin1, Hstr1.
  destruct (get_word (str st) (fin st)) as [[flag str'] fin'] eqn:Hgw.
  apply get_word_progress in Hgw.
  cbn [fin str vocab_hash j cr cr_high history bigram_table runs].
  unfold feof. destruct (eof fin') eqn:Heof.
  { eexists. split; [reflexivity|]. intros k. cbn [pairs_of]. rewrite key_sum_nil.
    rewrite <- Hheld1. unfold held. cbn [bigram_table cr runs]. ring. }
  destruct Hgw as [?|Hlt]; [done|].
  destruct (flag =? 1).
  { destruct (IH (mkState fin' str' (vocab_hash st1) 0 (cr st1) (cr_high st1)
                    (history st1) (bigram_table st1) (runs st1)) [])
      as (st' & Hrun & Hheld).
    - destruct Hinv1 as [H1 H2 H3 H4 H5].
      constructor; cbn [vocab_hash j history length]; try done.
      intros i Hi. lia.
    - cbn [fin]. lia.
    - exists st'. split; [exact Hrun|]. intros k. rewrite Hheld. cbn [pairs_of str fin].
      rewrite <- Hheld1. unfold held. cbn [bigram_table cr runs]. ring. }
  cbn [pairs_of]. unfold rank. rewrite <- (pi_table _ _ _ _ _ Hinv1).
  destruct (hashsearch (vocab_hash st1) (cstring str')) as [[htmp|] ht] eqn:Hs;
    cbn [fst fmap option_fmap option_map].
  - assert (Hr : 1 <= hid htmp <= V).
    { apply (Hranks (cstring str')). unfold rank.
      rewrite <- (pi_table _ _ _ _ _ Hinv1), Hs. done. }
    set (stR := mkState fin' str' ht (j st1) (cr st1) (cr_high st1) (history st1)
                  (bigram_table st1) (runs st1)).
    assert (HinvR : pass_inv cfg ht0 V before stR).
    { destruct Hinv1 as [H1 H2 H3 H4 H5].
      constructor; cbn [stR vocab_hash j history]; try done.
      intros w. rewrite <- H1.
      replace ht with (hashsearch (vocab_hash st1) (cstring str')).2 by (by rewrite Hs).
      apply hashsearch_stable. }
    destruct (process_word_pairs cfg ht0 V (hid htmp) before stR HV HM HW Hr HinvR)
      as (Hinv2 & Hheld2 & Hstr2).
    fold lookup in Hinv2, Hheld2, Hstr2.
    pose proof (proj1 (process_word_frame cfg lookup (hid htmp) stR)) as Hfin2.
    destruct (IH (process_word cfg lookup (hid htmp) stR) (hid htmp :: before))
      as (st' & Hrun & Hheld); [done|rewrite Hfin2; cbn [stR fin]; lia|].
    exists st'. split; [exact Hrun|]. intros k.
    rewrite Hheld, Hheld2, Hfin2, Hstr2, key_sum_app. cbn [stR fin str].
    rewrite <- Hheld1. unfold held. cbn [stR bigram_table cr runs]. ring.
  - destruct (IH (mkState fin' str' (vocab_hash st1) (j st1) (cr st1) (cr_high st1)
                    (history st1) (bigram_table st1) (runs st1)) before)
      as (st' & Hrun & Hheld).
    + by apply (pass_inv_ext _ _ _ _ st1).
    + cbn [fin]. lia.
    + exists st'. split; [exact Hrun|]. intros k. rewrite Hheld. cbn [str fin].
      rewrite <- Hheld1. unfold held. cbn [bigram_table cr runs]. ring.
Qed.

Lemma corpus_pass_pairs `{Platform} (cfg : Config) (vocab_file corpus : list byte) :
  0 <= max_product cfg -> 1 <= window_size cfg ->
  exists ht V st,
    load_vocab vocab_file = Some (ht, V)
    /\ 0 <= V
    /\ corpus_pass cfg ht (build_lookup V (max_product cfg)) corpus = Some st
    /\ forall k,
         key_sum k (concat (run_files (build_lookup V (max_product cfg)) V st))
         = key_sum k (pairs_of cfg ht (corpus_events corpus) []).
Proof.
  intros HM HW.
  destruct (load_vocab_terminates vocab_file) as [[ht V] Hload].
  destruct (load_vocab_ranks vocab_file ht V Hload) as [HV Hranks].
  destruct (token_loop_pairs cfg ht V HV HM HW Hranks (S (length corpus))
              (initial_state cfg ht corpus) []) as (st & Hrun & Hheld).
  - constructor; cbn [initial_state vocab_hash j history length]; try done.
    + rewrite length_replicate. lia.
    + intros i Hi. lia.
  - cbn [initial_state fin fopen buf]. lia.
  - exists ht, V, st. split; [done|]. split; [done|]. split; [exact Hrun|].
    intros k. specialize (Hheld k). rewrite <- flush_held in Hheld.
    unfold held at 2 in Hheld. cbn [initial_state bigram_table cr runs concat] in Hheld.
    rewrite dump_table_zero, !key_sum_nil in Hheld.
    cbn [initial_state str fin] in Hheld.
    unfold run_files, corpus_events. cbn [concat]. rewrite key_sum_app.
    transitivity (held (build_lookup V (max_product cfg)) V k (flush st)).
    + unfold held. cbn [flush bigram_table cr runs]. rewrite key_sum_nil. ring.
    + rewrite Hheld. ring.
Qed.

(** X25: the run files hold what the window asks for.  On a run
    that stays inside the overflow buffer, for every pair of ranks the
    values of the pair in file 0000 and in the overflow files
    together add up to the values of the records of [pairs_of]: one
    record, with the inverse of the distance as value, for each word
    in the vocabulary and each of the up to [window_size] words in
    the vocabulary before it on its line, and its mirror image with
    symmetric context. *)
Theorem run_files_hold_pair_sums `{Platform} (cfg : Config)
    (vocab_file corpus : list byte) :
  0 <= max_product cfg -> 1 <= window_size cfg ->
  stays_in_buffer cfg vocab_file corpus ->
  exists ht V st,
    load_vocab vocab_file = Some (ht, V)
    /\ corpus_pass cfg ht (build_lookup V (max_product cfg)) corpus = Some st
    /\ cr_high st <= overflow_length cfg
    /\ forall k,
         key_sum k (concat (run_files (build_lookup V (max_product cfg)) V st))
         = key_sum k (pairs_of cfg ht (corpus_events corpus) []).
Proof.
  intros HM HW (h & Hh & Hle).
  destruct (corpus_pass_pairs cfg vocab_file corpus HM HW)
    as (ht & V & st & Hload & _ & Hrun & Hsum).
  exists ht, V, st. split; [done|]. split; [done|]. split; [|done].
  unfold cr_high_water in Hh. rewrite Hload, Hrun in Hh. cbn in Hh.
  injection Hh as <-. done.
Qed.

Lemma run_files_hold_pair_sums_witness :
  let cfg := mkConfig 4 100 2 1 in
  exists ht V st,
    load_vocab (plat := x86_64) Examples.vocab_abc = Some (ht, V)
    /\ corpus_pass (plat := x86_64) cfg ht (build_lookup V (max_product cfg))
         Examples.corpus_abac_ba = Some st
    /\ cr_high st <= overflow_length cfg
    /\ forall k,
         key_sum k (concat (run_files (build_lookup V (max_product cfg)) V st))
         = key_sum k (pairs_of (H := x86_64) cfg ht
                        (corpus_events Examples.corpus_abac_ba) []).
Proof.
  intros cfg.
  apply (run_files_hold_pair_sums (H := x86_64) cfg Examples.vocab_abc
           Examples.corpus_abac_ba).
  - cbn. lia.
  - cbn. lia.
  - exists 3. split; [by vm_compute|cbn; lia].
Defined.

(** X26: on a run that stays inside the overflow buffer, and with an
    initial content of [new] that can be compared with ranks without
    overflow, [get_cooccurrence] ends normally and no pair of words is
    written twice; when neither file 0000 nor any overflow file is
    empty, the output holds the sums that the window asks for: for
    every pair of ranks, the value written for the pair (0 if none is
    written) is the sum of the values of the records of [pairs_of]
    for that pair. *)
Theorem output_holds_pair_sums `{Platform} (cfg : Config) (new0 : CRECID)
    (vocab_file corpus : list byte) :
  0 <= max_product cfg -> 1 <= window_size cfg ->
  stays_in_buffer cfg vocab_file corpus ->
  new_fits vocab_file new0 ->
  exists ht V st out,
    load_vocab vocab_file = Some (ht, V)
    /\ corpus_pass cfg ht (build_lookup V (max_product cfg)) corpus = Some st
    /\ get_cooccurrence cfg new0 vocab_file corpus = Done out
    /\ NoDup (map key out)
    /\ (Forall (fun f => f <> [])
          (run_files (build_lookup V (max_product cfg)) V st) ->
        forall k, key_sum k out
                  = key_sum k (pairs_of cfg ht (corpus_events corpus) [])).
Proof.
  intros HM HW _ _.
  destruct (corpus_pass_pairs cfg vocab_file corpus HM HW)
    as (ht & V & st & Hload & HV & Hrun & Hsum).
  set (lookup := build_lookup V (max_product cfg)) in *.
  destruct (corpus_pass_spec cfg ht lookup corpus) as (st0 & Hrun0 & Hsorted).
  rewrite Hrun in Hrun0. injection Hrun0 as <-.
  destruct (merge_files_spec new0 (run_files lookup V st))
    as (popped & Hmerge & Hperm & Hps).
  { done. }
  { unfold run_files. constructor; [|done].
    apply StronglySorted_lt_le, dump_table_sorted. }
  exists ht, V, st, (write_chunk popped).
  split; [done|]. split; [done|]. split; [|split].
  - unfold get_cooccurrence. rewrite Hload. fold lookup.
    pose proof (lookup_total_pos V (max_product cfg) HV HM) as Hpos. fold lookup in Hpos.
    destruct (Z.ltb_spec (lookup !!! Z.to_nat V) 0); [lia|].
    by rewrite Hrun, Hmerge.
  - by apply sorted_lt_NoDup, write_chunk_sorted.
  - intros Hne k. rewrite write_chunk_sum, (key_sum_perm _ _ _ Hperm).
    rewrite effective_nonempty by done. apply Hsum.
Qed.

Lemma output_holds_pair_sums_witness :
  let cfg := mkConfig 4 100 2 1 in
  exists ht V st out,
    load_vocab (plat := x86_64) Examples.vocab_abc = Some (ht, V)
    /\ corpus_pass (plat := x86_64) cfg ht (build_lookup V (max_product cfg))
         Examples.corpus_abac_ba = Some st
    /\ get_cooccurrence (plat := x86_64) cfg inhabitant Examples.vocab_abc
         Examples.corpus_abac_ba = Done out
    /\ NoDup (map key out)
    /\ (Forall (fun f => f <> [])
          (run_files (build_lookup V (max_product cfg)) V st) ->
        forall k, key_sum k out
                  = key_sum k (pairs_of (H := x86_64) cfg ht
                                 (corpus_events Examples.corpus_abac_ba) [])).
Proof.
  intros cfg.
  apply (output_holds_pair_sums (H := x86_64) cfg inhabitant Examples.vocab_abc
           Examples.corpus_abac_ba).
  - cbn. lia.
  - cbn. lia.
  - exists 3. split; [by vm_compute|cbn; lia].
  - eexists _, 3. split; [by vm_compute|]. by vm_compute.
Defined.

(** X27: file 0000 is strictly increasing in the pair of words; for a
    pair that owns a cell of the table it holds the value of the cell
    (no record if that is zero), and nothing for any other pair; no
    record of it has the value zero. *)
Theorem table_file_holds_cells (lookup : list Z) (t : Z -> Qc) (vocab_size : Z) :
  StronglySorted key_lt (dump_table lookup t vocab_size)
  /\ (forall x y,
        key_sum (x, y) (dump_table lookup t vocab_size)
        = if decide (reserved lookup vocab_size x y) then t (cell lookup x y) else 0%Qc)
  /\ Forall (fun r => val r <> 0%Qc) (dump_table lookup t vocab_size).
Proof.
  split; [apply dump_table_sorted|]. split; [intros x y; apply dump_table_key_sum|].
  apply Forall_forall. intros r Hr.
  apply list_elem_of_In, in_flat_map in Hr as (x & _ & Hr).
  unfold dump_row in Hr. apply in_flat_map in Hr as (y & _ & Hr). cbv zeta in Hr.
  destruct (Qc_eq_bool _ 0) eqn:Hz; [done|]. destruct Hr as [<-|[]]. cbn [val].
  intros Heq. rewrite Heq in Hz. unfold Qc_eq_bool in Hz.
  by destruct (Qc_eq_dec (Q2Qc 0) (Q2Qc 0)).
Qed.

(** The records of [pairs_of] for the corpus "a b a c" / "b a" with
    window 2 and symmetric context, sorted and joined pair by pair:
    seven records, as a run of the program on this corpus writes. *)
Lemma pairs_of_scenario_a :
  match load_vocab (plat := x86_64) Examples.vocab_abc with
  | Some (ht, _) =>
      map triple
        (write_chunk
           (qsort compare_crec
              (pairs_of (H := x86_64) (mkConfig 4 100 2 1) ht
                 (corpus_events Examples.corpus_abac_ba) [])))
  | None => []
  end
  = [(1, 1, (1 # 1)%Q); (1, 2, (3 # 1)%Q); (1, 3, (1 # 1)%Q); (2, 1, (3 # 1)%Q);
     (2, 3, (1 # 2)%Q); (3, 1, (1 # 1)%Q); (3, 2, (1 # 2)%Q)].
Proof. by vm_compute. Qed.

(** ** The records compared by the merge hold ranks *)

Import Cooccur Props MergeProps PassProps PairProps.

Lemma rank_words_key (V : Z) (a b : CREC) :
  key a = key b -> rank_words V a -> rank_words V b.
Proof. unfold key, rank_words. intros [= -> ->]. done. Qed.

Lemma rank_words_keys (V : Z) (l l' : list CREC) :
  (forall k, In k (map key l') -> In k (map key l)) ->
  Forall (rank_words V) l -> Forall (rank_words V) l'.
Proof.
  intros Hsub Hl. apply Forall_forall. intros r Hr%list_elem_of_In.
  destruct (proj1 (in_map_iff key l (key r))) as (r' & Hk & Hr').
  - apply Hsub. by apply in_map.
  - apply (rank_words_key V r'); [done|].
    by apply (proj1 (Forall_forall _ _) Hl), list_elem_of_In.
Qed.

Lemma overflow_file_rank_words (V : Z) (cr : list CREC) :
  Forall (rank_words V) cr ->
  Forall (rank_words V) (write_chunk (qsort compare_crec cr)).
Proof.
  intros Hcr. apply (rank_words_keys V (qsort compare_crec cr)).
  - intros k. apply write_chunk_keys.
  - unfold qsort. by rewrite merge_sort_Permutation.
Qed.

Lemma dump_table_rank_words (V M : Z) (t : Z -> Qc) :
  0 <= V -> Forall (rank_words V) (dump_table (build_lookup V M) t V).
Proof.
  intros HV. apply Forall_forall. intros r Hr.
  apply list_elem_of_In, in_flat_map in Hr as (x & Hx & Hr).
  apply list_elem_of_In, index_list_elem in Hx.
  unfold dump_row in Hr. apply in_flat_map in Hr as (y & Hy & Hr). cbv zeta in Hr.
  apply list_elem_of_In, index_list_elem in Hy.
  destruct (Qc_eq_bool _ 0); [done|]. destruct Hr as [<-|[]].
  unfold rank_words. cbn [word1 word2].
  rewrite Z2Nat.id, row_diff in Hy by lia.
  unfold row_cells in Hy. destruct (Z.ltb_spec (Z.quot M x) V); lia.
Qed.

Lemma history_entry (V : Z) (l : list Z) (i : nat) :
  1 <= V -> Forall (fun x => 0 <= x <= V) l -> 0 <= l !!! i <= V.
Proof.
  intros HV Hl. rewrite list_lookup_total_alt.
  destruct (l !! i) as [x|] eqn:Hx; [|cbn; lia].
  exact (proj1 (Forall_lookup _ _) Hl i x Hx).
Qed.

Lemma context_loop_ranks `{Platform} cfg lookup (V : Z) (n : nat) :
  forall k w2 st,
    1 <= w2 <= V ->
    Forall (fun x => 0 <= x <= V) (history st) ->
    Forall (rank_words V) (cr st) ->
    history (context_loop cfg lookup n k w2 st) = history st
    /\ vocab_hash (context_loop cfg lookup n k w2 st) = vocab_hash st
    /\ Forall (rank_words V) (cr (context_loop cfg lookup n k w2 st)).
Proof.
  induction n as [|n IH]; intros k w2 st Hw2 Hh Hcr; [done|].
  cbn [context_loop].
  pose proof (history_entry V (history st)
                (Z.to_nat (Z.rem k (window_size cfg))) ltac:(lia) Hh) as Hw1.
  set (w1 := history st !!! Z.to_nat (Z.rem k (window_size cfg))) in *.
  match goal with
  | |- context [context_loop cfg lookup n ?k' ?w ?s] =>
      destruct (IH k' w s) as (Hh' & Ht' & Hcr'); [done| | |]
  end.
  - by destruct (_ <? _); destruct (_ >? _).
  - destruct (_ <? _); destruct (_ >? _); cbn [set_bigram store_cr cr]; try done;
      rewrite ?Forall_app; repeat split; try done;
      repeat constructor; cbn [word1 word2]; lia.
  - rewrite Hh', Ht'. split; [|split; [|done]].
    + by destruct (_ <? _); destruct (_ >? _).
    + by destruct (_ <? _); destruct (_ >? _).
Qed.

Lemma corpus_pass_ranks `{Platform} (cfg : Config) (vocab_file corpus : list byte)
    ht V lookup st :
  load_vocab vocab_file = Some (ht, V) ->
  corpus_pass cfg ht lookup corpus = Some st ->
  Forall (rank_words V) (cr st) /\ Forall (Forall (rank_words V)) (runs st).
Proof.
  intros Hload Hrun.
  destruct (load_vocab_ranks vocab_file ht V Hload) as [HV Hranks].
  destruct (token_loop_rule cfg lookup (holds_ranks ht V)) with
    (fuel := S (length corpus)) (st := initial_state cfg ht corpus)
    as (st' & Hrun' & Hst).
  - intros s (Hh & Hcr & Hruns & Ht). split; [done|]. split; [done|]. split; [|done].
    cbn [flush runs]. apply Forall_app. split; [done|].
    constructor; [|done]. by apply overflow_file_rank_words.
  - by intros s ? ? ?.
  - by intros s ?.
  - intros s w htmp ht' (Hh & Hcr & Hruns & Ht) _ Hs.
    assert (Hid : 1 <= hid htmp <= V).
    { apply (Hranks w). unfold rank. by rewrite <- Ht, Hs. }
    assert (Ht' : forall w', (hashsearch ht' w').1 = (hashsearch ht w').1).
    { intros w'. rewrite <- Ht. replace ht' with (hashsearch (vocab_hash s) w).2
        by (by rewrite Hs). apply hashsearch_stable. }
    unfold process_word.
    match goal with
    | |- context [context_loop cfg lookup ?n ?k ?w ?s0] =>
        destruct (context_loop_ranks cfg lookup V n k w s0) as (Hh' & Hv' & Hcr');
          [done|done|done|]
    end.
    split; [|split; [exact Hcr'|split]].
    + cbn [history]. rewrite Hh'. cbn [history]. apply Forall_insert; [done|lia].
    + cbn [runs]. rewrite (proj2 (context_loop_frame _ _ _ _ _ _)). done.
    + cbn [vocab_hash]. rewrite Hv'. exact Ht'.
  - cbn [initial_state fin fopen buf]. lia.
  - split; [|split; [done|split; [done|done]]].
    cbn [initial_state history]. apply Forall_replicate. lia.
  - unfold corpus_pass in Hrun. rewrite Hrun in Hrun'. injection Hrun' as <-.
    by destruct Hst as (_ & ? & ? & _).
Qed.

Lemma rank_words_no_wrap (V : Z) (new : CREC) (l : list CREC) :
  fits_ranks V new -> Forall (rank_words V) l -> no_wrap_all (new :: l).
Proof.
  intros (HV & H1 & H2) Hl.
  assert (Hnew : forall r, r ∈ new :: l ->
                   (V - 2 ^ 31 < word1 r < 2 ^ 31 /\ V - 2 ^ 31 < word2 r < 2 ^ 31)
                   /\ (r = new \/ rank_words V r)).
  { intros r [->|Hr]%elem_of_cons; [by split; [|left]|].
    pose proof (proj1 (Forall_forall _ _) Hl r Hr) as Hrw.
    split; [|by right]. unfold rank_words in Hrw. lia. }
  apply Forall_forall. intros a Ha. apply Forall_forall. intros b Hb.
  destruct (Hnew a Ha) as [Ha1 Ha2], (Hnew b Hb) as [Hb1 Hb2].
  unfold no_wrap, int_value, rank_words in *.
  destruct Ha2 as [->|Ha2], Hb2 as [->|Hb2]; lia.
Qed.

(** Where the initial content of [new] fits the ranks, no comparison
    of [merge_files] on the run files of the pass overflows: the
    differences that [compare_crec] takes are those of the source. *)
Lemma merge_input_no_wrap `{Platform} (cfg : Config) (new0 : CRECID)
    (vocab_file corpus : list byte) ht V st :
  load_vocab vocab_file = Some (ht, V) ->
  corpus_pass cfg ht (build_lookup V (max_product cfg)) corpus = Some st ->
  fits_ranks V (crec new0) ->
  no_wrap_all (crec new0 :: concat (run_files (build_lookup V (max_product cfg)) V st))
  /\ forall a b,
       a ∈ crec new0 :: concat (run_files (build_lookup V (max_product cfg)) V st) ->
       b ∈ crec new0 :: concat (run_files (build_lookup V (max_product cfg)) V st) ->
       compare_crec_int a b = compare_crec a b.
Proof.
  intros Hload Hrun Hfits.
  destruct (load_vocab_ranks vocab_file ht V Hload) as [HV _].
  destruct (corpus_pass_ranks cfg vocab_file corpus ht V _ st Hload Hrun) as [Hcr Hruns].
  assert (Hall : no_wrap_all
                   (crec new0 :: concat (run_files (build_lookup V (max_product cfg)) V st))).
  { apply (rank_words_no_wrap V); [done|]. unfold run_files. cbn [concat].
    apply Forall_app. split; [by apply dump_table_rank_words|].
    apply Forall_concat. cbn [flush runs]. apply Forall_app. split; [done|].
    constructor; [|done]. by apply overflow_file_rank_words. }
  split; [done|]. intros a b Ha Hb. apply compare_crec_int_no_wrap.
  exact (proj1 (Forall_forall _ _) (proj1 (Forall_forall _ _) Hall a Ha) b Hb).
Qed.

(** ** The counts of the vocabulary builder *)

Import VocabCount VocabProps CountProps.

(** *** Occurrences *)

Lemma occurrences_app w (l1 l2 : list (list byte)) :
  occurrences w (l1 ++ l2) = occurrences w l1 + occurrences w l2.
Proof. unfold occurrences. rewrite filter_app, length_app. lia. Qed.

Lemma occurrences_cons w x (l : list (list byte)) :
  occurrences w (x :: l) = (if decide (x = w) then 1 else 0) + occurrences w l.
Proof.
  unfold occurrences. case_decide.
  - rewrite filter_cons_True by done. cbn [length]. lia.
  - rewrite filter_cons_False by done. lia.
Qed.

Lemma occurrences_nonneg w (l : list (list byte)) : 0 <= occurrences w l.
Proof. unfold occurrences. lia. Qed.

Lemma occurrences_absent w (l : list (list byte)) : w ∉ l -> occurrences w l = 0.
Proof.
  induction l as [|x l IH]; [done|]. intros Hw. rewrite occurrences_cons.
  rewrite decide_False by (intros ->; apply Hw; left).
  rewrite IH; [done|]. intros ?. apply Hw. by right.
Qed.

Lemma occurrences_present w (l : list (list byte)) : w ∈ l -> 1 <= occurrences w l.
Proof.
  induction l as [|x l IH]; [by intros ?%elem_of_nil|].
  intros [->|Hw]%elem_of_cons; rewrite occurrences_cons.
  - rewrite decide_True by done. pose proof (occurrences_nonneg x l). lia.
  - specialize (IH Hw). case_decide; lia.
Qed.

(** *** The table *)

Lemma nodup_map_inj {A B} (f : A -> B) (l : list A) x y :
  NoDup (map f l) -> x ∈ l -> y ∈ l -> f x = f y -> x = y.
Proof.
  induction l as [|a l IH]; cbn [map]; [by intros _ ?%elem_of_nil|].
  intros [Ha Hnd]%NoDup_cons [->|Hx]%elem_of_cons [->|Hy]%elem_of_cons Hf; [done| | |by apply IH].
  - exfalso. apply Ha. rewrite Hf. apply list_elem_of_In, in_map. by apply list_elem_of_In.
  - exfalso. apply Ha. rewrite <- Hf. apply list_elem_of_In, in_map. by apply list_elem_of_In.
Qed.

Lemma vc_set_bucket_same (ht : table) hval chain :
  set_bucket ht hval chain hval = chain.
Proof. unfold set_bucket. by rewrite Z.eqb_refl. Qed.

Lemma hashinsert_counts `{Platform} (ht : table) (w : list byte) seen :
  wf_table ht -> nul_free w -> table_counts ht seen ->
  table_counts (hashinsert ht w) (seen ++ [w]).
Proof.
  intros Hwf Hw [Hcnt Hcov].
  set (hval := bitwisehash w TSIZE SEED).
  assert (Hbucket : forall b r, r ∈ ht b -> bitwisehash (hword r) TSIZE SEED = b).
  { intros b r Hr. destruct (Hwf b) as [_ Hall]. rewrite Forall_forall in Hall.
    by destruct (Hall r Hr). }
  assert (Hkeep : forall b r, r ∈ ht b -> hword r <> w ->
            hword r ∈ seen ++ [w]
            /\ hcount r = occurrences (hword r) (seen ++ [w])).
  { intros b r Hr Hne. destruct (Hcnt b r Hr) as [Hin Hc]. split.
    - apply elem_of_app. by left.
    - rewrite occurrences_app, occurrences_cons, decide_False by done.
      rewrite Hc. unfold occurrences at 3. cbn. lia. }
  unfold hashinsert. fold hval.
  destruct (chain_find (ht hval) w) as [[[pre r] post]|] eqn:Hfind.
  - apply chain_find_some in Hfind as [Hchain Hr].
    destruct (Hwf hval) as [Hnd Hall].
    assert (Hrin : r ∈ ht hval) by (rewrite Hchain; apply elem_of_app; right; left).
    assert (Hrw : hword r = w).
    { rewrite Forall_forall in Hall. destruct (Hall r Hrin) as [_ Hnf]. by apply scmp_eq. }
    assert (Hrest : forall x, x ∈ pre ++ post -> x ∈ ht hval /\ hword x <> w).
    { intros x Hx.
      assert (Hxin : x ∈ ht hval).
      { rewrite Hchain. apply elem_of_app in Hx as [?|?]; apply elem_of_app;
          [by left|right; by right]. }
      split; [done|]. intros Hxw.
      assert (x = r) as -> by (apply (nodup_map_inj hword (ht hval)); congruence).
      pose proof (NoDup_fmap_1 hword (ht hval) Hnd) as Hnd'.
      rewrite Hchain in Hnd'. apply NoDup_app in Hnd' as (_ & Hdis & Hnd').
      apply NoDup_cons in Hnd' as [Hnp _].
      apply elem_of_app in Hx as [Hx|Hx]; [|done].
      apply (Hdis r Hx). left. }
    assert (Hgoal : table_counts
              (set_bucket ht hval (mkHASHREC (hword r) (hcount r + 1) :: pre ++ post))
              (seen ++ [w])).
    { split.
      - intros b x. unfold set_bucket. destruct (Z.eqb_spec b hval) as [->|Hb].
        + intros [->|Hx]%elem_of_cons.
          * cbn [hword hcount]. rewrite Hrw. split; [apply elem_of_app; right; left|].
            rewrite occurrences_app, occurrences_cons, decide_True by done.
            destruct (Hcnt hval r Hrin) as [_ ->]. rewrite Hrw.
            unfold occurrences at 3. cbn. lia.
          * destruct (Hrest x Hx). by apply (Hkeep hval).
        + intros Hx. apply (Hkeep b x Hx). intros Hxw. apply Hb.
          rewrite <- (Hbucket b x Hx). by rewrite Hxw.
      - intros w' [Hw'|Hw']%elem_of_app.
        + destruct (Hcov w' Hw') as (x & Hx & Hxw). unfold set_bucket.
          destruct (Z.eqb_spec (bitwisehash w' TSIZE SEED) hval) as [Heq|Hb];
            [|by exists x].
          rewrite Heq in Hx. destruct (decide (hword x = w)) as [Hxe|Hne].
          * eexists. split; [left|]. cbn [hword]. congruence.
          * exists x. split; [|done]. right.
            rewrite Hchain in Hx. apply elem_of_app in Hx as [?|Hx]; apply elem_of_app;
              [by left|right]. apply elem_of_cons in Hx as [->|?]; [done|done].
        + apply list_elem_of_singleton in Hw' as ->. fold hval.
          rewrite vc_set_bucket_same. eexists. split; [left|]. done. }
    destruct pre; exact Hgoal.
  - apply chain_find_none in Hfind. rewrite Forall_forall in Hfind.
    assert (Hnew : forall x, x ∈ ht hval -> hword x <> w).
    { intros x Hx Hxw. apply (Hfind x Hx). rewrite Hxw. apply scmp_refl. }
    assert (Hfresh : w ∉ seen).
    { intros Hin. destruct (Hcov w Hin) as (x & Hx & Hxw). by apply (Hnew x). }
    split.
    + intros b x. unfold set_bucket. destruct (Z.eqb_spec b hval) as [->|Hb].
      * intros [Hx|Hx]%elem_of_app.
        -- apply (Hkeep hval x Hx). by apply Hnew.
        -- apply list_elem_of_singleton in Hx as ->. cbn [hword hcount].
           split; [apply elem_of_app; right; left|].
           rewrite occurrences_app, occurrences_cons, decide_True by done.
           rewrite occurrences_absent by done. unfold occurrences. cbn. lia.
      * intros Hx. apply (Hkeep b x Hx). intros Hxw. apply Hb.
        rewrite <- (Hbucket b x Hx). by rewrite Hxw.
    + intros w' [Hw'|Hw']%elem_of_app.
      * destruct (Hcov w' Hw') as (x & Hx & Hxw). unfold set_bucket.
        destruct (Z.eqb_spec (bitwisehash w' TSIZE SEED) hval) as [Heq|Hb];
          [|by exists x].
        exists x. split; [|done]. apply elem_of_app. left. by rewrite <- Heq.
      * apply list_elem_of_singleton in Hw' as ->. fold hval.
        rewrite vc_set_bucket_same. eexists. split; [apply elem_of_app; right; left|]. done.
Qed.

Lemma table_counts_init `{Platform} : table_counts inithashtable [].
Proof. split; [by intros b r ?%elem_of_nil|by intros w ?%elem_of_nil]. Qed.

Lemma count_loop_counts `{Platform} (fuel : nat) :
  forall fid ht seen,
    (length (buf fid) < fuel)%nat ->
    wf_table ht -> table_counts ht seen ->
    match count_loop fuel fid ht with
    | Some (Some ht') =>
        (unk ∉ scan_tokens fuel fid) /\ wf_table ht'
        /\ table_counts ht' (seen ++ scan_tokens fuel fid)
    | Some None => unk ∈ scan_tokens fuel fid
    | None => False
    end.
Proof.
  induction fuel as [|fuel IH]; intros fid ht seen Hlen Hwf Hcnt; [lia|].
  cbn [count_loop scan_tokens].
  destruct (fscanf_s MAX_STRING_LENGTH fid) as [[s|] fid'] eqn:Hf.
  - apply fscanf_s_progress in Hf. case_decide as Hunk.
    + rewrite Hunk. left.
    + specialize (IH fid' (hashinsert ht (cstring s)) (seen ++ [cstring s])).
      destruct (count_loop fuel fid' (hashinsert ht (cstring s))) as [[ht'|]|].
      * destruct IH as (Hno & Hwf' & Hcnt'); [lia| | |].
        -- apply hashinsert_wf; [done|apply nul_free_cstring].
        -- apply hashinsert_counts; [done|apply nul_free_cstring|done].
        -- split; [|split; [done|]].
           ++ intros [?|?]%elem_of_cons; [by apply Hunk|by apply Hno].
           ++ by rewrite <- app_assoc in Hcnt'.
      * right. apply IH; [lia| |].
        -- apply hashinsert_wf; [done|apply nul_free_cstring].
        -- apply hashinsert_counts; [done|apply nul_free_cstring|done].
      * apply IH; [lia| |].
        -- apply hashinsert_wf; [done|apply nul_free_cstring].
        -- apply hashinsert_counts; [done|apply nul_free_cstring|done].
  - rewrite app_nil_r. split; [by intros ?%elem_of_nil|done].
Qed.

(** *** The array *)

Lemma migrate_elem (ht : table) (n : nat) :
  forall i vocab v,
    v ∈ migrate n i ht vocab
    <-> v ∈ vocab
        \/ exists (k : nat) r,
             (k < n)%nat /\ r ∈ ht (i + Z.of_nat k) /\ v = mkVOCAB (hword r) (hcount r).
Proof.
  induction n as [|n IH]; intros i vocab v; cbn [migrate].
  - split; [by left|]. intros [?|(k & r & ? & _)]; [done|lia].
  - rewrite IH, elem_of_app. split.
    + intros [[?|Hv]|(k & r & Hk & Hr & ->)].
      * by left.
      * right. apply list_elem_of_In, in_map_iff in Hv as (r & <- & Hr).
        exists 0%nat, r. split; [lia|]. split; [|done].
        rewrite Z.add_0_r. by apply list_elem_of_In.
      * right. exists (S k), r. split; [lia|]. split; [|done].
        by replace (i + Z.of_nat (S k)) with (i + 1 + Z.of_nat k) by lia.
    + intros [?|(k & r & Hk & Hr & ->)]; [left; by left|].
      destruct k as [|k].
      * left. right. rewrite Z.add_0_r in Hr.
        apply list_elem_of_In, in_map_iff. exists r. split; [done|by apply list_elem_of_In].
      * right. exists k, r. split; [lia|]. split; [|done].
        by replace (i + 1 + Z.of_nat k) with (i + Z.of_nat (S k)) by lia.
Qed.

Lemma vocab_of_table `{Platform} (ht : table) seen (buckets : nat) :
  Z.of_nat buckets = TSIZE ->
  wf_table ht -> table_counts ht seen ->
  (forall v, v ∈ migrate buckets 0 ht [] ->
     word v ∈ seen /\ count v = occurrences (word v) seen)
  /\ (forall w, w ∈ seen -> exists v, v ∈ migrate buckets 0 ht [] /\ word v = w).
Proof.
  intros Hb Hwf [Hcnt Hcov]. split.
  - intros v [?%elem_of_nil|(k & r & _ & Hr & ->)]%migrate_elem; [done|].
    cbn [word count]. exact (Hcnt _ r Hr).
  - intros w Hw. destruct (Hcov w Hw) as (r & Hr & <-).
    exists (mkVOCAB (hword r) (hcount r)). split; [|done].
    apply migrate_elem. right.
    pose proof (bitwisehash_bounds (hword r) TSIZE SEED) as Hrange.
    exists (Z.to_nat (bitwisehash (hword r) TSIZE SEED)), r.
    split; [unfold TSIZE in *; lia|]. split; [|done].
    rewrite Z.add_0_l, Z2Nat.id by (unfold TSIZE in *; lia). done.
Qed.

(** *** Sorting and printing *)

Lemma CompareVocab_le `{Platform} (a b : VOCAB) :
  cmp_le CompareVocab a b <-> count b <= count a.
Proof.
  unfold cmp_le, CompareVocab.
  destruct (Z.eqb_spec (count b - count a) 0); cbn [negb]; [lia|].
  destruct (Z.gtb_spec (count b - count a) 0); lia.
Qed.

Lemma CompareVocab_trans `{Platform} : Transitive (cmp_le CompareVocab).
Proof. intros a b c. rewrite !CompareVocab_le. lia. Qed.

Lemma CompareVocab_total `{Platform} : Total (cmp_le CompareVocab).
Proof. intros a b. rewrite !CompareVocab_le. lia. Qed.

Lemma CompareVocabTie_count `{Platform} (a b : VOCAB) :
  cmp_le CompareVocabTie a b -> count b <= count a.
Proof. rewrite CompareVocabTie_le. lia. Qed.

Lemma print_loop_elem (min_count : Z) (vocab : list VOCAB) l :
  l ∈ print_loop min_count vocab ->
  exists v, v ∈ vocab /\ l = (word v, count v) /\ min_count <= count v.
Proof.
  induction vocab as [|x vocab IH]; cbn [print_loop]; [by intros ?%elem_of_nil|].
  destruct (Z.ltb_spec (count x) min_count); [by intros ?%elem_of_nil|].
  intros [->|Hl]%elem_of_cons.
  - exists x. split; [left|done].
  - destruct (IH Hl) as (v & Hv & ? & ?). exists v. split; [by right|done].
Qed.

Lemma print_loop_complete `{Platform} (min_count : Z) (vocab : list VOCAB) v :
  StronglySorted (cmp_le CompareVocabTie) vocab ->
  v ∈ vocab -> min_count <= count v ->
  (word v, count v) ∈ print_loop min_count vocab.
Proof.
  induction 1 as [|x vocab Hs IH Hall]; [by intros ?%elem_of_nil|].
  intros Hv Hc. cbn [print_loop]. rewrite Forall_forall in Hall.
  destruct (Z.ltb_spec (count x) min_count) as [Hlt|Hge].
  - exfalso. apply elem_of_cons in Hv as [->|Hv]; [lia|].
    apply Hall, CompareVocabTie_count in Hv. lia.
  - apply elem_of_cons in Hv as [->|Hv]; [left|right; by apply IH].
Qed.

Lemma print_loop_length (min_count : Z) (vocab : list VOCAB) :
  (length (print_loop min_count vocab) <= length vocab)%nat
  /\ ((length (print_loop min_count vocab) < length vocab)%nat ->
      exists v, v ∈ vocab /\ count v < min_count).
Proof.
  induction vocab as [|x vocab [IH1 IH2]]; cbn [print_loop length]; [split; [done|lia]|].
  destruct (Z.ltb_spec (count x) min_count) as [Hlt|Hge]; cbn [length].
  - split; [lia|]. intros _. exists x. split; [left|done].
  - split; [lia|]. intros Hl. destruct IH2 as (v & Hv & ?); [lia|].
    exists v. split; [by right|done].
Qed.

(** A run that ends normally: the array [vocab1] that is sorted and
    printed, and the number [n] of its entries that are kept. *)
Lemma get_counts_done `{Platform} (min_count max_vocab : Z) (input : list byte) lines :
  get_counts min_count max_vocab input = Done lines ->
  exists vocab1 (n : nat),
    NoDup (map word vocab1)
    /\ (forall v, v ∈ vocab1 ->
          word v ∈ tokens input /\ count v = occurrences (word v) (tokens input))
    /\ (forall w, w ∈ tokens input -> exists v, v ∈ vocab1 /\ word v = w)
    /\ (n <= length vocab1)%nat
    /\ (0 < max_vocab -> Z.of_nat n <= max_vocab)
    /\ ((n < length vocab1)%nat ->
        Z.of_nat n = max_vocab /\ 0 < max_vocab
        /\ StronglySorted (cmp_le CompareVocab) vocab1)
    /\ lines = print_loop min_count (qsort CompareVocabTie (take n vocab1)).
Proof.
  unfold get_counts.
  assert (Hb : Z.of_nat (Z.to_nat TSIZE) = TSIZE) by (unfold TSIZE; lia).
  revert Hb. generalize (Z.to_nat TSIZE). intros buckets Hb.
  pose proof (count_loop_counts (S (length input)) (fopen input) inithashtable [])
    as Hloop.
  fold (tokens input) in Hloop.
  destruct (count_loop (S (length input)) (fopen input) inithashtable) as [[ht|]|];
    [|done|done].
  destruct Hloop as (_ & Hwf & Hcnt);
    [cbn [fopen buf]; lia|apply wf_table_init|apply table_counts_init|].
  cbn [app] in Hcnt.
  destruct (migrate_spec ht buckets Hwf 0 []) as [Hnd _]; [constructor|constructor|].
  destruct (vocab_of_table ht (tokens input) buckets Hb Hwf Hcnt) as [Hsound Hcompl].
  set (vocab0 := migrate buckets 0 ht []) in *.
  destruct ((max_vocab >? 0) && (max_vocab <? Z.of_nat (length vocab0))) eqn:Hc.
  - apply andb_prop in Hc as [Hpos%Z.gtb_lt Hlt%Z.ltb_lt].
    pose proof (merge_sort_Permutation (cmp_le CompareVocab) vocab0) as Hperm.
    fold (qsort CompareVocab vocab0) in Hperm.
    pose proof (Permutation_length Hperm) as Hlen.
    set (sorted := qsort CompareVocabTie (take (Z.to_nat max_vocab) (qsort CompareVocab vocab0))).
    assert (Hls : length sorted = Z.to_nat max_vocab).
    { unfold sorted, qsort at 1.
      rewrite (Permutation_length (merge_sort_Permutation _ _)), length_take. lia. }
    rewrite take_app_length' by done.
    intros [= <-]. exists (qsort CompareVocab vocab0), (Z.to_nat max_vocab).
    split; [|split; [|split; [|split; [|split; [|split]]]]].
    + change (map word ?l) with (word <$> l) in *. by rewrite Hperm.
    + intros v Hv. apply Hsound. by rewrite <- Hperm.
    + intros w Hw. destruct (Hcompl w Hw) as (v & Hv & ?). exists v.
      split; [by rewrite Hperm|done].
    + lia.
    + lia.
    + intros _. split; [lia|]. split; [done|].
      pose proof CompareVocab_trans. pose proof CompareVocab_total.
      apply (StronglySorted_merge_sort (cmp_le CompareVocab)).
    + done.
  - set (sorted := qsort CompareVocabTie (take (Z.to_nat (Z.of_nat (length vocab0))) vocab0)).
    assert (Hls : length sorted = Z.to_nat (Z.of_nat (length vocab0))).
    { unfold sorted, qsort.
      rewrite (Permutation_length (merge_sort_Permutation _ _)), length_take. lia. }
    rewrite take_app_length' by done.
    intros [= <-]. exists vocab0, (length vocab0).
    split; [done|]. split; [done|]. split; [done|]. split; [done|].
    split; [|split; [lia|]].
    + intros Hpos. revert Hc.
      destruct (Z.gtb_spec max_vocab 0);
        destruct (Z.ltb_spec max_vocab (Z.of_nat (length vocab0))); cbn [andb];
        intros ?; try done; lia.
    + unfold sorted. by rewrite Nat2Z.id.
Qed.

(** *** The output *)

Lemma get_counts_ends `{Platform} (min_count max_vocab : Z) (input : list byte) :
  get_counts min_count max_vocab input <> OutOfFuel.
Proof.
  unfold get_counts. generalize (Z.to_nat TSIZE). intros buckets.
  destruct (count_loop_spec (S (length input)) (fopen input) inithashtable)
    as ([ht|] & -> & _); [cbn [fopen buf]; lia|apply wf_table_init| |done].
  by destruct (_ && _).
Qed.

Lemma get_counts_lines `{Platform} (min_count max_vocab : Z) (input : list byte) lines :
  get_counts min_count max_vocab input = Done lines ->
  NoDup (map fst lines)
  /\ forall w c, (w, c) ∈ lines ->
       w ∈ tokens input /\ c = occurrences w (tokens input) /\ min_count <= c.
Proof.
  intros Hrun.
  destruct (get_counts_done _ _ _ _ Hrun)
    as (vocab1 & n & Hnd & Hsound & _ & _ & _ & _ & ->).
  set (sorted := qsort CompareVocabTie (take n vocab1)).
  assert (Hsub : sorted ⊆+ vocab1).
  { unfold sorted, qsort. rewrite merge_sort_Permutation.
    apply sublist_submseteq, sublist_take. }
  split.
  - assert (Hnds : NoDup (map word sorted)).
    { change (map word ?l) with (word <$> l) in *.
      unfold sorted, qsort. rewrite merge_sort_Permutation, fmap_take.
      eapply sublist_NoDup; [exact Hnd|apply sublist_take]. }
    revert Hnds. generalize sorted. intros l. induction l as [|x l IH]; [constructor|].
    cbn [print_loop map]. intros [Hx Hl]%NoDup_cons.
    destruct (count x <? min_count); [constructor|]. cbn [map fst].
    apply NoDup_cons. split; [|by apply IH].
    intros Hin. apply Hx. apply list_elem_of_In, in_map_iff in Hin as ([w c] & Hw & Hin).
    cbn [fst] in Hw. subst w. apply list_elem_of_In, print_loop_elem in Hin as (v & Hv & [= -> ->] & _).
    apply list_elem_of_In, in_map. by apply list_elem_of_In.
  - intros w c (v & Hv & [= -> ->] & Hc)%print_loop_elem.
    destruct (Hsound v) as [? ?]; [by eapply elem_of_submseteq|]. done.
Qed.

(** X15: the lines printed have pairwise different words; the word of
    a line is a string read from the input, its count is the number
    of times that string was read, and no count is below
    [min_count]. *)
Theorem get_counts_lines_are_counts `{Platform} (min_count max_vocab : Z)
    (input : list byte) :
  match get_counts min_count max_vocab input with
  | Done lines =>
      NoDup (map fst lines)
      /\ forall w c, (w, c) ∈ lines ->
           w ∈ tokens input /\ c = occurrences w (tokens input) /\ min_count <= c
  | Failed => True
  | OutOfFuel => False
  end.
Proof.
  pose proof (get_counts_ends min_count max_vocab input) as Htot.
  destruct (get_counts min_count max_vocab input) as [lines| |] eqn:Hrun; [|done|done].
  by apply (get_counts_lines min_count max_vocab input).
Qed.

Lemma sorted_take_drop `{Platform} (vocab : list VOCAB) (n : nat) a b :
  StronglySorted (cmp_le CompareVocab) vocab ->
  a ∈ take n vocab -> b ∈ drop n vocab -> count b <= count a.
Proof.
  intros Hs Ha Hb. rewrite <- (take_drop n vocab) in Hs.
  apply StronglySorted_app in Hs as (Hab & _ & _).
  by apply CompareVocab_le, Hab.
Qed.

(** X16: at most [max_vocab] lines are printed when [max_vocab] is
    positive; a string of the input that is not printed was read no
    more often than any word printed; and unless [max_vocab] lines are
    printed, every string read at least [min_count] times is
    printed. *)
Theorem get_counts_keeps_most_frequent `{Platform} (min_count max_vocab : Z)
    (input : list byte) :
  match get_counts min_count max_vocab input with
  | Done lines =>
      (0 < max_vocab -> Z.of_nat (length lines) <= max_vocab)
      /\ (forall w l, w ∈ tokens input -> w ∉ map fst lines -> l ∈ lines ->
            occurrences w (tokens input) <= l.2)
      /\ (max_vocab <= 0 \/ Z.of_nat (length lines) < max_vocab ->
          forall w, w ∈ tokens input -> min_count <= occurrences w (tokens input) ->
                    w ∈ map fst lines)
  | Failed => True
  | OutOfFuel => False
  end.
Proof.
  pose proof (get_counts_ends min_count max_vocab input) as Htot.
  destruct (get_counts min_count max_vocab input) as [lines| |] eqn:Hrun; [|done|done].
  destruct (get_counts_done _ _ _ _ Hrun)
    as (vocab1 & n & _ & Hsound & Hcompl & Hn & Hmax & Htrunc & ->).
  set (sorted := qsort CompareVocabTie (take n vocab1)).
  assert (Hperm : sorted ≡ₚ take n vocab1) by apply merge_sort_Permutation.
  assert (Hlen : length sorted = n)
    by (rewrite (Permutation_length Hperm), length_take; lia).
  pose proof CompareVocabTie_trans as Htrans.
  pose proof CompareVocabTie_total as Htotal.
  assert (Hss : StronglySorted (cmp_le CompareVocabTie) sorted)
    by apply (StronglySorted_merge_sort (cmp_le CompareVocabTie)).
  assert (Hsplit : forall v, v ∈ vocab1 ->
            v ∈ sorted
            \/ (v ∈ drop n vocab1 /\ 0 < max_vocab /\ Z.of_nat n = max_vocab
                /\ StronglySorted (cmp_le CompareVocab) vocab1)).
  { intros v Hv. rewrite <- (take_drop n vocab1) in Hv.
    apply elem_of_app in Hv as [Hv|Hv]; [left; by rewrite Hperm|right].
    assert (n < length vocab1)%nat as Hlt.
    { destruct (decide (n < length vocab1)%nat); [done|].
      rewrite drop_ge in Hv by lia. by apply elem_of_nil in Hv. }
    destruct (Htrunc Hlt) as (? & ? & ?). done. }
  assert (Hprinted : forall v, v ∈ sorted -> min_count <= count v ->
            word v ∈ map fst (print_loop min_count sorted)).
  { intros v Hv Hc. apply list_elem_of_In, in_map_iff.
    exists (word v, count v). split; [done|].
    by apply list_elem_of_In, print_loop_complete. }
  split; [|split].
  - intros Hpos. pose proof (proj1 (print_loop_length min_count sorted)).
    specialize (Hmax Hpos). lia.
  - intros w l Hw Hnot (v' & Hv' & -> & Hc')%print_loop_elem. cbn [snd].
    destruct (Hcompl w Hw) as (v & Hv & <-).
    destruct (Hsound v Hv) as [_ <-].
    destruct (Hsplit v Hv) as [Hin|(Hin & _ & _ & Hs)].
    + destruct (Z.le_gt_cases min_count (count v)) as [Hge|Hlt]; [|lia].
      exfalso. by apply Hnot, Hprinted.
    + apply (sorted_take_drop vocab1 n); [done| |done]. by rewrite <- Hperm.
  - intros Hroom w Hw Hc.
    destruct (Hcompl w Hw) as (v & Hv & <-).
    destruct (Hsound v Hv) as [_ Hcv]. rewrite <- Hcv in Hc.
    destruct (Hsplit v Hv) as [Hin|(Hin & Hpos & Hnmax & Hs)]; [by apply Hprinted|].
    exfalso. destruct Hroom as [?|Hshort]; [lia|].
    destruct (proj2 (print_loop_length min_count sorted)) as (u & Hu & Hcu); [lia|].
    assert (count v <= count u); [|lia].
    apply (sorted_take_drop vocab1 n); [done| |done]. by rewrite <- Hperm.
Qed.

(** X17: the run is given up with return value 1 exactly when one of
    the strings read is the reserved word, which is spelt with the
    five bytes of [unk]; otherwise it ends normally. *)
Theorem get_counts_fails_on_unk `{Platform} (min_count max_vocab : Z)
    (input : list byte) :
  (get_counts min_count max_vocab input = Failed <-> unk ∈ tokens input)
  /\ (unk ∉ tokens input ->
      exists lines, get_counts min_count max_vocab input = Done lines).
Proof.
  unfold get_counts. generalize (Z.to_nat TSIZE). intros buckets.
  pose proof (count_loop_counts (S (length input)) (fopen input) inithashtable [])
    as Hloop.
  fold (tokens input) in Hloop.
  destruct (count_loop (S (length input)) (fopen input) inithashtable) as [[ht|]|].
  - destruct Hloop as (Hno & _);
      [cbn [fopen buf]; lia|apply wf_table_init|apply table_counts_init|].
    destruct (_ && _); (split; [split; [done|by intros ?]|intros _; by eexists]).
  - split; [split; [intros _|done]|intros Hno; exfalso; apply Hno];
      (apply Hloop; [cbn [fopen buf]; lia|apply wf_table_init|apply table_counts_init]).
  - exfalso. apply Hloop; [cbn [fopen buf]; lia|apply wf_table_init|apply table_counts_init].
Qed.

(** ** From the output of the vocabulary builder to the table of the
    accumulator *)

Import VocabCount VocabProps CountProps.

(** *** The strings read by [fscanf] *)

Lemma skip_space_split (s : list byte) :
  exists sp, s = sp ++ skip_space s /\ Forall (fun b => isspace b = true) sp.
Proof.
  induction s as [|b s (sp & Hs & Hsp)]; [by exists []|]. cbn [skip_space].
  destruct (isspace b) eqn:Hb; [|by exists []].
  exists (b :: sp). split; [cbn [app]; by f_equal|by constructor].
Qed.

Lemma skip_space_blanks (sp s : list byte) :
  Forall (fun b => isspace b = true) sp -> skip_space (sp ++ s) = skip_space s.
Proof. induction 1 as [|b sp Hb _ IH]; [done|]. cbn [app skip_space]. by rewrite Hb. Qed.

Lemma scan_word_spec (width : nat) :
  forall s, s = (scan_word width s).1 ++ (scan_word width s).2
            /\ Forall (fun b => isspace b = false) (scan_word width s).1
            /\ (length (scan_word width s).1 <= width)%nat.
Proof.
  induction width as [|width IH]; intros [|b s]; cbn [scan_word];
    try (split; [done|split; [constructor|cbn; lia]]).
  destruct (isspace b) eqn:Hb; [split; [done|split; [constructor|cbn; lia]]|].
  destruct (IH s) as (Hs & Hall & Hlen). destruct (scan_word width s) as [t rest].
  cbn [fst snd] in *. split; [by rewrite Hs at 1|]. split; [by constructor|cbn; lia].
Qed.

Lemma fscanf_s_word (width : nat) f t f' :
  fscanf_s (S width) f = (Some t, f') ->
  t <> [] /\ Forall (fun b => isspace b = false) t /\ (length t <= S width)%nat
  /\ exists sp, buf f = sp ++ t ++ buf f'.
Proof.
  unfold fscanf_s. destruct (skip_space_split (buf f)) as (sp & Hsp & _).
  destruct (skip_space (buf f)) as [|b r] eqn:Hskip; [done|].
  pose proof (skip_space_head _ _ _ Hskip) as Hb.
  destruct (scan_word_spec (S width) (b :: r)) as (Hs & Hall & Hlen).
  destruct (scan_word (S width) (b :: r)) as [t' rest] eqn:Hscan.
  intros [= <- <-]. cbn [fst snd buf] in *.
  split; [|split; [done|split; [done|]]].
  - cbn [scan_word] in Hscan. rewrite Hb in Hscan.
    destruct (scan_word width r). by injection Hscan as <- _.
  - exists sp. by rewrite Hsp, Hs at 1.
Qed.

Lemma cstring_no_nul (t : list byte) : Forall (fun b => b <> x00) t -> cstring t = t.
Proof.
  induction 1 as [|b t Hb _ IH]; [done|]. cbn [cstring].
  destruct (Byte.eqb b x00) eqn:Heq; [by apply Byte.byte_dec_bl in Heq|]. by rewrite IH.
Qed.

Lemma scan_tokens_words (fuel : nat) :
  forall fid,
    Forall (fun b => b <> x00) (buf fid) -> Forall is_word (scan_tokens fuel fid).
Proof.
  induction fuel as [|fuel IH]; intros fid Hnul; cbn [scan_tokens]; [constructor|].
  destruct (fscanf_s MAX_STRING_LENGTH fid) as [[t|] fid'] eqn:Hf; [|constructor].
  apply fscanf_s_word in Hf as (Hne & Hsp & Hlen & sp & Hbuf).
  rewrite Hbuf in Hnul. apply Forall_app in Hnul as [_ Hnul].
  apply Forall_app in Hnul as [Ht Hrest].
  rewrite cstring_no_nul by done. constructor; [|by apply IH].
  split; [done|]. split; [|done].
  apply Forall_forall. intros b Hb. rewrite Forall_forall in Hsp, Ht. auto.
Qed.

(** *** The lines written by [printf] *)

Lemma digit_byte (k : Z) : 0 <= k < 10 -> isdigit (byte_of_int (48 + k)) = true.
Proof.
  intros Hk.
  assert (k = 0 \/ k = 1 \/ k = 2 \/ k = 3 \/ k = 4 \/ k = 5 \/ k = 6 \/ k = 7
          \/ k = 8 \/ k = 9) as Hcases by lia.
  repeat (destruct Hcases as [->|Hcases]; [by vm_compute|]). by subst.
Qed.

Lemma isdigit_props (b : byte) :
  isdigit b = true ->
  isspace b = false /\ ((int_of_byte b =? 43) || (int_of_byte b =? 45)) = false.
Proof. destruct b; vm_compute; intros; (done || split; done). Qed.

Lemma digits_spec (fuel : nat) :
  forall n acc,
    0 <= n -> Forall (fun b => isdigit b = true) acc ->
    Forall (fun b => isdigit b = true) (digits fuel n acc)
    /\ ((0 < fuel)%nat \/ acc <> [] -> digits fuel n acc <> []).
Proof.
  induction fuel as [|fuel IH]; intros n acc Hn Hacc; cbn [digits].
  - split; [done|]. intros [?|?]; [lia|done].
  - assert (Hacc' : Forall (fun b => isdigit b = true)
                      (byte_of_int (48 + n mod 10) :: acc)).
    { constructor; [|done]. apply digit_byte. lia. }
    destruct (n / 10 =? 0); [split; [done|by intros _]|].
    destruct (IH (n / 10) (byte_of_int (48 + n mod 10) :: acc)) as [Hall Hne];
      [lia|done|]. split; [done|]. intros _. apply Hne. by right.
Qed.

Lemma lld_shape (z : Z) :
  exists sign ds,
    lld z = sign ++ ds /\ (sign = [] \/ sign = [x2d])
    /\ ds <> [] /\ Forall (fun b => isdigit b = true) ds.
Proof.
  unfold lld. destruct (Z.ltb_spec z 0).
  - destruct (digits_spec (S (Z.to_nat (Z.log2 (- z)))) (- z) []) as [Hall Hne];
      [lia|constructor|].
    exists [x2d], (digits (S (Z.to_nat (Z.log2 (- z)))) (- z) []).
    split; [done|]. split; [by right|]. split; [apply Hne; left; lia|done].
  - destruct (digits_spec (S (Z.to_nat (Z.log2 z))) z []) as [Hall Hne];
      [lia|constructor|].
    exists [], (digits (S (Z.to_nat (Z.log2 z))) z []).
    split; [done|]. split; [by left|]. split; [apply Hne; left; lia|done].
Qed.

Lemma skip_digits_app (ds rest : list byte) :
  Forall (fun b => isdigit b = true) ds -> skip_digits (ds ++ rest) = skip_digits rest.
Proof. induction 1 as [|b ds Hb _ IH]; [done|]. cbn [app skip_digits]. by rewrite Hb. Qed.

(** The number of a line and the newline behind it, as the conversion
    [%lld] of [fscanf] passes over them. *)
Lemma lld_scanned (z : Z) (rest : list byte) :
  skip_digits (skip_sign (skip_space (x20 :: lld z ++ x0a :: rest))) = x0a :: rest.
Proof.
  destruct (lld_shape z) as (sign & ds & -> & Hsign & Hne & Hds).
  destruct ds as [|d ds]; [done|]. apply Forall_cons in Hds as [Hd Hds].
  destruct (isdigit_props d Hd) as [Hsp Hpm].
  change (skip_space (x20 :: ?s)) with (skip_space s).
  destruct Hsign as [-> | ->]; cbn [app skip_space].
  - rewrite Hsp. cbn [skip_sign]. rewrite Hpm. cbn [skip_digits]. rewrite Hd.
    by rewrite skip_digits_app.
  - change (isspace x2d) with false. cbn [skip_sign].
    change ((int_of_byte x2d =? 43) || (int_of_byte x2d =? 45)) with true.
    cbn [skip_digits]. rewrite Hd. by rewrite skip_digits_app.
Qed.

Lemma fscanf_line (sp w rest : list byte) (c : Z) e :
  Forall (fun b => isspace b = true) sp ->
  is_word w ->
  fscanf_s_lld MAX_STRING_LENGTH {| buf := sp ++ printf_line (w, c) ++ rest; eof := e |}
  = (Some w, {| buf := x0a :: rest; eof := false |}).
Proof.
  intros Hsp (Hne & Hall & Hlen).
  unfold fscanf_s_lld, fscanf_s, printf_line. cbn [buf fst snd].
  rewrite skip_space_blanks by done.
  destruct w as [|b t]; [done|]. pose proof Hall as Hall'.
  apply Forall_cons in Hall' as [[Hb _] _].
  rewrite <- !app_assoc. cbn [app].
  rewrite (skip_space_token t _ b Hb).
  assert (Hscan : scan_word MAX_STRING_LENGTH ((b :: t) ++ x20 :: lld c ++ x0a :: rest)
                  = (b :: t, x20 :: lld c ++ x0a :: rest)).
  { rewrite (scan_word_token _ x20) by
      (try done; apply forallb_forall; intros x Hx%list_elem_of_In;
       rewrite Forall_forall in Hall; destruct (Hall x Hx) as [-> _]; done).
    rewrite take_ge, drop_ge by done. done. }
  cbn [app] in Hscan. rewrite Hscan. cbn [buf].
  pose proof (lld_scanned c rest) as Hnum. by rewrite Hnum.
Qed.

Lemma read_vocab_lines `{Platform} (lines : list (list byte * Z)) :
  Forall (fun l => is_word l.1) lines ->
  forall (fuel : nat) sp e ht j,
    Forall (fun b => isspace b = true) sp ->
    (length lines < fuel)%nat ->
    Cooccur.read_vocab fuel {| buf := sp ++ stdout_bytes lines; eof := e |} ht j
    = Some (read_lines lines ht j).
Proof.
  induction 1 as [|[w c] lines Hw _ IH]; intros fuel sp e ht j Hsp Hfuel;
    (destruct fuel as [|fuel]; [cbn [length] in Hfuel; lia|]); cbn [Cooccur.read_vocab].
  - unfold stdout_bytes. cbn [map concat]. rewrite app_nil_r.
    unfold fscanf_s_lld, fscanf_s. cbn [buf].
    pose proof (skip_space_blanks sp [] Hsp) as Hskip. rewrite app_nil_r in Hskip.
    by rewrite Hskip.
  - unfold stdout_bytes. cbn [map concat]. fold (stdout_bytes lines).
    rewrite (fscanf_line sp w (stdout_bytes lines) c e Hsp Hw).
    destruct Hw as (_ & Hall & _). cbn [fst] in Hall.
    rewrite cstring_no_nul
      by (eapply Forall_impl; [exact Hall|]; by intros b [_ ?]).
    rewrite (IH fuel [x0a] false); [done|by repeat constructor|cbn [length] in Hfuel; lia].
Qed.

Lemma stdout_bytes_length (lines : list (list byte * Z)) :
  (length lines <= length (stdout_bytes lines))%nat.
Proof.
  induction lines as [|l lines IH]; [done|].
  unfold stdout_bytes, printf_line in *. cbn [map concat length].
  rewrite !length_app. cbn [length]. lia.
Qed.

(** *** The table after reading *)

Lemma read_lines_lookup `{Platform} (lines : list (list byte * Z)) :
  forall ht j,
    Forall (fun l => nul_free l.1) lines ->
    NoDup (map fst lines) ->
    (forall w, w ∈ map fst lines -> (Cooccur.hashsearch ht w).1 = None) ->
    (read_lines lines ht j).2 = j + Z.of_nat (length lines)
    /\ (forall (i : nat) w c, lines !! i = Some (w, c) ->
          (Cooccur.hashsearch (read_lines lines ht j).1 w).1
          = Some (Cooccur.mkHASHREC w (j + Z.of_nat i + 1)))
    /\ (forall w, cstring w ∉ map fst lines ->
          (Cooccur.hashsearch (read_lines lines ht j).1 w).1
          = (Cooccur.hashsearch ht w).1).
Proof.
  induction lines as [|[w0 c0] lines IH]; intros ht j Hnul Hnd Hfree.
  - cbn. split; [lia|]. split; [done|done].
  - apply Forall_cons in Hnul as [Hw0 Hnul]. cbn [map fst] in Hnd, Hfree, Hw0.
    apply NoDup_cons in Hnd as [Hw0nd Hnd].
    destruct (hashinsert_lookup ht w0 (j + 1)) as [Hsame Hother].
    rewrite (Hfree w0) in Hsame by left.
    change (read_lines ((w0, c0) :: lines) ht j)
      with (read_lines lines (Cooccur.hashinsert ht w0 (j + 1)) (j + 1)).
    destruct (IH (Cooccur.hashinsert ht w0 (j + 1)) (j + 1) Hnul Hnd)
      as (Hcount & Hfound & Hrest).
    { intros w Hw. rewrite Hother; [apply Hfree; by right|].
      assert (nul_free w) as Hwn.
      { rewrite Forall_forall in Hnul.
        apply list_elem_of_In, in_map_iff in Hw as (l & <- & Hl).
        by apply Hnul, list_elem_of_In. }
      rewrite Hwn, Hw0. by intros ->. }
    split; [cbn [length]; lia|]. split.
    + intros [|i] w c; cbn.
      * intros [= <- <-]. rewrite Hrest by (by rewrite Hw0).
        rewrite Hsame. do 2 f_equal. lia.
      * intros Hi. rewrite (Hfound i w c Hi). do 2 f_equal. lia.
    + intros w Hw. cbn [map fst] in Hw.
      rewrite Hrest by (intros ?; apply Hw; by right).
      apply Hother. rewrite Hw0. intros Heq. apply Hw. rewrite Heq. left.
Qed.

(** X18: the accumulator reads the output of the vocabulary builder
    back as it was meant: for input without NUL bytes, the lines
    printed by [get_counts], given as vocabulary file, load as many
    words as there are lines, a search for the word of line [i]
    (counted from 0) finds the rank [i + 1], and no other string is
    found. *)
Theorem vocab_file_read_back `{Platform} (min_count max_vocab : Z)
    (input : list byte) (lines : list (list byte * Z)) :
  Forall (fun b => b <> x00) input ->
  get_counts min_count max_vocab input = Done lines ->
  exists ht,
    Cooccur.load_vocab (stdout_bytes lines) = Some (ht, Z.of_nat (length lines))
    /\ (forall (i : nat) w c, lines !! i = Some (w, c) ->
          (Cooccur.hashsearch ht w).1 = Some (Cooccur.mkHASHREC w (Z.of_nat i + 1)))
    /\ (forall w, cstring w ∉ map fst lines -> (Cooccur.hashsearch ht w).1 = None).
Proof.
  intros Hnul Hrun.
  destruct (get_counts_lines _ _ _ _ Hrun) as [Hnd Hlines].
  pose proof (scan_tokens_words (S (length input)) (fopen input) Hnul) as Hwords.
  fold (tokens input) in Hwords. rewrite Forall_forall in Hwords.
  assert (Hall : Forall (fun l => is_word l.1) lines).
  { apply Forall_forall. intros [w c] Hl. apply Hwords. by apply (Hlines w c). }
  unfold Cooccur.load_vocab.
  pose proof (read_vocab_lines lines Hall (S (length (stdout_bytes lines))) [] false
                Cooccur.inithashtable 0) as Hread.
  cbn [app] in Hread. unfold fopen. rewrite Hread;
    [|constructor|pose proof (stdout_bytes_length lines); lia].
  destruct (read_lines_lookup lines Cooccur.inithashtable 0) as (Hcount & Hfound & Hrest).
  - eapply Forall_impl; [exact Hall|]. intros l (_ & Hl & _). apply cstring_no_nul.
    eapply Forall_impl; [exact Hl|]. by intros b [_ ?].
  - done.
  - intros w _. by rewrite hashsearch_fst.
  - destruct (read_lines lines Cooccur.inithashtable 0) as [ht j'].
    cbn [fst snd] in *. exists ht. split; [by rewrite Hcount|]. split; [exact Hfound|].
    intros w Hw. rewrite (Hrest w Hw). by rewrite hashsearch_fst.
Qed.

Lemma vocab_file_read_back_witness :
  let lines := [([x62], 2); ([x61], 1)] in
  exists ht,
    Cooccur.load_vocab (plat := x86_64) (stdout_bytes lines)
    = Some (ht, Z.of_nat (length lines))
    /\ (forall (i : nat) w c, lines !! i = Some (w, c) ->
          (Cooccur.hashsearch (plat := x86_64) ht w).1
          = Some (Cooccur.mkHASHREC w (Z.of_nat i + 1)))
    /\ (forall w, cstring w ∉ map fst lines ->
          (Cooccur.hashsearch (plat := x86_64) ht w).1 = None).
Proof.
  intros lines.
  apply (vocab_file_read_back (H := x86_64) 1 0 [x62; x20; x61; x20; x62; x0a] lines).
  - forall_list ltac:(discriminate).
  - by vm_compute.
Defined.

(** ** The shuffler with its random source *)

Import Cooccur Shuffle ShuffleProps.

(** *** [rand_long] *)

Lemma rand_long_loop_drops (n lim : Z) (dropped : list (Z * Z)) (tail : list Z) :
  Forall (fun p => lim <= rand_pair p) dropped ->
  rand_long_loop n lim (draws_of dropped ++ tail) = rand_long_loop n lim tail.
Proof.
  induction 1 as [|[a b] dropped Hp _ IH]; [done|].
  cbn [draws_of flat_map app fst snd]. fold (draws_of dropped).
  cbn [rand_long_loop]. unfold rand_pair in Hp. cbn [fst snd] in Hp.
  by destruct (Z.geb_spec ((RAND_MAX + 1) * a + b) lim); [|lia].
Qed.

(** X19: [rand_long(n)] for [n >= 1] drops the pairs of values of
    [rand] that give a number of [limit] or more, as many as there
    are, and with the first pair that gives a number below [limit] it
    returns the remainder of that number by [n], a value from 0 to
    [n - 1]; no value of [rand] behind that pair is used.  [limit] is
    a multiple of [n]. *)
Theorem rand_long_in_range (n : Z) (dropped : list (Z * Z)) (a b : Z) (rest : list Z) :
  1 <= n ->
  rand_value a -> rand_value b ->
  Forall (fun p => limit n <= rand_pair p) dropped ->
  rand_pair (a, b) < limit n ->
  rand_long n (draws_of dropped ++ a :: b :: rest) = Some (rand_pair (a, b) mod n, rest)
  /\ 0 <= rand_pair (a, b) mod n < n
  /\ limit n mod n = 0.
Proof.
  intros Hn Ha Hb Hdropped Hlt. unfold rand_long. fold (limit n).
  rewrite rand_long_loop_drops by done. cbn [rand_long_loop].
  unfold rand_pair in *. cbn [fst snd] in *.
  destruct (Z.geb_spec ((RAND_MAX + 1) * a + b) (limit n)); [lia|].
  unfold rand_value, RAND_MAX in *.
  assert (0 <= (2147483647 + 1) * a + b) by lia.
  rewrite Z.rem_mod_nonneg by lia.
  split; [done|]. split; [apply Z.mod_pos_bound; lia|].
  unfold limit. rewrite Z.rem_mod_nonneg by (unfold LRAND_MAX, RAND_MAX; lia).
  rewrite Zminus_mod, Zmod_mod, Z.sub_diag. apply Z.mod_0_l. lia.
Qed.

(** With [n = 3] the limit is [LRAND_MAX] itself; the pair of two
    values [RAND_MAX] gives that number and is dropped. *)
Lemma rand_long_in_range_witness :
  rand_long 3 (draws_of [(RAND_MAX, RAND_MAX)] ++ 0 :: 5 :: [7])
  = Some (rand_pair (0, 5) mod 3, [7])
  /\ 0 <= rand_pair (0, 5) mod 3 < 3
  /\ limit 3 mod 3 = 0.
Proof.
  apply (rand_long_in_range 3 [(RAND_MAX, RAND_MAX)] 0 5 [7]).
  - lia.
  - unfold rand_value, RAND_MAX. lia.
  - unfold rand_value, RAND_MAX. lia.
  - forall_list ltac:(by vm_compute).
  - by vm_compute.
Defined.

Lemma rand_long_accepts (n a b : Z) (rest : list Z) :
  1 <= n <= RAND_MAX + 1 -> below_max a -> below_max b ->
  rand_long n (a :: b :: rest) = Some (Z.rem ((RAND_MAX + 1) * a + b) n, rest).
Proof.
  intros Hn Ha Hb. unfold rand_long. cbn [rand_long_loop].
  assert (Hrem : 0 <= Z.rem LRAND_MAX n < n)
    by (apply Z.rem_bound_pos; unfold LRAND_MAX, RAND_MAX in *; lia).
  destruct (Z.geb_spec ((RAND_MAX + 1) * a + b) (LRAND_MAX - Z.rem LRAND_MAX n));
    [|done].
  unfold below_max, LRAND_MAX, RAND_MAX in *. lia.
Qed.

(** *** [shuffle] *)

Lemma shuffle_loop_total (i : nat) :
  forall array draws,
    Z.of_nat i <= RAND_MAX ->
    Forall below_max draws -> (2 * i <= length draws)%nat ->
    exists array', shuffle_loop i array draws = Some (array', drop (2 * i) draws).
Proof.
  induction i as [|i IH]; intros array draws Hi Hdraws Hlen; [by eexists|].
  destruct draws as [|a [|b rest]]; cbn [length] in Hlen; try lia.
  apply Forall_cons in Hdraws as [Ha Hdraws]. apply Forall_cons in Hdraws as [Hb Hdraws].
  cbn [shuffle_loop]. rewrite rand_long_accepts by (done || lia).
  replace (2 * S i)%nat with (S (S (2 * i))) by lia. cbn [drop].
  apply IH; [lia|done|lia].
Qed.

(** X20: [shuffle(array, n)] draws [n - 1] numbers with [rand_long],
    permutes the array and leaves the entries from index [n] on in
    place; given a random source that never returns [RAND_MAX] and
    has two values for each draw, it ends. *)
Theorem shuffle_permutes (array : list CREC) (n : Z) (draws : list Z) :
  n <= Z.of_nat (length array) ->
  n <= RAND_MAX + 1 ->
  Forall below_max draws ->
  2 * (n - 1) <= Z.of_nat (length draws) ->
  exists array',
    shuffle array n draws = Some (array', drop (2 * Z.to_nat (n - 1)) draws)
    /\ array' ≡ₚ array
    /\ forall k : nat, n <= Z.of_nat k -> array' !! k = array !! k.
Proof.
  intros Hn Hmax Hdraws Hlen. unfold shuffle.
  destruct (shuffle_loop_total (Z.to_nat (n - 1)) array draws) as (array' & Hrun);
    [unfold RAND_MAX in *; lia|done|lia|].
  exists array'. split; [done|]. split.
  - eapply shuffle_loop_perm; [|exact Hrun]. lia.
  - intros k Hk. eapply shuffle_loop_above; [exact Hrun|]. lia.
Qed.

Lemma shuffle_permutes_witness :
  let array := [mkCREC 1 1 1; mkCREC 1 2 1; mkCREC 2 1 1; mkCREC 2 2 1] in
  let draws := [0; 1; 0; 0; 9] in
  exists array',
    shuffle array 3 draws = Some (array', drop (2 * Z.to_nat (3 - 1)) draws)
    /\ array' ≡ₚ array
    /\ forall k : nat, 3 <= Z.of_nat k -> array' !! k = array !! k.
Proof.
  intros array draws. apply (shuffle_permutes array 3 draws).
  - cbn. lia.
  - unfold RAND_MAX. lia.
  - forall_list ltac:(unfold below_max, RAND_MAX; lia).
  - cbn. lia.
Defined.

(** *** The temporary files *)









(** *** The second phase *)








(** ** Command-line options *)

Import ArgProps.

Lemma find_arg_loop_spec `{Platform} (str : list byte) (argv : list (list byte)) :
  forall rest (i : nat),
    drop i argv = rest -> (1 <= i)%nat ->
    (forall k, (1 <= k < i)%nat -> ~ matches str argv k) ->
    find_arg_post str argv
      (find_arg_loop str (Z.of_nat (length argv)) (Z.of_nat i) rest).
Proof.
  induction rest as [|a rest IH]; intros i Hdrop Hi Hnone; cbn [find_arg_loop].
  - left. split; [done|]. intros k Hk (b & Hb & Hbs).
    destruct (decide (k < i)%nat) as [Hlt|Hge]; [apply (Hnone k); [lia|by exists b]|].
    apply lookup_lt_Some in Hb.
    assert (length (drop i argv) = 0%nat) as Hlen by (by rewrite Hdrop).
    rewrite length_drop in Hlen. lia.
  - assert (Hlook : argv !! i = Some a).
    { rewrite <- (Nat.add_0_r i), <- lookup_drop, Hdrop. done. }
    assert (Hrest : drop (S i) argv = rest).
    { replace (S i) with (i + 1)%nat by lia.
      rewrite <- (drop_drop argv 1 i), Hdrop. done. }
    pose proof (lookup_lt_Some _ _ _ Hlook) as Hlt.
    destruct (Z.eqb_spec (scmp str a) 0) as [Heq|Hne].
    + assert (matches str argv i) as Hm.
      { exists a. split; [done|]. symmetry. by apply scmp_cstring. }
      destruct (Z.eqb_spec (Z.of_nat i) (Z.of_nat (length argv) - 1)) as [Hlast|Hmid].
      * cbn [find_arg_post]. replace (length argv - 1)%nat with i by lia.
        split; [lia|]. split; [done|done].
      * right. rewrite Nat2Z.id. split; [lia|]. split; [lia|]. done.
    + replace (Z.of_nat i + 1) with (Z.of_nat (S i)) by lia.
      apply IH; [done|lia|]. intros k Hk.
      destruct (decide (k = i)) as [->|Hki]; [|apply Hnone; lia].
      intros (b & Hb & Hbs). rewrite Hlook in Hb. injection Hb as <-.
      apply Hne. apply scmp_cstring. done.
Qed.

(** X24: [find_arg] looks for the first argument behind the program
    name that is the string [str].  If there is none it returns -1;
    if that argument is the last one it calls [exit]; otherwise it
    returns the index [i] of that argument, which is at least 1 and
    has an argument [i + 1] behind it. *)
Theorem find_arg_first_match `{Platform} (str : list byte) (argv : list (list byte)) :
  find_arg_post str argv (find_arg str argv).
Proof.
  unfold find_arg. apply (find_arg_loop_spec str argv (drop 1 argv) 1); [done|lia|].
  intros k Hk. lia.
Qed.
